(** * Graph-rewriting utilities of the PT2E quantization flow

    A shallow embedding of [torch/ao/quantization/pt2e/utils.py]:
    operand resolution against an operator schema, folding of batch-norm
    parameters into a preceding convolution, overload canonicalisation of
    the quantize/dequantize operators, the dropout match filter and the
    promotion of literals to placeholders. *)

From Stdlib Require Import ZArith QArith_base.
From stdpp Require Import base option list strings gmap pretty.

Set Warnings "-register-all,-clear-no-such-hyp".
Local Close Scope Q_scope.
Local Open Scope string_scope.
Local Open Scope list_scope.
Local Open Scope nat_scope.

(** ** Python results *)

(** The exceptions the module can raise.  [RecursionLimit] is not a Python
    exception of the module: it marks an iteration of the model that ran
    out of its step budget. *)
Inductive exn : Type :=
| AssertionError
| IndexError
| AttributeError
| TypeError
| ValueError (msg : string)
| RuntimeError
| ExternalError
| RecursionLimit.

Inductive result (A : Type) : Type :=
| Ok (a : A)
| Raise (e : exn).
Arguments Ok {A} a.
Arguments Raise {A} e.

Global Instance result_ret : MRet result := λ A a, Ok a.

Global Instance result_bind : MBind result := λ A B k r,
  match r with
  | Ok a => k a
  | Raise e => Raise e
  end.

(** [l[i]] on a Python sequence: [IndexError] out of range. *)
Definition py_index {A} (l : list A) (i : nat) : result A :=
  match l !! i with
  | Some a => Ok a
  | None => Raise IndexError
  end.

(** [assert b]. *)
Definition py_assert (b : bool) : result unit :=
  if b then Ok tt else Raise AssertionError.

(** ** The graph data model (torch.fx) *)

(** Nodes are identified by their (unique) name, a number here. *)
Definition node_id := nat.

Inductive Op : Type :=
| placeholder
| get_attr
| call_function
| call_module
| call_method
| output.

Global Instance Op_eq_dec : EqDecision Op.
Proof. solve_decision. Defined.

(** Node targets: a string (placeholder, attribute or method name), an
    operator overload [torch.ops.<ns>.<op>.<overload>], an overload packet
    [torch.ops.<ns>.<op>], [operator.getitem], or any other callable. *)
Inductive Target : Type :=
| T_str (s : string)
| T_overload (ns opname overload : string)
| T_packet (ns opname : string)
| T_getitem
| T_callable (qualname : string).

Global Instance Target_eq_dec : EqDecision Target.
Proof. solve_decision. Defined.

(** Argument values: Python literals, node references and nested
    tuples/lists of them.  [A_obj] stands for any other immutable object
    (a dtype, a memory format, a string). *)
Inductive Arg : Type :=
| A_none
| A_bool (b : bool)
| A_int (z : Z)
| A_float (q : Q)
| A_obj (repr : string)
| A_node (n : node_id)
| A_tuple (l : list Arg)
| A_list (l : list Arg).

Record Node : Type := mkNode {
  name : node_id;
  op : Op;
  target : Target;
  args : list Arg;
  kwargs : gmap string Arg
}.

(** One entry of an operator's argument schema. *)
Record Argument (V : Type) : Type := mkArgument {
  arg_name : string;
  kwarg_only : bool;
  default_value : V
}.
Arguments mkArgument {V} _ _ _.
Arguments arg_name {V} _.
Arguments kwarg_only {V} _.
Arguments default_value {V} _.

(** ** Operand resolution *)

(** The entry chosen for the schema entry at index [i]. *)
Definition resolve_argument {V} (orig_args : list V) (orig_kwargs : gmap string V)
    (i : nat) (schema : Argument V) : V :=
  match orig_kwargs !! arg_name schema with
  | Some v => v
  | None =>
      if negb (kwarg_only schema) && bool_decide (i < length orig_args)
      then match orig_args !! i with
           | Some v => v
           | None => default_value schema
           end
      else default_value schema
  end.

(** The loop of [_get_all_arguments], started at index [i]. *)
Fixpoint _get_all_arguments_from {V} (i : nat) (orig_args : list V)
    (orig_kwargs : gmap string V) (args_schema : list (Argument V)) : list V :=
  match args_schema with
  | [] => []
  | schema :: rest =>
      resolve_argument orig_args orig_kwargs i schema
        :: _get_all_arguments_from (S i) orig_args orig_kwargs rest
  end.

Definition _get_all_arguments {V} (orig_args : list V)
    (orig_kwargs : gmap string V) (args_schema : list (Argument V)) : list V :=
  _get_all_arguments_from 0 orig_args orig_kwargs args_schema.

(** ** Graphs *)

(** Modelled from the spec: the graph engine ([torch.fx.Graph] and
    [torch.fx.Node], outside this module).  A graph is the ordered sequence
    of its nodes; a node's [users] are the nodes holding a direct argument
    reference to it (spec, data model). *)
Definition find_node (g : list Node) (n : node_id) : option Node :=
  List.find (λ x, bool_decide (name x = n)) g.

Definition in_graph (g : list Node) (n : node_id) : bool :=
  bool_decide (n ∈ name <$> g).

(** The node references inside an argument value. *)
Fixpoint arg_nodes (a : Arg) : list node_id :=
  match a with
  | A_node n => [n]
  | A_tuple l | A_list l => concat (map arg_nodes l)
  | _ => []
  end.

Definition all_input_nodes (u : Node) : list node_id :=
  concat (map arg_nodes (args u))
  ++ concat (map arg_nodes (snd <$> map_to_list (kwargs u))).

Definition uses (u : Node) (n : node_id) : bool :=
  bool_decide (n ∈ all_input_nodes u).

Definition users (g : list Node) (n : node_id) : list Node :=
  filter (λ u, uses u n = true) g.

(** Modelled from the spec: [torch.fx.node.map_arg]: applies a function to
    every node reference of an argument value, through tuples and lists. *)
Fixpoint map_arg (f : node_id → node_id) (a : Arg) : Arg :=
  match a with
  | A_node n => A_node (f n)
  | A_tuple l => A_tuple (map (map_arg f) l)
  | A_list l => A_list (map (map_arg f) l)
  | _ => a
  end.

Definition map_node_args (f : node_id → node_id) (u : Node) : Node :=
  mkNode (name u) (op u) (target u) (map_arg f <$> args u) (map_arg f <$> kwargs u).

Definition maybe_replace_node (self replace_with : node_id) (n : node_id) : node_id :=
  if decide (n = self) then replace_with else n.

(** Modelled from the spec: [Node.replace_all_uses_with]: every user of
    [self] has its references to [self], in args and kwargs, replaced by
    [replace_with]. *)
Definition replace_all_uses_with (self replace_with : node_id) (g : list Node)
    : list Node :=
  (λ u, if uses u self then map_node_args (maybe_replace_node self replace_with) u
        else u) <$> g.

(** [node.args = new_args]. *)
Definition set_args (n : node_id) (new_args : list Arg) (g : list Node) : list Node :=
  (λ u, if decide (name u = n)
        then mkNode (name u) (op u) (target u) new_args (kwargs u)
        else u) <$> g.

(** A name no node of the graph has. *)
Definition fresh_name (g : list Node) : node_id := S (max_list (name <$> g)).

(** Modelled from the spec: [Graph.create_node] for a node without
    arguments ([Graph.get_attr], [Graph.placeholder]). *)
Definition create_node (g : list Node) (o : Op) (t : Target) : Node :=
  mkNode (fresh_name g) o t [] ∅.

(** Modelled from the spec: insertion points ([Graph.inserting_before],
    [Graph.inserting_after]).  Under [inserting_before(x)] a created node
    is linked directly before [x]; under [inserting_after(x)] the hook is
    [x.append], which links every created node directly after [x]. *)
Fixpoint insert_before (anchor : node_id) (new : Node) (g : list Node) : list Node :=
  match g with
  | [] => []
  | x :: r =>
      if decide (name x = anchor) then new :: x :: r
      else x :: insert_before anchor new r
  end.

Fixpoint insert_after (anchor : node_id) (new : Node) (g : list Node) : list Node :=
  match g with
  | [] => []
  | x :: r =>
      if decide (name x = anchor) then x :: new :: r
      else x :: insert_after anchor new r
  end.

(** The node following [cur] in the node list: the iterator of
    [graph.nodes] walks the live linked list. *)
Fixpoint next_node (g : list Node) (cur : node_id) : option node_id :=
  match g with
  | [] => None
  | x :: r =>
      if decide (name x = cur) then name <$> head r else next_node r cur
  end.

(** [for n in graph.nodes: body], on a graph the body may extend.  The
    step budget [fuel] bounds the number of iterations. *)
Fixpoint for_each_node {S : Type} (graph_of : S → list Node)
    (body : node_id → S → result S) (fuel : nat) (cur : option node_id) (s : S)
    : result S :=
  match cur with
  | None => Ok s
  | Some n =>
      match fuel with
      | 0 => Raise RecursionLimit
      | Datatypes.S fuel' =>
          s' ← body n s;
          for_each_node graph_of body fuel' (next_node (graph_of s') n) s'
      end
  end.

(** Modelled from the spec: [Graph.lint], as far as node order goes: every
    node reference is to a node defined earlier in the graph, and no name
    is defined twice (spec: insertion order is def-before-use order). *)
Fixpoint lint_from (seen : list node_id) (g : list Node) : bool :=
  match g with
  | [] => true
  | x :: r =>
      forallb (λ a, bool_decide (a ∈ seen)) (all_input_nodes x)
      && bool_decide (name x ∉ seen)
      && lint_from (name x :: seen) r
  end.

Definition lint (g : list Node) : bool := lint_from [] g.

(** ** Pytree specs *)

(** [torch.utils._pytree.TreeSpec]; a [LeafSpec] has no type and no
    children. *)
Inductive TreeSpec : Type :=
| mkTreeSpec (type : option string) (children_specs : list TreeSpec).

Definition LeafSpec : TreeSpec := mkTreeSpec None [].

Definition children_specs (s : TreeSpec) : list TreeSpec :=
  match s with mkTreeSpec _ c => c end.

Definition spec_type (s : TreeSpec) : option string :=
  match s with mkTreeSpec t _ => t end.

(** ** Graph modules and the external collaborators *)

Section graph_module.
Context {tensor : Type}.

(** A [GraphModule]: the graph, the parameter storage (attribute name to
    value) and the input spec of exported modules. *)
Record GraphModule : Type := mkGraphModule {
  graph : list Node;
  attrs : gmap string tensor;
  _in_spec : option TreeSpec
}.

(** What the module takes from outside: the schema of an operator
    ([target._schema.arguments]), the numeric fusion
    [torch.nn.utils.fusion.fuse_conv_bn_weights], and the targets the
    graph engine treats as side-effecting. *)
Record Externals : Type := mkExternals {
  schema_of : Target → option (list (Argument Arg));
  fuse_conv_bn_weights :
    option tensor → option tensor → option tensor → option tensor → Arg →
    option tensor → option tensor → Arg → result (tensor * tensor);
  side_effectful : Target → bool
}.

Context (E : Externals).

Definition with_graph (m : GraphModule) (g : list Node) : GraphModule :=
  mkGraphModule g (attrs m) (_in_spec m).

(** A node the code holds a reference to: its record in the graph. *)
Definition get_node (m : GraphModule) (n : node_id) : result Node :=
  match find_node (graph m) n with
  | Some nd => Ok nd
  | None => Raise RuntimeError
  end.

(** [getattr(m, target)]. *)
Definition getattr (m : GraphModule) (t : Target) : result tensor :=
  match t with
  | T_str s =>
      match attrs m !! s with
      | Some v => Ok v
      | None => Raise AttributeError
      end
  | _ => Raise TypeError
  end.

(** [setattr(m, name, value)]. *)
Definition setattr (m : GraphModule) (t : Target) (v : tensor) : result GraphModule :=
  match t with
  | T_str s => Ok (mkGraphModule (graph m) (<[s := v]> (attrs m)) (_in_spec m))
  | _ => Raise TypeError
  end.

(** [node.target] of a value that should be a node. *)
Definition target_of (m : GraphModule) (node : Arg) : result Target :=
  match node with
  | A_node n => nd ← get_node m n; Ok (target nd)
  | _ => Raise AttributeError
  end.

Definition _get_tensor_constant_from_node (node : Arg) (m : GraphModule)
    : result (option tensor) :=
  match node with
  | A_none => Ok None
  | A_node n =>
      nd ← get_node m n;
      _ ← py_assert (bool_decide (op nd = get_attr));
      v ← getattr m (target nd);
      Ok (Some v)
  | _ => Raise AttributeError
  end.

(** ** Folding batch-norm weights into the convolution *)

Definition aten_native_batch_norm_legit_no_training_default : Target :=
  T_overload "aten" "_native_batch_norm_legit_no_training" "default".
Definition aten_native_batch_norm_legit_default : Target :=
  T_overload "aten" "_native_batch_norm_legit" "default".
Definition aten_convolution_default : Target :=
  T_overload "aten" "convolution" "default".

(** Lines 58-63: the index of [eps] in the resolved arguments. *)
Definition eps_arg_index (bn_target : Target) : result nat :=
  if decide (bn_target = aten_native_batch_norm_legit_no_training_default) then Ok 6
  else if decide (bn_target = aten_native_batch_norm_legit_default) then Ok 7
  else Raise (ValueError "BN node target is unexpected ").

(** What the function reads first (lines 46-57): the constants of the
    convolution and of the batch norm, and the resolved arguments. *)
Record FoldConstants : Type := mkFoldConstants {
  fc_conv_w : option tensor;
  fc_conv_b : option tensor;
  fc_transpose : Arg;
  fc_bn_target : Target;
  fc_bn_args : list Arg;
  fc_bn_w : option tensor;
  fc_bn_b : option tensor;
  fc_bn_rm : option tensor;
  fc_bn_rv : option tensor
}.

Definition bn_arguments (bn : Node) : result (list Arg) :=
  match schema_of E (target bn) with
  | Some bn_args_schema => Ok (_get_all_arguments (args bn) (kwargs bn) bn_args_schema)
  | None => Raise AttributeError
  end.

Definition fold_constants (conv_node : node_id) (conv_weight_node conv_bias_node : Arg)
    (bn_node : node_id) (m : GraphModule) : result FoldConstants :=
  conv_w ← _get_tensor_constant_from_node conv_weight_node m;
  conv_b ← _get_tensor_constant_from_node conv_bias_node m;
  conv ← get_node m conv_node;
  transpose ← py_index (args conv) 6;
  bn ← get_node m bn_node;
  bn_args ← bn_arguments bn;
  bn_w ← (a ← py_index bn_args 1; _get_tensor_constant_from_node a m);
  bn_b ← (a ← py_index bn_args 2; _get_tensor_constant_from_node a m);
  bn_rm ← (a ← py_index bn_args 3; _get_tensor_constant_from_node a m);
  bn_rv ← (a ← py_index bn_args 4; _get_tensor_constant_from_node a m);
  Ok (mkFoldConstants conv_w conv_b transpose (target bn) bn_args bn_w bn_b bn_rm bn_rv).

(** Lines 58-64: [eps], by the batch-norm variant. *)
Definition bn_eps_of (c : FoldConstants) : result Arg :=
  eps_arg_index ← eps_arg_index (fc_bn_target c);
  py_index (fc_bn_args c) eps_arg_index.

(** [conv_args[2] = get_bias_node]. *)
Definition set_item {A} (l : list A) (i : nat) (x : A) : result (list A) :=
  if bool_decide (i < length l) then Ok (<[i := x]> l) else Raise IndexError.

(** Lines 69-83: the stored weight is overwritten; the fused bias goes to
    the existing bias attribute or to a new one, for which a [get_attr]
    node is created before the convolution. *)
Definition update_conv_parameters (conv_node : node_id)
    (conv_weight_node conv_bias_node : Arg) (fused_weight fused_bias : tensor)
    (m : GraphModule) : result GraphModule :=
  conv ← get_node m conv_node;
  let conv_args := args conv in
  weight_target ← target_of m conv_weight_node;
  weight_attr_name ← (match weight_target with
                      | T_str s => Ok s
                      | _ => Raise AssertionError
                      end);
  m ← setattr m (T_str weight_attr_name) fused_weight;
  '(bias_attr_name, conv_args, m) ←
    match conv_bias_node with
    | A_none =>
        let bias_attr_name := T_str (weight_attr_name +:+ "_bias") in
        _ ← py_assert (in_graph (graph m) conv_node);
        let get_bias_node := create_node (graph m) get_attr bias_attr_name in
        let m := with_graph m (insert_before conv_node get_bias_node (graph m)) in
        conv_args ← set_item conv_args 2 (A_node (name get_bias_node));
        Ok (bias_attr_name, conv_args, m)
    | _ =>
        bias_attr_name ← target_of m conv_bias_node;
        Ok (bias_attr_name, conv_args, m)
    end;
  m ← setattr m bias_attr_name fused_bias;
  Ok (with_graph m (set_args conv_node conv_args (graph m))).

(** [user.args[1] != 0] negated: Python's [==] between a value and [0]. *)
Definition py_eq_0 (a : Arg) : bool :=
  match a with
  | A_int z => bool_decide (z = 0%Z)
  | A_bool b => negb b
  | A_float q => bool_decide (Qnum q = 0%Z)
  | _ => false
  end.

(** The test of line 100, negated: [user] is a [getitem] call with index 0. *)
Definition is_getitem_0 (user : Node) : result bool :=
  if decide (op user ≠ call_function) then Ok false
  else if decide (target user ≠ T_getitem) then Ok false
  else a ← py_index (args user) 1; Ok (py_eq_0 a).

(** Lines 99-102, over the users of the batch-norm node. *)
Fixpoint replace_getitem_0_uses (bn_users : list node_id) (conv_node : node_id)
    (g : list Node) : result (list Node) :=
  match bn_users with
  | [] => Ok g
  | u :: rest =>
      user ← (match find_node g u with
              | Some nd => Ok nd
              | None => Raise RuntimeError
              end);
      b ← is_getitem_0 user;
      replace_getitem_0_uses rest conv_node
        (if b : bool then replace_all_uses_with u conv_node g else g)
  end.

Definition fold_bn_weights_into_conv_node (conv_node : node_id)
    (conv_weight_node conv_bias_node : Arg) (bn_node : node_id) (m : GraphModule)
    : result GraphModule :=
  c ← fold_constants conv_node conv_weight_node conv_bias_node bn_node m;
  bn_eps ← bn_eps_of c;
  '(fused_weight, fused_bias) ←
    fuse_conv_bn_weights E (fc_conv_w c) (fc_conv_b c) (fc_bn_rm c) (fc_bn_rv c)
      bn_eps (fc_bn_w c) (fc_bn_b c) (fc_transpose c);
  m ← update_conv_parameters conv_node conv_weight_node conv_bias_node
         fused_weight fused_bias m;
  g ← replace_getitem_0_uses (name <$> users (graph m) bn_node) conv_node (graph m);
  Ok (with_graph m g).

(** ** The fold as an in-place update *)

(** Python updates the module in place: what was written before an
    exception is raised stays written.  An [in_place] computation gives
    the module as it is at exit, with the value returned or the exception
    raised. *)
Definition in_place (A : Type) : Type := GraphModule → GraphModule * result A.

(** A step that only reads the module. *)
Definition reads {A : Type} (r : GraphModule → result A) : in_place A :=
  λ m, (m, r m).

(** A step that updates the module, or raises and leaves it as it is. *)
Definition writes (w : GraphModule → result GraphModule) : in_place unit :=
  λ m, match w m with
       | Ok m' => (m', Ok tt)
       | Raise e => (m, Raise e)
       end.

Definition and_then {A B : Type} (x : in_place A) (k : A → in_place B) : in_place B :=
  λ m, match x m with
       | (m', Ok a) => k a m'
       | (m', Raise e) => (m', Raise e)
       end.

(** Lines 69-83, statement by statement. *)
Definition update_conv_parameters_in_place (conv_node : node_id)
    (conv_weight_node conv_bias_node : Arg) (fused_weight fused_bias : tensor)
    : in_place unit :=
  and_then (reads (λ m, get_node m conv_node)) (λ conv,
  and_then (reads (λ m, target_of m conv_weight_node)) (λ weight_target,
  and_then (reads (λ _, match weight_target with
                        | T_str s => Ok s
                        | _ => Raise AssertionError
                        end)) (λ weight_attr_name,
  and_then (writes (λ m, setattr m (T_str weight_attr_name) fused_weight)) (λ _,
  and_then
    (match conv_bias_node with
     | A_none =>
         let bias_attr_name := T_str (weight_attr_name +:+ "_bias") in
         and_then (reads (λ m, py_assert (in_graph (graph m) conv_node))) (λ _,
         and_then (reads (λ m, Ok (create_node (graph m) get_attr bias_attr_name)))
           (λ get_bias_node,
         and_then (writes (λ m, Ok (with_graph m
                     (insert_before conv_node get_bias_node (graph m))))) (λ _,
         and_then (reads (λ _, set_item (args conv) 2 (A_node (name get_bias_node))))
           (λ conv_args,
         reads (λ _, Ok (bias_attr_name, conv_args))))))
     | _ =>
         and_then (reads (λ m, target_of m conv_bias_node)) (λ bias_attr_name,
         reads (λ _, Ok (bias_attr_name, args conv)))
     end) (λ bias,
  and_then (writes (λ m, setattr m (fst bias) fused_bias)) (λ _,
  writes (λ m, Ok (with_graph m (set_args conv_node (snd bias) (graph m)))))))))).

(** Lines 99-102, user by user. *)
Fixpoint replace_getitem_0_uses_in_place (bn_users : list node_id)
    (conv_node : node_id) : in_place unit :=
  match bn_users with
  | [] => reads (λ _, Ok tt)
  | u :: rest =>
      and_then (reads (λ m, match find_node (graph m) u with
                            | Some nd => Ok nd
                            | None => Raise RuntimeError
                            end)) (λ user,
      and_then (reads (λ _, is_getitem_0 user)) (λ b,
      and_then (writes (λ m, Ok (if b : bool
                                 then with_graph m
                                        (replace_all_uses_with u conv_node (graph m))
                                 else m))) (λ _,
      replace_getitem_0_uses_in_place rest conv_node)))
  end.

(** [fold_bn_weights_into_conv_node] with the module at exit: lines 46-66
    read, lines 69-102 write. *)
Definition fold_bn_weights_into_conv_node_in_place (conv_node : node_id)
    (conv_weight_node conv_bias_node : Arg) (bn_node : node_id) : in_place unit :=
  and_then (reads (fold_constants conv_node conv_weight_node conv_bias_node bn_node))
    (λ c,
  and_then (reads (λ _, bn_eps_of c)) (λ bn_eps,
  and_then (reads (λ _, fuse_conv_bn_weights E (fc_conv_w c) (fc_conv_b c)
                          (fc_bn_rm c) (fc_bn_rv c) bn_eps (fc_bn_w c) (fc_bn_b c)
                          (fc_transpose c))) (λ fused,
  and_then (update_conv_parameters_in_place conv_node conv_weight_node conv_bias_node
              (fst fused) (snd fused)) (λ _,
  and_then (reads (λ m, Ok (name <$> users (graph m) bn_node))) (λ bn_users,
  replace_getitem_0_uses_in_place bn_users conv_node))))).

(** ** The fusion pass *)

(** Modelled from the spec: [Node.is_impure]: placeholders and outputs,
    and calls of side-effecting functions or modules, are never removed. *)
Definition is_impure (n : Node) : bool :=
  bool_decide (op n = placeholder ∨ op n = output)
  || (bool_decide (op n = call_function ∨ op n = call_module)
      && side_effectful E (target n)).

(** Modelled from the spec: [Graph.eliminate_dead_code]: after linting,
    the nodes are visited from the last to the first, and a node without
    side effect and without users is erased.  [front_rev] holds the nodes
    still to visit, last first; [kept] the visited nodes that remain. *)
Fixpoint erase_dead_nodes (front_rev kept : list Node) : list Node :=
  match front_rev with
  | [] => kept
  | n :: front_rev' =>
      if negb (is_impure n)
         && bool_decide (length (users (rev front_rev' ++ n :: kept) (name n)) = 0)
      then erase_dead_nodes front_rev' kept
      else erase_dead_nodes front_rev' (n :: kept)
  end.

Definition eliminate_dead_code (g : list Node) : result (list Node) :=
  if lint g then Ok (erase_dead_nodes (rev g) []) else Raise RuntimeError.

(** Modelled from the spec: [GraphModule.recompile] regenerates the
    executable form; graph and parameters are as before. *)
Definition recompile (m : GraphModule) : GraphModule := m.

(** Lines 107-115: the convolution and its weight and bias arguments when
    node [n] is to be fused, [None] when the loop continues. *)
Definition fusion_candidate (m : GraphModule) (n : Node)
    : result (option (node_id * Arg * Arg)) :=
  if decide (op n ≠ call_function) then Ok None
  else if decide (target n ≠ aten_native_batch_norm_legit_no_training_default)
  then Ok None
  else
    a ← py_index (args n) 0;
    match a with
    | A_node c =>
        conv ← get_node m c;
        if decide (op conv ≠ call_function) then Ok None
        else if decide (target conv ≠ aten_convolution_default) then Ok None
        else
          conv_weight_node ← py_index (args conv) 1;
          conv_bias_node ← py_index (args conv) 2;
          Ok (Some (c, conv_weight_node, conv_bias_node))
    | _ => Raise AttributeError
    end.

(** The state of the driving loop: the module and, as a record of what
    was done, the batch-norm nodes the fold was invoked on, latest first. *)
Definition fuse_visit (n : node_id) (s : GraphModule * list Node)
    : result (GraphModule * list Node) :=
  let '(m, folded) := s in
  bn ← get_node m n;
  c ← fusion_candidate m bn;
  match c with
  | None => Ok (m, folded)
  | Some (conv_node, conv_weight_node, conv_bias_node) =>
      m ← fold_bn_weights_into_conv_node conv_node conv_weight_node
             conv_bias_node n m;
      Ok (m, bn :: folded)
  end.

Definition fuse_scan (m : GraphModule) : result (GraphModule * list Node) :=
  for_each_node (λ s, graph (fst s)) fuse_visit (2 * length (graph m))
    (name <$> head (graph m)) (m, []).

Definition _fuse_conv_bn_ (m : GraphModule) : result GraphModule :=
  s ← fuse_scan m;
  let m := fst s in
  g ← eliminate_dead_code (graph m);
  Ok (recompile (with_graph m g)).

End graph_module.
Arguments GraphModule : clear implicits.
Arguments Externals : clear implicits.

(** ** Overload canonicalisation of the quantize/dequantize operators *)

Definition Target_to_sum (t : Target)
    : string + (string * string * string) + (string * string) + unit + string :=
  match t with
  | T_str s => inl (inl (inl (inl s)))
  | T_overload ns o v => inl (inl (inl (inr (ns, o, v))))
  | T_packet ns o => inl (inl (inr (ns, o)))
  | T_getitem => inl (inr tt)
  | T_callable q => inr q
  end.

Definition Target_of_sum
    (x : string + (string * string * string) + (string * string) + unit + string)
    : Target :=
  match x with
  | inl (inl (inl (inl s))) => T_str s
  | inl (inl (inl (inr (ns, o, v)))) => T_overload ns o v
  | inl (inl (inr (ns, o))) => T_packet ns o
  | inl (inr _) => T_getitem
  | inr q => T_callable q
  end.

Global Instance Target_countable : Countable Target.
Proof.
  apply (inj_countable' Target_to_sum Target_of_sum). by intros [].
Defined.

Definition quantized_decomposed (opname overload : string) : Target :=
  T_overload "quantized_decomposed" opname overload.
Definition quantized_decomposed_packet (opname : string) : Target :=
  T_packet "quantized_decomposed" opname.

(** The entries of the table [_MAP]: overload to overload packet. *)
Definition _MAP_items : list (Target * Target) :=
  [
    (quantized_decomposed "quantize_per_tensor" "default",
       quantized_decomposed_packet "quantize_per_tensor");
    (quantized_decomposed "dequantize_per_tensor" "default",
       quantized_decomposed_packet "dequantize_per_tensor");
    (quantized_decomposed "quantize_per_tensor" "tensor",
       quantized_decomposed_packet "quantize_per_tensor");
    (quantized_decomposed "dequantize_per_tensor" "tensor",
       quantized_decomposed_packet "dequantize_per_tensor");
    (quantized_decomposed "quantize_per_tensor" "tensor2",
       quantized_decomposed_packet "quantize_per_tensor");
    (quantized_decomposed "dequantize_per_tensor" "tensor2",
       quantized_decomposed_packet "dequantize_per_tensor");
    (quantized_decomposed "quantize_per_channel" "default",
       quantized_decomposed_packet "quantize_per_channel");
    (quantized_decomposed "dequantize_per_channel" "default",
       quantized_decomposed_packet "dequantize_per_channel");
    (T_overload "aten" "clamp" "Tensor", T_packet "aten" "clamp")
  ].

Definition _MAP : gmap Target Target := list_to_map _MAP_items.

(** The body of the loop of [remove_tensor_overload_for_qdq_ops]. *)
Definition remove_tensor_overload (n : Node) : Node :=
  if decide (op n ≠ call_function) then n
  else match _MAP !! target n with
       | Some t => mkNode (name n) (op n) t (args n) (kwargs n)
       | None => n
       end.

Definition remove_tensor_overload_for_qdq_ops {tensor}
    (match_pattern : GraphModule tensor) : GraphModule tensor :=
  with_graph match_pattern (remove_tensor_overload <$> graph match_pattern).

(** ** The dropout match filter *)

(** [InternalMatch.nodes_map]: pattern node to matched node, in insertion
    order. *)
Record InternalMatch : Type := mkInternalMatch {
  nodes_map : list (Node * Node)
}.

Definition dropout_ops : gset Target :=
  {[ T_overload "aten" "empty_like" "default";
     T_overload "aten" "bernoulli_" "float";
     T_overload "aten" "div_" "Scalar";
     T_overload "aten" "mul" "Tensor" ]}.

(** The loop over [match.nodes_map.values()]. *)
Fixpoint remove_matched_ops (values : list Node) (ops_to_match : gset Target)
    : gset Target :=
  match values with
  | [] => ops_to_match
  | n :: rest =>
      remove_matched_ops rest
        (if decide (target n ∈ ops_to_match) then ops_to_match ∖ {[target n]}
         else ops_to_match)
  end.

Definition _is_dropout_filter (m : InternalMatch)
    (original_graph pattern_graph : list Node) : bool :=
  bool_decide (size (remove_matched_ops (snd <$> nodes_map m) dropout_ops) = 0).

(** ** Literal-to-placeholder promotion *)

Fixpoint _is_literal (arg : Arg) : bool :=
  match arg with
  | A_bool _ | A_int _ | A_float _ => true
  | A_tuple l | A_list l => forallb _is_literal l
  | _ => false
  end.

(** [children_specs[0].children_specs.append(LeafSpec())]. *)
Definition append_leaf_spec (in_spec : TreeSpec) : result TreeSpec :=
  match children_specs in_spec with
  | [] => Raise IndexError
  | args_spec :: rest =>
      Ok (mkTreeSpec (spec_type in_spec)
            (mkTreeSpec (spec_type args_spec) (children_specs args_spec ++ [LeafSpec])
             :: rest))
  end.

Section promotion.
Context {tensor : Type}.

(** [gm.graph.placeholder(target)] under [inserting_after(last_ph)]; with
    no anchor the node goes to the end of the graph.  Returns the new
    node's name and the graph. *)
Definition insert_placeholder (last_ph : option node_id) (target : string)
    (g : list Node) : node_id * list Node :=
  let ph := create_node g placeholder (T_str target) in
  (name ph,
   match last_ph with
   | Some p => insert_after p ph g
   | None => g ++ [ph]
   end).

(** The loop over [node.args] (lines 285-291). *)
Fixpoint promote_literals (last_ph : option node_id) (node_args new_args : list Arg)
    (gm : GraphModule tensor) (cnt : nat)
    : result (list Arg * GraphModule tensor * nat) :=
  match node_args with
  | [] => Ok (new_args, gm, cnt)
  | arg :: rest =>
      if _is_literal arg then
        let '(ph, g) := insert_placeholder last_ph ("arg" +:+ pretty cnt) (graph gm) in
        in_spec ← (match _in_spec gm with
                   | Some s => Ok s
                   | None => Raise AttributeError
                   end);
        in_spec ← append_leaf_spec in_spec;
        promote_literals last_ph rest (new_args ++ [A_node ph])
          (mkGraphModule g (attrs gm) (Some in_spec)) (S cnt)
      else promote_literals last_ph rest (new_args ++ [arg]) gm cnt
  end.

(** The body of the loop over the nodes (lines 279-294); the state is the
    module with [last_ph] and [cnt]. *)
Definition promote_visit (n : node_id)
    (s : GraphModule tensor * option node_id * nat)
    : result (GraphModule tensor * option node_id * nat) :=
  let '(gm, last_ph, cnt) := s in
  node ← get_node gm n;
  if decide (op node = placeholder) then Ok (gm, Some n, S cnt)
  else
    _ ← py_assert (match last_ph with
                   | Some p => in_graph (graph gm) p
                   | None => true
                   end);
    r ← promote_literals last_ph (args node) [] gm cnt;
    let '(new_args, gm, cnt) := r in
    Ok (with_graph gm (set_args n new_args (graph gm)), last_ph, cnt).

(** The number of iterations is bounded by the nodes of the graph and the
    placeholders that can be created. *)
Definition promotion_fuel (g : list Node) : nat :=
  length g + sum_list (length ∘ args <$> g).

Definition _replace_literals_with_placeholders (gm : GraphModule tensor)
    : result (GraphModule tensor) :=
  s ← for_each_node (λ s, graph (fst (fst s))) promote_visit
        (promotion_fuel (graph gm)) (name <$> head (graph gm)) (gm, None, 0);
  Ok (fst (fst s)).

End promotion.

(** ** Node scopes *)

(** A Python type, by its name. *)
Definition py_type : Type := string.
Definition NoneType : py_type := "NoneType".

(** [l[-1]]. *)
Definition py_last {A : Type} (l : list A) : result A :=
  match last l with
  | Some x => Ok x
  | None => Raise IndexError
  end.

(** The character of the string ["."]. *)
Definition dot : Ascii.ascii :=
  Ascii.Ascii false true true true false true false false.

(** [s.split(".")]. *)
Fixpoint py_split_dot (s : string) : list string :=
  match s with
  | EmptyString => [""]
  | String c r =>
      if Ascii.eqb c dot then "" :: py_split_dot r
      else match py_split_dot r with
           | h :: t => String c h :: t
           | [] => [String c ""]
           end
  end.

(** The value of [n.meta.get("nn_module_stack", None)]: absent, or a
    dict, in insertion order, from a key to the pair of a qualified module
    path and a module type. *)
Definition nn_module_stack : Type := option (list (string * (string * py_type))).

(** Lines 125-129: the scope of one node. *)
Definition current_scope (stack : nn_module_stack) : result (string * py_type) :=
  match stack with
  | None | Some [] => Ok ("", NoneType)
  | Some entries =>
      bt ← py_last (snd <$> entries);
      scope_name ← py_last (py_split_dot (fst bt));
      Ok (scope_name, snd bt)
  end.

(** The loop of [_get_node_name_to_scope] over the nodes; [meta] gives the
    [nn_module_stack] entry of a node's [meta]. *)
Fixpoint node_scopes (meta : node_id → nn_module_stack) (nodes : list Node)
    (node_name_to_scope : gmap node_id (string * py_type))
    : result (gmap node_id (string * py_type)) :=
  match nodes with
  | [] => Ok node_name_to_scope
  | n :: rest =>
      scope ← current_scope (meta (name n));
      node_scopes meta rest (<[name n := scope]> node_name_to_scope)
  end.

Definition _get_node_name_to_scope {tensor} (meta : node_id → nn_module_stack)
    (model : GraphModule tensor) : result (gmap node_id (string * py_type)) :=
  node_scopes meta (graph model) ∅.

(** ** Vocabulary of the statements *)

(** [n'] is node [n] up to its positional arguments. *)
Definition same_but_args (n n' : Node) : Prop :=
  name n' = name n ∧ op n' = op n ∧ target n' = target n ∧ kwargs n' = kwargs n.

Definition created_placeholder (g0 : list Node) (n' : Node) : Prop :=
  op n' = placeholder ∧ kwargs n' = ∅ ∧ name n' ∉ name <$> g0.

Definition kwargs_frame (g0 g : list Node) : Prop :=
  (∀ n, n ∈ g0 → ∃ n', n' ∈ g ∧ same_but_args n n')
  ∧ (∀ n', n' ∈ g →
       (∃ n, n ∈ g0 ∧ same_but_args n n') ∨ created_placeholder g0 n').

(** The outcome of literal promotion, as the spec words it: the
    arguments of a node with every literal replaced, in its position, by a
    reference to a new placeholder; placeholders are numbered from [next]
    in left-to-right order. *)
Fixpoint promoted_args (next : node_id) (node_args : list Arg) : list Arg :=
  match node_args with
  | [] => []
  | arg :: rest =>
      if _is_literal arg then A_node next :: promoted_args (S next) rest
      else arg :: promoted_args next rest
  end.

Fixpoint count_literals (node_args : list Arg) : nat :=
  match node_args with
  | [] => 0
  | arg :: rest =>
      if _is_literal arg then S (count_literals rest) else count_literals rest
  end.

(** Node-then-argument traversal of the nodes [body]. *)
Fixpoint promoted_nodes (next : node_id) (body : list Node) : list Node :=
  match body with
  | [] => []
  | n :: rest =>
      mkNode (name n) (op n) (target n) (promoted_args next (args n)) (kwargs n)
      :: promoted_nodes (count_literals (args n) + next) rest
  end.

Fixpoint literal_count (body : list Node) : nat :=
  match body with
  | [] => 0
  | n :: rest => count_literals (args n) + literal_count rest
  end.

(** The placeholders of the first [k] promoted literals, in the order of
    their creation: the [j]-th is named [j + first] and has target
    ["arg" + str(j + cnt)]. *)
Definition new_placeholders (first cnt k : nat) : list Node :=
  (λ j, mkNode (j + first) placeholder (T_str ("arg" +:+ pretty (j + cnt))) [] ∅)
  <$> seq 0 k.

(** The input spec with [k] more leaf slots in its positional part. *)
Definition extend_in_spec (in_spec : TreeSpec) (k : nat) : TreeSpec :=
  match children_specs in_spec with
  | [] => in_spec
  | args_spec :: rest =>
      mkTreeSpec (spec_type in_spec)
        (mkTreeSpec (spec_type args_spec)
           (children_specs args_spec ++ replicate k LeafSpec) :: rest)
  end.

(** Dead-code elimination read as one sweep from the last node to the
    first, where a node is judged against the nodes kept after it. *)
Definition dead_node {tensor} (E : Externals tensor) (n : Node) (kept : list Node) : bool :=
  negb (is_impure E n) && bool_decide (length (users kept (name n)) = 0).

Definition sweep {tensor} (E : Externals tensor) (g : list Node) : list Node :=
  foldr (λ n kept, if dead_node E n kept then kept else n :: kept) [] g.

(** No node is used by itself or by a node before it. *)
Definition no_back_use (g : list Node) : Prop :=
  ∀ i k n u, g !! i = Some n → g !! k = Some u → k ≤ i → uses u (name n) = false.

(** [user] passes the test of line 100: an index-0 [getitem] call. *)
Definition getitem_0 (user : Node) : bool :=
  match is_getitem_0 user with
  | Ok b => b
  | Raise _ => false
  end.

(** Among the names [us], those of index-0 [getitem] calls of [g]. *)
Definition getitem_0_among (g : list Node) (us : list node_id) : list node_id :=
  filter (λ u, from_option getitem_0 false (find_node g u) = true) us.

(** The index-0 accessors of [bn_node] in [g]. *)
Definition getitem_0_users (g : list Node) (bn_node : node_id) : list node_id :=
  getitem_0_among g (name <$> users g bn_node).

(** References to one of [accessors] go to [conv_node]; others stay. *)
Definition redirect (accessors : list node_id) (conv_node : node_id) (r : node_id)
    : node_id :=
  if decide (r ∈ accessors) then conv_node else r.

(** Node [x] comes before node [y] in [g]. *)
Definition before (g : list Node) (x y : Node) : Prop :=
  ∃ i j, i < j ∧ g !! i = Some x ∧ g !! j = Some y.

(** The ordering contract of literal promotion as the spec words it: the
    placeholders the pass created, read in graph order, are the references
    it put into the arguments, read node by node and argument by argument. *)
Definition created_placeholders (g g' : list Node) : list node_id :=
  name <$> filter (λ n, op n = placeholder ∧ name n ∉ name <$> g) g'.

Definition promoted_references (g g' : list Node) : list node_id :=
  n ← g'; a ← args n;
  match a with
  | A_node r => if decide (r ∈ name <$> g) then [] else [r]
  | _ => []
  end.

Definition placeholders_in_traversal_order (g g' : list Node) : Prop :=
  created_placeholders g g' = promoted_references g g'.

(** ** Example graphs *)

(** Schemas of the batch-norm operators (the comments of lines 50-51),
    and of [aten.native_batch_norm.default]. *)
Definition ex_schema (names : list string) : list (Argument Arg) :=
  (λ n, mkArgument n false A_none) <$> names.

Definition ex_schema_of (t : Target) : option (list (Argument Arg)) :=
  if decide (t = aten_native_batch_norm_legit_no_training_default) then
    Some (ex_schema ["input"; "weight"; "bias"; "running_mean"; "running_var";
                     "momentum"; "eps"])
  else if decide (t = aten_native_batch_norm_legit_default) then
    Some (ex_schema ["input"; "weight"; "bias"; "running_mean"; "running_var";
                     "training"; "momentum"; "eps"])
  else if decide (t = T_overload "aten" "native_batch_norm" "default") then
    Some (ex_schema ["input"; "weight"; "bias"; "running_mean"; "running_var";
                     "training"; "momentum"; "eps"])
  else None.

(** The fusion formula on integer scalars, [fused_w = w * bn_w * r] and
    [fused_b = (b - mean) * r * bn_w + bn_b] with [r = rsqrt(var + eps)],
    given only where [var = 1] and [eps = 0], so that [r = 1]. *)
Definition ex_fuse (conv_w conv_b bn_rm bn_rv : option Z) (bn_eps : Arg)
    (bn_w bn_b : option Z) (transpose : Arg) : result (Z * Z) :=
  match conv_w, bn_rm, bn_rv with
  | Some w, Some rm, Some rv =>
      if bool_decide (rv = 1%Z) && py_eq_0 bn_eps then
        Ok ((w * default 1 bn_w)%Z,
            ((default 0 conv_b - rm) * default 1 bn_w + default 0 bn_b)%Z)
      else Raise ExternalError
  | _, _, _ => Raise ExternalError
  end.

Definition ex_externals : Externals Z :=
  mkExternals ex_schema_of ex_fuse (λ _, false).

Definition ex_attrs : gmap string Z :=
  list_to_map [("w", 3%Z); ("bn_w", 2%Z); ("bn_b", 1%Z); ("bn_rm", 0%Z); ("bn_rv", 1%Z)].

Definition ex_in_spec : TreeSpec :=
  mkTreeSpec (Some "tuple")
    [mkTreeSpec (Some "tuple") [LeafSpec]; mkTreeSpec (Some "dict") []].

Definition ex_conv : Node :=
  mkNode 6 call_function aten_convolution_default
    [A_node 0; A_node 1; A_none; A_list [A_int 1]; A_list [A_int 0]; A_list [A_int 1];
     A_bool false; A_list [A_int 0]; A_int 1] ∅.

Definition ex_bn (t : Target) : Node :=
  mkNode 7 call_function t
    [A_node 6; A_node 2; A_node 3; A_node 4; A_node 5; A_float (1 # 10); A_int 0] ∅.

Definition ex_prefix : list Node :=
  [ mkNode 0 placeholder (T_str "x") [] ∅;
    mkNode 1 get_attr (T_str "w") [] ∅;
    mkNode 2 get_attr (T_str "bn_w") [] ∅;
    mkNode 3 get_attr (T_str "bn_b") [] ∅;
    mkNode 4 get_attr (T_str "bn_rm") [] ∅;
    mkNode 5 get_attr (T_str "bn_rv") [] ∅;
    ex_conv ].

(** [conv -> bn], with the outputs 0 and 1 of the batch norm in use. *)
Definition ex_module (t : Target) : GraphModule Z :=
  mkGraphModule
    (ex_prefix ++
     [ ex_bn t;
       mkNode 8 call_function T_getitem [A_node 7; A_int 0] ∅;
       mkNode 9 call_function T_getitem [A_node 7; A_int 1] ∅;
       mkNode 10 output (T_str "output") [A_tuple [A_node 8; A_node 9]] ∅ ])
    ex_attrs (Some ex_in_spec).

(** [conv -> bn], with only the output 0 of the batch norm in use. *)
Definition ex_module_single : GraphModule Z :=
  mkGraphModule
    (ex_prefix ++
     [ ex_bn aten_native_batch_norm_legit_no_training_default;
       mkNode 8 call_function T_getitem [A_node 7; A_int 0] ∅;
       mkNode 10 output (T_str "output") [A_tuple [A_node 8]] ∅ ])
    ex_attrs (Some ex_in_spec).

(** [x + 3] with a further tuple literal and a literal keyword argument. *)
Definition ex_module_literals : GraphModule Z :=
  mkGraphModule
    [ mkNode 0 placeholder (T_str "x") [] ∅;
      mkNode 1 call_function (T_overload "aten" "add" "Tensor")
        [A_node 0; A_int 3; A_tuple [A_int 1; A_int 2]] {[ "alpha" := A_int 2 ]};
      mkNode 2 output (T_str "output") [A_tuple [A_node 1]] ∅ ]
    ∅ (Some ex_in_spec).

(** A layer norm after the convolution: its second argument is the
    normalized shape. *)
Definition aten_native_layer_norm_default : Target :=
  T_overload "aten" "native_layer_norm" "default".

Definition ex_externals_layer_norm : Externals Z :=
  mkExternals
    (λ t, if decide (t = aten_native_layer_norm_default)
          then Some (ex_schema ["input"; "normalized_shape"; "weight"; "bias"; "eps"])
          else ex_schema_of t)
    ex_fuse (λ _, false).

Definition ex_layer_norm : Node :=
  mkNode 7 call_function aten_native_layer_norm_default
    [A_node 6; A_list [A_int 4]; A_node 2; A_node 3; A_float (1 # 100000)] ∅.

Definition ex_module_layer_norm : GraphModule Z :=
  mkGraphModule
    (ex_prefix ++
     [ ex_layer_norm;
       mkNode 8 call_function T_getitem [A_node 7; A_int 0] ∅;
       mkNode 10 output (T_str "output") [A_tuple [A_node 8]] ∅ ])
    ex_attrs (Some ex_in_spec).

(** A no-training batch norm called without arguments. *)
Definition ex_module_bare_bn : GraphModule Z :=
  mkGraphModule
    [ mkNode 0 placeholder (T_str "x") [] ∅;
      mkNode 1 call_function aten_native_batch_norm_legit_no_training_default [] ∅;
      mkNode 2 output (T_str "output") [A_tuple [A_node 1]] ∅ ]
    ∅ None.

(** [x + x]: no literal, and no input spec. *)
Definition ex_module_no_literals : GraphModule Z :=
  mkGraphModule
    [ mkNode 0 placeholder (T_str "x") [] ∅;
      mkNode 1 call_function (T_overload "aten" "add" "Tensor")
        [A_node 0; A_node 0] ∅;
      mkNode 2 output (T_str "output") [A_tuple [A_node 1]] ∅ ]
    ∅ None.

(** A match of the dropout pattern: pattern node to matched node. *)
Definition ex_match : InternalMatch :=
  mkInternalMatch
    [ (mkNode 0 placeholder (T_str "x") [] ∅,
       mkNode 10 placeholder (T_str "inp") [] ∅);
      (mkNode 1 call_function (T_overload "aten" "empty_like" "default") [A_node 0] ∅,
       mkNode 11 call_function (T_overload "aten" "empty_like" "default") [A_node 10] ∅);
      (mkNode 2 call_function (T_overload "aten" "bernoulli_" "float") [A_node 1] ∅,
       mkNode 12 call_function (T_overload "aten" "bernoulli_" "float") [A_node 11] ∅);
      (mkNode 3 call_function (T_overload "aten" "div_" "Scalar")
         [A_node 2; A_float (1 # 2)] ∅,
       mkNode 13 call_function (T_overload "aten" "div_" "Scalar")
         [A_node 12; A_float (4 # 5)] ∅);
      (mkNode 4 call_function (T_overload "aten" "mul" "Tensor") [A_node 0; A_node 3] ∅,
       mkNode 14 call_function (T_overload "aten" "mul" "Tensor")
         [A_node 10; A_node 13] ∅) ].

(** Every user of a no-training batch-norm call is an index-0 [getitem]
    call: of the outputs of such a node only the first is in use. *)
Definition first_output_only (g : list Node) : Prop :=
  ∀ x u, x ∈ g → u ∈ g →
    op x = call_function →
    target x = aten_native_batch_norm_legit_no_training_default →
    uses u (name x) = true → getitem_0 u = true.

(** A node the loop is done with: not selected, or a no-training
    batch-norm call whose users have no user. *)
Definition settled {tensor} (m : GraphModule tensor) (x : Node) : Prop :=
  fusion_candidate m x = Ok None
  ∨ (op x = call_function
     ∧ target x = aten_native_batch_norm_legit_no_training_default
     ∧ ∀ u, u ∈ graph m → uses u (name x) = true →
         ∀ v, v ∈ graph m → uses v (name u) = false).

(** [f] renames nothing but index-0 [getitem] calls of [g0], and those
    to convolution calls of [g0]. *)
Definition rewires_accessors (g0 : list Node) (f : node_id → node_id) : Prop :=
  ∀ r, f r ≠ r →
    (∃ h, h ∈ g0 ∧ name h = r ∧ getitem_0 h = true)
    ∧ (∃ c, c ∈ g0 ∧ name c = f r ∧ op c = call_function
            ∧ target c = aten_convolution_default).

(** [conv -> bn -> getitem 0 -> training bn -> getitem 0]: the training
    batch norm consumes the first output of a no-training one. *)
Definition ex_training_bn : Node :=
  mkNode 9 call_function aten_native_batch_norm_legit_default
    [A_node 8; A_node 2; A_node 3; A_node 4; A_node 5; A_bool true;
     A_float (1 # 10); A_int 0] ∅.

Definition ex_module_chain : GraphModule Z :=
  mkGraphModule
    (ex_prefix ++
     [ ex_bn aten_native_batch_norm_legit_no_training_default;
       mkNode 8 call_function T_getitem [A_node 7; A_int 0] ∅;
       ex_training_bn;
       mkNode 10 call_function T_getitem [A_node 9; A_int 0] ∅;
       mkNode 11 output (T_str "output") [A_tuple [A_node 10]] ∅ ])
    ex_attrs (Some ex_in_spec).

(** [x'] is node [x] up to its arguments. *)
Definition same_node_kind (x x' : Node) : Prop :=
  name x' = name x ∧ op x' = op x ∧ target x' = target x.

(** What a run of the fusion loop keeps of the graph [g0]: every node
    stays, with its name, op and target, and what is added is a [get_attr]
    node of a new name. *)
Definition fusion_frame (g0 g : list Node) : Prop :=
  (∀ x, x ∈ g0 → ∃ x', x' ∈ g ∧ same_node_kind x x')
  ∧ (∀ x', x' ∈ g →
       (∃ x, x ∈ g0 ∧ same_node_kind x x')
       ∨ (op x' = get_attr ∧ name x' ∉ name <$> g0)).

(** * Properties *)

Section operand_resolution.
Context {V : Type}.
Implicit Types (orig_args : list V) (orig_kwargs : gmap string V)
  (args_schema : list (Argument V)).

Lemma length_get_all_arguments_from i orig_args orig_kwargs args_schema :
  length (_get_all_arguments_from i orig_args orig_kwargs args_schema)
  = length args_schema.
Proof.
  revert i. induction args_schema as [|s rest IH]; intros i; simpl; [done|].
  by rewrite IH.
Qed.

Lemma lookup_get_all_arguments_from i j orig_args orig_kwargs args_schema s :
  args_schema !! j = Some s →
  _get_all_arguments_from i orig_args orig_kwargs args_schema !! j
  = Some (resolve_argument orig_args orig_kwargs (i + j) s).
Proof.
  revert i j. induction args_schema as [|s0 rest IH]; intros i j Hj; [done|].
  destruct j as [|j]; simpl in *.
  - injection Hj as ->. by rewrite Nat.add_0_r.
  - rewrite (IH (S i) j Hj). do 2 f_equal. lia.
Qed.

(** C1. [_get_all_arguments] returns one entry per schema entry, and the
  entry at index [i] is the keyword argument named like the schema entry
  if there is one, else the positional argument at index [i] if the
  entry is not keyword-only and that positional exists, else the
  schema's default.  The function is total: nothing is raised. *)
Theorem get_all_arguments_resolution orig_args orig_kwargs args_schema :
  length (_get_all_arguments orig_args orig_kwargs args_schema)
    = length args_schema
  ∧ ∀ i s, args_schema !! i = Some s →
      ∃ v, _get_all_arguments orig_args orig_kwargs args_schema !! i = Some v
        ∧ (∀ kv, orig_kwargs !! arg_name s = Some kv → v = kv)
        ∧ (orig_kwargs !! arg_name s = None →
             (∀ pv, kwarg_only s = false → orig_args !! i = Some pv → v = pv)
           ∧ (kwarg_only s = true ∨ length orig_args ≤ i → v = default_value s)).
Proof.
  split; [apply length_get_all_arguments_from|].
  intros i s Hs. eexists. split.
  { unfold _get_all_arguments.
    by rewrite (lookup_get_all_arguments_from 0 i _ _ _ s Hs). }
  simpl. unfold resolve_argument. split.
  - intros kv ->. done.
  - intros ->. split.
    + intros pv -> Hpv. simpl.
      rewrite bool_decide_eq_true_2; [by rewrite Hpv|].
      by eapply lookup_lt_Some.
    + intros [-> | Hlen]; [done|].
      rewrite bool_decide_eq_false_2; [|lia].
      by rewrite andb_false_r.
Qed.
End operand_resolution.

(** ** The batch-norm variants of the fold *)

Section fold_variants.
Context {tensor : Type} (E : Externals tensor).

Lemma bind_Ok {A B} (r : result A) (k : A → result B) (b : B) :
  r ≫= k = Ok b → ∃ a, r = Ok a ∧ k a = Ok b.
Proof. destruct r as [a|e]; [by exists a | done]. Qed.

Lemma fold_constants_target conv_node conv_weight_node conv_bias_node bn_node
    (m : GraphModule tensor) c bn :
  fold_constants E conv_node conv_weight_node conv_bias_node bn_node m = Ok c →
  get_node m bn_node = Ok bn →
  fc_bn_target c = target bn
  ∧ ∃ bn_args_schema, schema_of E (target bn) = Some bn_args_schema
      ∧ fc_bn_args c = _get_all_arguments (args bn) (kwargs bn) bn_args_schema.
Proof.
  unfold fold_constants. intros H Hbn.
  repeat (apply bind_Ok in H as (? & ? & H)).
  injection H as <-. simpl.
  match goal with H1 : get_node m bn_node = Ok ?x |- _ =>
    assert (x = bn) as -> by congruence end.
  split; [done|].
  match goal with H1 : bn_arguments _ _ = Ok _ |- _ =>
    unfold bn_arguments in H1; destruct (schema_of E (target bn)) as [sch|] eqn:Hs;
    [injection H1 as <-; by exists sch | done] end.
Qed.

Lemma update_conv_parameters_in_place_agrees (conv_node : node_id)
    (conv_weight_node conv_bias_node : Arg) (fused_weight fused_bias : tensor)
    (m : GraphModule tensor) :
  match update_conv_parameters_in_place conv_node conv_weight_node conv_bias_node
          fused_weight fused_bias m with
  | (m', Ok _) =>
      update_conv_parameters conv_node conv_weight_node conv_bias_node
        fused_weight fused_bias m = Ok m'
  | (_, Raise e) =>
      update_conv_parameters conv_node conv_weight_node conv_bias_node
        fused_weight fused_bias m = Raise e
  end.
Proof.
  unfold update_conv_parameters_in_place, update_conv_parameters, and_then, reads,
    writes.
  destruct (get_node m conv_node) as [conv|e]; simpl; [|done].
  destruct (target_of m conv_weight_node) as [wt|e] eqn:Hwt; simpl; [|done].
  destruct wt as [wname| | | |]; simpl; try done.
  destruct conv_bias_node as [ |b0|z|q|s0|b|l|l]; simpl; try done.
  - destruct (in_graph (graph m) conv_node); simpl; [|done].
    destruct (set_item (args conv) 2 _) as [conv_args|e]; simpl; done.
  - unfold get_node. simpl.
    destruct (find_node (graph m) b) as [bnode|]; simpl; [|done].
    destruct (target bnode); simpl; done.
Qed.

Lemma replace_getitem_0_uses_in_place_agrees (conv_node : node_id)
    (bn_users : list node_id) :
  ∀ m : GraphModule tensor,
    match replace_getitem_0_uses_in_place bn_users conv_node m with
    | (m', Ok _) =>
        replace_getitem_0_uses bn_users conv_node (graph m) = Ok (graph m')
        ∧ attrs m' = attrs m ∧ _in_spec m' = _in_spec m
    | (_, Raise e) => replace_getitem_0_uses bn_users conv_node (graph m) = Raise e
    end.
Proof.
  induction bn_users as [|u rest IH]; intros m; simpl; [done|].
  unfold and_then, reads, writes.
  destruct (find_node (graph m) u) as [user|]; simpl; [|done].
  destruct (is_getitem_0 user) as [b|e]; simpl; [|done].
  specialize (IH (if b then with_graph m (replace_all_uses_with u conv_node (graph m))
                  else m)).
  destruct (replace_getitem_0_uses_in_place rest conv_node _) as [m' [[]|e]].
  - destruct IH as (Hg & Ha & Hs). by destruct b.
  - by destruct b.
Qed.

(** The in-place reading of the fold returns and raises as
    [fold_bn_weights_into_conv_node] does, with the same module when it
    returns. *)
Lemma fold_in_place_agrees (conv_node : node_id) (conv_weight_node conv_bias_node : Arg)
    (bn_node : node_id) (m : GraphModule tensor) :
  match fold_bn_weights_into_conv_node_in_place E conv_node conv_weight_node
          conv_bias_node bn_node m with
  | (m', Ok _) =>
      fold_bn_weights_into_conv_node E conv_node conv_weight_node conv_bias_node
        bn_node m = Ok m'
  | (_, Raise e) =>
      fold_bn_weights_into_conv_node E conv_node conv_weight_node conv_bias_node
        bn_node m = Raise e
  end.
Proof.
  unfold fold_bn_weights_into_conv_node_in_place, fold_bn_weights_into_conv_node.
  unfold and_then at 1. unfold reads at 1.
  destruct (fold_constants E conv_node conv_weight_node conv_bias_node bn_node m)
    as [c|e]; simpl; [|done].
  unfold and_then at 1. unfold reads at 1.
  destruct (bn_eps_of c) as [eps|e]; simpl; [|done].
  unfold and_then at 1. unfold reads at 1.
  destruct (fuse_conv_bn_weights E _ _ _ _ _ _ _ _) as [[fw fb]|e]; simpl; [|done].
  unfold and_then at 1.
  pose proof (update_conv_parameters_in_place_agrees conv_node conv_weight_node
                conv_bias_node fw fb m) as Hupd.
  destruct (update_conv_parameters_in_place _ _ _ _ _ m) as [m1 [[]|e]];
    rewrite Hupd; simpl; [|done].
  unfold and_then at 1. unfold reads at 1.
  pose proof (replace_getitem_0_uses_in_place_agrees conv_node
                (name <$> users (graph m1) bn_node) m1) as Hred.
  destruct (replace_getitem_0_uses_in_place _ _ m1) as [m' [[]|e]].
  - destruct Hred as (-> & Ha & Hs). simpl. unfold with_graph. rewrite <- Ha, <- Hs.
    by destruct m'.
  - by rewrite Hred.
Qed.

(** A failure of the reading phase (lines 46-66) leaves the module as it
    was. *)
Lemma fold_in_place_reading (conv_node : node_id)
    (conv_weight_node conv_bias_node : Arg) (bn_node : node_id)
    (m : GraphModule tensor) (e : exn) :
  (fold_constants E conv_node conv_weight_node conv_bias_node bn_node m = Raise e
   ∨ ∃ c, fold_constants E conv_node conv_weight_node conv_bias_node bn_node m = Ok c
          ∧ bn_eps_of c = Raise e) →
  fold_bn_weights_into_conv_node_in_place E conv_node conv_weight_node
    conv_bias_node bn_node m = (m, Raise e).
Proof.
  unfold fold_bn_weights_into_conv_node_in_place, and_then, reads.
  intros [Hc|(c & Hc & Heps)]; rewrite Hc; [done|]. by rewrite Heps.
Qed.

(** C2, amended.  In [fold_bn_weights_into_conv_node], once the constants
    are read, [eps] is the resolved argument at index 6 for the
    no-training batch norm and at index 7 for the training one.  On a
    node of any other target the function raises and the module is, at
    that point, as it was given: nothing of the graph or of the parameters
    has been written.  The exception is the [ValueError] of line 63 when
    the reads of lines 46-57 succeed, and otherwise the exception of the
    read that failed. *)
Theorem fold_eps_by_variant conv_node conv_weight_node conv_bias_node bn_node
    (m : GraphModule tensor) bn :
  get_node m bn_node = Ok bn →
  (∀ c, fold_constants E conv_node conv_weight_node conv_bias_node bn_node m = Ok c →
     (∃ bn_args_schema, schema_of E (target bn) = Some bn_args_schema
        ∧ fc_bn_args c = _get_all_arguments (args bn) (kwargs bn) bn_args_schema)
   ∧ (target bn = aten_native_batch_norm_legit_no_training_default →
        bn_eps_of c = py_index (fc_bn_args c) 6)
   ∧ (target bn = aten_native_batch_norm_legit_default →
        bn_eps_of c = py_index (fc_bn_args c) 7))
  ∧ (target bn ≠ aten_native_batch_norm_legit_no_training_default →
     target bn ≠ aten_native_batch_norm_legit_default →
     ∃ e,
       fold_bn_weights_into_conv_node_in_place E conv_node conv_weight_node
         conv_bias_node bn_node m = (m, Raise e)
       ∧ fold_bn_weights_into_conv_node E conv_node conv_weight_node
           conv_bias_node bn_node m = Raise e
       ∧ (∀ c, fold_constants E conv_node conv_weight_node conv_bias_node bn_node m
               = Ok c →
               e = ValueError "BN node target is unexpected ")
       ∧ (∀ e', fold_constants E conv_node conv_weight_node conv_bias_node bn_node m
                = Raise e' →
                e = e')).
Proof.
  intros Hbn. split.
  - intros c Hc.
    destruct (fold_constants_target _ _ _ _ _ _ _ Hc Hbn) as [Ht Hsch].
    split; [done|]. split.
    + intros Hv. unfold bn_eps_of, eps_arg_index. rewrite Ht, Hv. done.
    + intros Hv. unfold bn_eps_of, eps_arg_index. rewrite Ht, Hv. done.
  - intros H1 H2.
    destruct (fold_constants E conv_node conv_weight_node conv_bias_node bn_node m)
      as [c|e0] eqn:Hc.
    + destruct (fold_constants_target _ _ _ _ _ _ _ Hc Hbn) as [Ht _].
      assert (bn_eps_of c = Raise (ValueError "BN node target is unexpected ")) as He.
      { unfold bn_eps_of, eps_arg_index. rewrite Ht.
        rewrite decide_False by done. by rewrite decide_False by done. }
      exists (ValueError "BN node target is unexpected ").
      split; [apply fold_in_place_reading; right; by exists c|].
      split; [|done].
      unfold fold_bn_weights_into_conv_node. rewrite Hc. simpl. by rewrite He.
    + exists e0. split; [apply fold_in_place_reading; by left|].
      split; [|split; [done|by intros e' [= <-]]].
      unfold fold_bn_weights_into_conv_node. by rewrite Hc.
Qed.

End fold_variants.

(** ** The dropout filter *)

Lemma remove_matched_ops_difference values (ops_to_match : gset Target) :
  remove_matched_ops values ops_to_match
  = ops_to_match ∖ list_to_set (target <$> values).
Proof.
  revert ops_to_match. induction values as [|n rest IH]; intros S; simpl.
  - set_solver.
  - rewrite IH. case_decide; set_solver.
Qed.

(** C7. [_is_dropout_filter] accepts a match exactly when the targets of
    its mapped nodes cover all four operators of the dropout pattern
    ([empty_like.default], [bernoulli_.float], [div_.Scalar], [mul.Tensor]);
    a match that lacks one of them is rejected. *)
Theorem is_dropout_filter_covers (m : InternalMatch) (original_graph pattern_graph : list Node) :
  size dropout_ops = 4
  ∧ (_is_dropout_filter m original_graph pattern_graph = true
     ↔ ∀ t, t ∈ dropout_ops → ∃ n, n ∈ snd <$> nodes_map m ∧ target n = t)
  ∧ ∀ t, t ∈ dropout_ops →
      (∀ n, n ∈ snd <$> nodes_map m → target n ≠ t) →
      _is_dropout_filter m original_graph pattern_graph = false.
Proof.
  assert (_is_dropout_filter m original_graph pattern_graph = true
     ↔ ∀ t, t ∈ dropout_ops → ∃ n, n ∈ snd <$> nodes_map m ∧ target n = t) as Hiff.
  { unfold _is_dropout_filter. rewrite bool_decide_eq_true.
    rewrite remove_matched_ops_difference, size_empty_iff.
    split.
    - intros Hempty t Ht.
      destruct (decide (t ∈ target <$> (snd <$> nodes_map m))) as [Hin|Hnin].
      + apply list_elem_of_fmap in Hin as (n & -> & Hn). by exists n.
      + exfalso. apply (not_elem_of_empty (C:=gset Target) t).
        rewrite <- Hempty. set_solver.
    - intros Hall t. split; [|set_solver].
      intros [Ht Hn]%elem_of_difference. exfalso. apply Hn.
      destruct (Hall t Ht) as (n & Hin & <-).
      rewrite elem_of_list_to_set. by apply list_elem_of_fmap_2. }
  split; [by vm_compute|]. split; [done|].
  intros t Ht Hmiss. apply not_true_is_false. intros Htrue.
  destruct (proj1 Hiff Htrue t Ht) as (n & Hn & Heq). by eapply Hmiss.
Qed.

(** ** Overload canonicalisation *)

Lemma _MAP_strips_overload (k v : Target) :
  _MAP !! k = Some v → ∃ ns opname overload,
    k = T_overload ns opname overload ∧ v = T_packet ns opname.
Proof.
  unfold _MAP, _MAP_items. intros H%elem_of_list_to_map_2.
  repeat (apply elem_of_cons in H as [[= -> ->]|H]; [by eexists _, _, _|]).
  by apply elem_of_nil in H.
Qed.

(** C8. [remove_tensor_overload_for_qdq_ops] keeps the nodes and their
    order; a [call_function] node whose target is one of the nine
    overloads of the table gets the table's overload-free identifier (same
    namespace and operator, no overload) as target, with name, op, args
    and kwargs as before; a node whose target is not in the table is left
    as it is, and so is the parameter storage. *)
Theorem remove_tensor_overload_for_qdq_ops_table {tensor} (match_pattern : GraphModule tensor) :
  size _MAP = 9
  ∧ (∀ k v, (k, v) ∈ _MAP_items → _MAP !! k = Some v)
  ∧ attrs (remove_tensor_overload_for_qdq_ops match_pattern) = attrs match_pattern
  ∧ length (graph (remove_tensor_overload_for_qdq_ops match_pattern))
    = length (graph match_pattern)
  ∧ ∀ i n, graph match_pattern !! i = Some n →
      ∃ n', graph (remove_tensor_overload_for_qdq_ops match_pattern) !! i = Some n'
        ∧ name n' = name n ∧ op n' = op n ∧ args n' = args n ∧ kwargs n' = kwargs n
        ∧ (∀ t, op n = call_function → _MAP !! target n = Some t →
             target n' = t
             ∧ ∃ ns opname overload, target n = T_overload ns opname overload
                 ∧ t = T_packet ns opname)
        ∧ (_MAP !! target n = None → n' = n).
Proof.
  split; [by vm_compute|].
  split; [intros k v Hkv; apply elem_of_list_to_map_1; [by compute_done|done]|].
  split; [done|].
  split; [unfold remove_tensor_overload_for_qdq_ops; simpl; by rewrite length_fmap|].
  intros i n Hn. exists (remove_tensor_overload n). split.
  { unfold remove_tensor_overload_for_qdq_ops. simpl.
    by rewrite list_lookup_fmap, Hn. }
  unfold remove_tensor_overload.
  destruct (decide (op n ≠ call_function)) as [Hop|Hop].
  - repeat split; try done.
  - destruct (_MAP !! target n) as [t|] eqn:Ht; simpl.
    + do 4 (split; [done|]). split; [|done].
      intros t' _ [= <-]. split; [done|]. by apply _MAP_strips_overload.
    + do 4 (split; [done|]). split; done.
Qed.

(** ** Iteration over the nodes *)

Lemma for_each_node_invariant {S : Type} (graph_of : S → list Node)
    (body : node_id → S → result S) (Inv : S → Prop) :
  (∀ n s s', Inv s → body n s = Ok s' → Inv s') →
  ∀ fuel cur s s', Inv s →
    for_each_node graph_of body fuel cur s = Ok s' → Inv s'.
Proof.
  intros Hbody fuel. induction fuel as [|fuel IH]; intros cur s s' HI Hrun.
  - destruct cur; simpl in Hrun; [done|]. by injection Hrun as <-.
  - destruct cur as [n|]; simpl in Hrun; [|by injection Hrun as <-].
    destruct (body n s) as [s1|e] eqn:Hb; [|done]. simpl in Hrun.
    eapply IH; [|exact Hrun]. by eapply Hbody.
Qed.

Lemma fresh_name_not_in (g : list Node) : fresh_name g ∉ name <$> g.
Proof.
  unfold fresh_name. intros Hin.
  apply max_list_elem_of_le in Hin. lia.
Qed.

Lemma elem_of_insert_after anchor new g x :
  x ∈ insert_after anchor new g → x = new ∨ x ∈ g.
Proof.
  induction g as [|y r IH]; simpl; [by right|].
  case_decide.
  - rewrite !elem_of_cons. naive_solver.
  - rewrite !elem_of_cons. naive_solver.
Qed.

Lemma elem_of_insert_after_old anchor new g x :
  x ∈ g → x ∈ insert_after anchor new g.
Proof.
  induction g as [|y r IH]; simpl; [done|].
  case_decide; rewrite !elem_of_cons; naive_solver.
Qed.

Lemma elem_of_set_args n new_args g x :
  x ∈ set_args n new_args g →
  ∃ y, y ∈ g ∧ name x = name y ∧ op x = op y ∧ target x = target y
       ∧ kwargs x = kwargs y
       ∧ (name y ≠ n → x = y).
Proof.
  unfold set_args. intros (y & -> & Hy)%list_elem_of_fmap.
  exists y. split; [done|]. case_decide; naive_solver.
Qed.

Lemma elem_of_set_args_old n new_args g y :
  y ∈ g →
  ∃ x, x ∈ set_args n new_args g ∧ name x = name y ∧ op x = op y
       ∧ target x = target y ∧ kwargs x = kwargs y.
Proof.
  intros Hy. eexists. split.
  - unfold set_args. apply list_elem_of_fmap_2. exact Hy.
  - simpl. case_decide; naive_solver.
Qed.

(** ** Literal promotion leaves keyword arguments alone *)

Section promotion_frame.
Context {tensor : Type}.
Implicit Types (gm : GraphModule tensor) (g : list Node).

Lemma kwargs_frame_refl g : kwargs_frame g g.
Proof. split; intros n Hn; [|left]; exists n; by repeat split. Qed.

Lemma kwargs_frame_names g0 g : kwargs_frame g0 g → name <$> g0 ⊆ name <$> g.
Proof.
  intros [H1 _] x (n & -> & Hn)%list_elem_of_fmap.
  destruct (H1 n Hn) as (n' & Hn' & Hname & _).
  rewrite <- Hname. by apply list_elem_of_fmap_2.
Qed.

Lemma kwargs_frame_insert_placeholder g0 g last_ph t :
  kwargs_frame g0 g → kwargs_frame g0 (insert_placeholder last_ph t g).2.
Proof.
  intros Hf. pose proof (kwargs_frame_names _ _ Hf) as Hnames.
  destruct Hf as [H1 H2].
  assert (created_placeholder g0 (create_node g placeholder (T_str t))) as Hnew.
  { repeat split; [done..|]. simpl. intros Hin%Hnames.
    by apply fresh_name_not_in in Hin. }
  unfold insert_placeholder. simpl. split.
  - intros n Hn. destruct (H1 n Hn) as (n' & Hn' & Hs). exists n'. split; [|done].
    destruct last_ph; [by apply elem_of_insert_after_old|].
    apply elem_of_app. by left.
  - intros n' Hn'.
    assert (n' = create_node g placeholder (T_str t) ∨ n' ∈ g) as [->|Hin].
    { destruct last_ph; [by eapply elem_of_insert_after|].
      apply elem_of_app in Hn' as [?|Hl]; [by right|].
      apply list_elem_of_singleton in Hl. by left. }
    + by right.
    + by apply H2.
Qed.

Lemma kwargs_frame_set_args g0 g n new_args :
  kwargs_frame g0 g → kwargs_frame g0 (set_args n new_args g).
Proof.
  intros [H1 H2]. split.
  - intros x Hx. destruct (H1 x Hx) as (y & Hy & Hs1 & Hs2 & Hs3 & Hs4).
    destruct (elem_of_set_args_old n new_args g y Hy) as (z & Hz & ? & ? & ? & ?).
    exists z. split; [done|]. unfold same_but_args. repeat split; congruence.
  - intros x Hx.
    destruct (elem_of_set_args _ _ _ _ Hx) as (y & Hy & Hn & Ho & Ht & Hk & _).
    destruct (H2 y Hy) as [(z & Hz & Hs1 & Hs2 & Hs3 & Hs4)|(Hc1 & Hc2 & Hc3)].
    + left. exists z. split; [done|]. unfold same_but_args.
      repeat split; congruence.
    + right. unfold created_placeholder. repeat split; congruence.
Qed.

Lemma kwargs_frame_promote_literals g0 last_ph node_args new_args gm cnt r :
  kwargs_frame g0 (graph gm) →
  promote_literals last_ph node_args new_args gm cnt = Ok r →
  kwargs_frame g0 (graph r.1.2).
Proof.
  revert new_args gm cnt.
  induction node_args as [|arg rest IH]; intros new_args gm cnt Hf Hrun; simpl in Hrun.
  - by injection Hrun as <-.
  - destruct (_is_literal arg); [|by eapply IH].
    destruct (_in_spec gm) as [spec|]; [|done]. simpl in Hrun.
    destruct (append_leaf_spec spec) as [spec'|]; [|done]. simpl in Hrun.
    eapply IH; [|exact Hrun]. simpl.
    by apply (kwargs_frame_insert_placeholder g0 (graph gm) last_ph).
Qed.

Lemma kwargs_frame_promote_visit g0 n s s' :
  kwargs_frame g0 (graph s.1.1) →
  promote_visit (tensor:=tensor) n s = Ok s' →
  kwargs_frame g0 (graph s'.1.1).
Proof.
  destruct s as [[gm last_ph] cnt]. simpl. intros Hf Hrun.
  unfold promote_visit in Hrun.
  destruct (get_node gm n) as [node|]; [|done]. simpl in Hrun.
  case_decide; [by injection Hrun as <-|].
  destruct (py_assert _); [|done]. simpl in Hrun.
  destruct (promote_literals last_ph (args node) [] gm cnt) as [[[na gm1] c1]|] eqn:Hp;
    [|done].
  simpl in Hrun. injection Hrun as <-. simpl.
  apply kwargs_frame_set_args.
  by apply (kwargs_frame_promote_literals _ _ _ _ _ _ _ Hf Hp).
Qed.

(** C10. [_replace_literals_with_placeholders] rewrites positional
    arguments only: every node of the graph is still there with the same
    name, op, target and keyword arguments, and every other node of the
    result is a created placeholder (no keyword arguments, a name new to
    the graph).  A literal that occurs only as a keyword argument thus
    stays where it is. *)
Theorem replace_literals_keeps_kwargs gm gm' :
  _replace_literals_with_placeholders gm = Ok gm' →
  (∀ n, n ∈ graph gm →
     ∃ n', n' ∈ graph gm' ∧ name n' = name n ∧ op n' = op n
           ∧ target n' = target n ∧ kwargs n' = kwargs n)
  ∧ (∀ n', n' ∈ graph gm' →
       (∃ n, n ∈ graph gm ∧ name n' = name n ∧ op n' = op n
             ∧ target n' = target n ∧ kwargs n' = kwargs n)
       ∨ (op n' = placeholder ∧ kwargs n' = ∅ ∧ name n' ∉ name <$> graph gm)).
Proof.
  unfold _replace_literals_with_placeholders. intros Hrun.
  apply bind_Ok in Hrun as (s & Hloop & [= <-]).
  apply (for_each_node_invariant _ _
           (λ s, kwargs_frame (graph gm) (graph s.1.1))) in Hloop.
  - exact Hloop.
  - intros n s0 s1. apply kwargs_frame_promote_visit.
  - apply kwargs_frame_refl.
Qed.

End promotion_frame.

(** ** Where a node sits in the node list *)

Lemma find_node_middle (pre post : list Node) (p : Node) :
  name p ∉ name <$> pre → find_node (pre ++ p :: post) (name p) = Some p.
Proof.
  unfold find_node. induction pre as [|x pre IH]; simpl; intros Hnin.
  - by rewrite bool_decide_eq_true_2.
  - rewrite ?fmap_cons, not_elem_of_cons in Hnin. destruct Hnin as [Hne Hnin].
    rewrite bool_decide_eq_false_2 by done. by apply IH.
Qed.

Lemma next_node_middle (pre post : list Node) (p : Node) :
  name p ∉ name <$> pre →
  next_node (pre ++ p :: post) (name p) = name <$> head post.
Proof.
  induction pre as [|x pre IH]; simpl; intros Hnin.
  - by rewrite decide_True.
  - rewrite ?fmap_cons, not_elem_of_cons in Hnin. destruct Hnin as [Hne Hnin].
    rewrite decide_False by done. by apply IH.
Qed.

Lemma insert_after_middle (pre post : list Node) (p new : Node) :
  name p ∉ name <$> pre →
  insert_after (name p) new (pre ++ p :: post) = pre ++ p :: new :: post.
Proof.
  induction pre as [|x pre IH]; simpl; intros Hnin.
  - by rewrite decide_True.
  - rewrite ?fmap_cons, not_elem_of_cons in Hnin. destruct Hnin as [Hne Hnin].
    rewrite decide_False by done. by rewrite IH.
Qed.

Lemma insert_before_middle (pre post : list Node) (p new : Node) :
  name p ∉ name <$> pre →
  insert_before (name p) new (pre ++ p :: post) = pre ++ new :: p :: post.
Proof.
  induction pre as [|x pre IH]; simpl; intros Hnin.
  - by rewrite decide_True.
  - rewrite ?fmap_cons, not_elem_of_cons in Hnin. destruct Hnin as [Hne Hnin].
    rewrite decide_False by done. by rewrite IH.
Qed.

Lemma set_args_other (n : node_id) (new_args : list Arg) (g : list Node) :
  n ∉ name <$> g → set_args n new_args g = g.
Proof.
  unfold set_args. induction g as [|x g IH]; simpl; intros Hnin; [done|].
  rewrite not_elem_of_cons in Hnin. destruct Hnin as [Hne Hnin].
  rewrite decide_False by done. f_equal. by apply IH.
Qed.

Lemma set_args_middle (pre post : list Node) (p : Node) (new_args : list Arg) :
  name p ∉ name <$> pre → name p ∉ name <$> post →
  set_args (name p) new_args (pre ++ p :: post)
  = pre ++ mkNode (name p) (op p) (target p) new_args (kwargs p) :: post.
Proof.
  intros Hpre Hpost.
  pose proof (set_args_other (name p) new_args pre Hpre) as H1.
  pose proof (set_args_other (name p) new_args post Hpost) as H2.
  unfold set_args in *. rewrite fmap_app, fmap_cons, H1, H2.
  by rewrite decide_True.
Qed.

Lemma in_graph_middle (pre post : list Node) (p : Node) :
  in_graph (pre ++ p :: post) (name p) = true.
Proof.
  unfold in_graph. apply bool_decide_eq_true_2.
  rewrite fmap_app, fmap_cons. set_solver.
Qed.

Lemma max_list_append (l1 l2 : list nat) :
  max_list (l1 ++ l2) = max_list l1 `max` max_list l2.
Proof. induction l1 as [|x l1 IH]; simpl; [done|]. rewrite IH. lia. Qed.

Lemma fresh_name_insert (pre post : list Node) (new : Node) :
  name new = fresh_name (pre ++ post) →
  fresh_name (pre ++ new :: post) = S (name new).
Proof.
  unfold fresh_name. intros Hn.
  rewrite fmap_app, fmap_cons, max_list_append. simpl.
  rewrite fmap_app, max_list_append in Hn. lia.
Qed.

Lemma NoDup_names_middle (pre post : list Node) (p : Node) :
  NoDup (name <$> (pre ++ p :: post)) →
  (name p ∉ name <$> pre) ∧ (name p ∉ name <$> post).
Proof.
  rewrite fmap_app, fmap_cons. intros H. apply NoDup_app in H.
  destruct H as (_ & Hdisj & Hpost). apply NoDup_cons in Hpost. split.
  - intros Hin. apply (Hdisj _ Hin). by left.
  - by destruct Hpost.
Qed.

Lemma NoDup_names_insert (pre post : list Node) (new : Node) :
  name new = fresh_name (pre ++ post) →
  NoDup (name <$> (pre ++ post)) → NoDup (name <$> (pre ++ new :: post)).
Proof.
  intros Hn Hnd. rewrite fmap_app, fmap_cons, <- Permutation_middle.
  apply NoDup_cons. rewrite <- fmap_app. split; [|done].
  rewrite Hn. apply fresh_name_not_in.
Qed.

Lemma set_args_names (n : node_id) (new_args : list Arg) (g : list Node) :
  name <$> set_args n new_args g = name <$> g.
Proof.
  unfold set_args. rewrite <- list_fmap_compose. apply list_fmap_ext.
  intros i x _. simpl. by case_decide.
Qed.

(** ** Literal promotion on a graph whose placeholders come first *)

Section promotion_order.
Context {tensor : Type}.
Implicit Types (gm : GraphModule tensor) (attr : gmap string tensor).

Lemma fresh_name_insert_after (pre post : list Node) (p new : Node) :
  name new = fresh_name (pre ++ p :: post) →
  fresh_name (pre ++ p :: new :: post) = S (name new).
Proof.
  intros Hn. rewrite (cons_middle p pre (new :: post)), app_assoc.
  apply fresh_name_insert. by rewrite <- app_assoc.
Qed.

Lemma new_placeholders_S first cnt k :
  new_placeholders first cnt (S k)
  = new_placeholders first cnt k
    ++ [mkNode (k + first) placeholder (T_str ("arg" +:+ pretty (k + cnt))) [] ∅].
Proof. unfold new_placeholders. by rewrite seq_S, fmap_app. Qed.

Lemma append_leaf_extend_in_spec in_spec k :
  children_specs in_spec ≠ [] →
  append_leaf_spec (extend_in_spec in_spec k) = Ok (extend_in_spec in_spec (S k)).
Proof.
  unfold append_leaf_spec, extend_in_spec. intros Hne.
  destruct (children_specs in_spec) as [|a rest]; [done|]. simpl.
  by rewrite <- app_assoc, <- replicate_cons_app.
Qed.

Lemma extend_in_spec_0 in_spec : extend_in_spec in_spec 0 = in_spec.
Proof.
  unfold extend_in_spec. destruct in_spec as [t [|[ta ca] rest]]; simpl; [done|].
  by rewrite app_nil_r.
Qed.

Lemma promote_literals_run in_spec first cnt (pre : list Node) (P : Node)
    (node_args : list Arg) :
  children_specs in_spec ≠ [] →
  name P ∉ name <$> pre →
  ∀ (new_args : list Arg) (j : nat) (tail : list Node) attr,
    fresh_name (pre ++ P :: rev (new_placeholders first cnt j) ++ tail) = j + first →
    NoDup (name <$> (pre ++ P :: rev (new_placeholders first cnt j) ++ tail)) →
    promote_literals (Some (name P)) node_args new_args
      (mkGraphModule (pre ++ P :: rev (new_placeholders first cnt j) ++ tail)
         attr (Some (extend_in_spec in_spec j))) (j + cnt)
    = Ok (new_args ++ promoted_args (j + first) node_args,
          mkGraphModule
            (pre ++ P :: rev (new_placeholders first cnt (count_literals node_args + j))
                 ++ tail)
            attr (Some (extend_in_spec in_spec (count_literals node_args + j))),
          count_literals node_args + j + cnt)
    ∧ fresh_name
        (pre ++ P :: rev (new_placeholders first cnt (count_literals node_args + j))
             ++ tail)
      = count_literals node_args + j + first
    ∧ NoDup (name <$> (pre ++ P
               :: rev (new_placeholders first cnt (count_literals node_args + j))
               ++ tail)).
Proof.
  intros Hspec HP.
  induction node_args as [|arg rest IH]; intros new_args j tail attr Hfresh Hnd; simpl.
  - by rewrite app_nil_r.
  - destruct (_is_literal arg) eqn:Hlit.
    + unfold insert_placeholder, create_node. simpl.
      rewrite append_leaf_extend_in_spec by done. simpl.
      rewrite insert_after_middle by done.
      rewrite Hfresh.
      assert (mkNode (j + first) placeholder (T_str ("arg" +:+ pretty (j + cnt))) [] ∅
                :: rev (new_placeholders first cnt j) ++ tail
              = rev (new_placeholders first cnt (S j)) ++ tail) as Hnew.
      { by rewrite new_placeholders_S, rev_app_distr. }
      rewrite Hnew.
      destruct (IH (new_args ++ [A_node (j + first)]) (S j) tail attr)
        as (Hrun & Hfr & Hnd').
      { rewrite <- Hnew. by rewrite fresh_name_insert_after. }
      { rewrite <- Hnew.
        rewrite (cons_middle P pre), app_assoc.
        apply NoDup_names_insert; rewrite <- app_assoc; simpl; done. }
      change (S (j + cnt)) with (S j + cnt). rewrite Hrun.
      replace (count_literals rest + S j) with (S (count_literals rest + j)) in * by lia.
      simpl in *. split; [|done].
      by rewrite <- app_assoc.
    + destruct (IH (new_args ++ [arg]) j tail attr Hfresh Hnd) as (-> & Hfr & Hnd').
      split; [|done]. by rewrite <- app_assoc.
Qed.

Lemma promote_visit_node in_spec first cnt (pre : list Node) (P : Node) attr
    (seen rest : list Node) (n : Node) (j : nat) :
  children_specs in_spec ≠ [] →
  op n ≠ placeholder →
  fresh_name (pre ++ P :: rev (new_placeholders first cnt j) ++ seen ++ n :: rest)
    = j + first →
  NoDup (name <$> (pre ++ P :: rev (new_placeholders first cnt j) ++ seen ++ n :: rest)) →
  let k := count_literals (args n) in
  let n' := mkNode (name n) (op n) (target n) (promoted_args (j + first) (args n))
              (kwargs n) in
  let g' := pre ++ P :: rev (new_placeholders first cnt (k + j))
              ++ (seen ++ [n']) ++ rest in
  promote_visit (name n)
    (mkGraphModule (pre ++ P :: rev (new_placeholders first cnt j) ++ seen ++ n :: rest)
       attr (Some (extend_in_spec in_spec j)),
     Some (name P), j + cnt)
  = Ok (mkGraphModule g' attr (Some (extend_in_spec in_spec (k + j))),
        Some (name P), k + j + cnt)
  ∧ next_node g' (name n) = name <$> head rest
  ∧ fresh_name g' = k + j + first
  ∧ NoDup (name <$> g').
Proof.
  intros Hspec Hn Hfresh Hnd k n' g'.
  set (N := rev (new_placeholders first cnt j)) in *.
  assert (pre ++ P :: N ++ seen ++ n :: rest
          = (pre ++ P :: N ++ seen) ++ n :: rest) as Hshape.
  { rewrite <- !app_assoc. simpl. by rewrite <- !app_assoc. }
  assert (NoDup (name <$> (pre ++ P :: N ++ seen ++ n :: rest))) as Hnd0 by done.
  rewrite Hshape in Hnd0. apply NoDup_names_middle in Hnd0 as [Hn1 Hn2].
  assert (name P ∉ name <$> pre) as HP.
  { by apply NoDup_names_middle in Hnd as [? _]. }
  destruct (promote_literals_run in_spec first cnt pre P (args n) Hspec HP
              [] j (seen ++ n :: rest) attr Hfresh Hnd) as (Hrun & Hfr & Hnd').
  fold N in Hrun. fold k in Hrun, Hfr, Hnd'.
  set (N' := rev (new_placeholders first cnt (k + j))) in *.
  assert (pre ++ P :: N' ++ seen ++ n :: rest
          = (pre ++ P :: N' ++ seen) ++ n :: rest) as Hshape'.
  { rewrite <- !app_assoc. simpl. by rewrite <- !app_assoc. }
  assert ((name n ∉ name <$> (pre ++ P :: N' ++ seen))
          ∧ (name n ∉ name <$> rest)) as [Hn1' Hn2'].
  { rewrite Hshape' in Hnd'. by apply NoDup_names_middle in Hnd'. }
  assert (g' = (pre ++ P :: N' ++ seen) ++ n' :: rest) as Hg'.
  { unfold g'. rewrite <- !app_assoc. simpl. by rewrite <- !app_assoc. }
  assert (name <$> g' = name <$> (pre ++ P :: N' ++ seen ++ n :: rest)) as Hnames.
  { rewrite Hg', Hshape'. by rewrite !fmap_app, !fmap_cons. }
  split; [|split; [|split]].
  - unfold promote_visit, get_node. simpl.
    rewrite Hshape at 1. rewrite find_node_middle by done. simpl.
    rewrite decide_False by done.
    rewrite in_graph_middle. simpl.
    rewrite Hrun. simpl.
    rewrite Hshape'. rewrite set_args_middle by done. by rewrite Hg'.
  - rewrite Hg'. by apply (next_node_middle _ rest n').
  - unfold fresh_name in *. by rewrite Hnames.
  - by rewrite Hnames.
Qed.

Lemma for_each_node_S {S : Type} (graph_of : S → list Node)
    (body : node_id → S → result S) (fuel : nat) (n : node_id) (s : S) :
  for_each_node graph_of body (Datatypes.S fuel) (Some n) s
  = body n s ≫= λ s', for_each_node graph_of body fuel (next_node (graph_of s') n) s'.
Proof. done. Qed.

Lemma promote_body_run in_spec first cnt (pre : list Node) (P : Node) attr
    (body : list Node) :
  children_specs in_spec ≠ [] →
  Forall (λ n, op n ≠ placeholder) body →
  ∀ (seen : list Node) (j fuel : nat),
    length body ≤ fuel →
    fresh_name (pre ++ P :: rev (new_placeholders first cnt j) ++ seen ++ body)
      = j + first →
    NoDup (name <$> (pre ++ P :: rev (new_placeholders first cnt j) ++ seen ++ body)) →
    for_each_node (λ s, graph s.1.1) promote_visit fuel (name <$> head body)
      (mkGraphModule (pre ++ P :: rev (new_placeholders first cnt j) ++ seen ++ body)
         attr (Some (extend_in_spec in_spec j)),
       Some (name P), j + cnt)
    = Ok (mkGraphModule
            (pre ++ P :: rev (new_placeholders first cnt (literal_count body + j))
                 ++ seen ++ promoted_nodes (j + first) body)
            attr (Some (extend_in_spec in_spec (literal_count body + j))),
          Some (name P), literal_count body + j + cnt).
Proof.
  intros Hspec Hbody. induction Hbody as [|n rest Hn Hrest IH];
    intros seen j fuel Hfuel Hfresh Hnd.
  - destruct fuel; done.
  - destruct fuel as [|fuel]; [simpl in Hfuel; lia|]. simpl in Hfuel.
    destruct (promote_visit_node in_spec first cnt pre P attr seen rest n j
                Hspec Hn Hfresh Hnd) as (Hvisit & Hnext & Hfr & Hnd').
    change (name <$> head (n :: rest)) with (Some (name n)).
    rewrite for_each_node_S, Hvisit.
    change (Ok ?a ≫= ?k) with (k a). cbv beta.
    match goal with |- context [next_node ?g ?x] =>
      replace (next_node g x) with (name <$> head rest)
        by (symmetry; exact Hnext) end.
    rewrite (IH _ _ fuel); [|lia|done|done].
    simpl.
    replace (literal_count rest + (count_literals (args n) + j))
      with (count_literals (args n) + literal_count rest + j) by lia.
    replace (count_literals (args n) + j + first)
      with (count_literals (args n) + (j + first)) by lia.
    by rewrite <- !app_assoc.
Qed.

Lemma promote_placeholders_run (phs : list Node) :
  Forall (λ n, op n = placeholder) phs →
  ∀ (seen tail : list Node) (last_ph : option node_id) (cnt fuel : nat) attr in_spec,
    NoDup (name <$> (seen ++ phs ++ tail)) →
    for_each_node (λ s, graph s.1.1) promote_visit (length phs + fuel)
      (name <$> head (phs ++ tail))
      (mkGraphModule (seen ++ phs ++ tail) attr in_spec, last_ph, cnt)
    = for_each_node (λ s, graph s.1.1) promote_visit fuel (name <$> head tail)
        (mkGraphModule (tensor:=tensor) (seen ++ phs ++ tail) attr in_spec,
         foldl (λ _ p, Some (name p)) last_ph phs, length phs + cnt).
Proof.
  intros Hphs. induction Hphs as [|p phs Hp Hphs IH];
    intros seen tail last_ph cnt fuel attr in_spec Hnd; [done|].
  assert (name p ∉ name <$> seen) as Hp1.
  { by apply NoDup_names_middle in Hnd as [? _]. }
  change (name <$> head ((p :: phs) ++ tail)) with (Some (name p)).
  change (length (p :: phs) + fuel) with (S (length phs + fuel)).
  rewrite for_each_node_S.
  assert (promote_visit (name p)
            (mkGraphModule (tensor:=tensor) (seen ++ (p :: phs) ++ tail) attr in_spec,
             last_ph, cnt)
          = Ok (mkGraphModule (seen ++ (p :: phs) ++ tail) attr in_spec,
                Some (name p), S cnt)) as ->.
  { unfold promote_visit, get_node. simpl.
    rewrite find_node_middle by done. simpl. by rewrite decide_True. }
  change (Ok ?a ≫= ?k) with (k a). cbv beta.
  change (graph (_, _, _).1.1) with (seen ++ p :: phs ++ tail).
  rewrite next_node_middle by done.
  assert (seen ++ (p :: phs) ++ tail = (seen ++ [p]) ++ phs ++ tail) as Hshape.
  { by rewrite <- app_assoc. }
  rewrite Hshape. rewrite IH by (by rewrite <- Hshape).
  simpl. by rewrite Nat.add_succ_r.
Qed.

(** C6, amended.  On a graph whose placeholders come first (at least one,
    unique names) and whose input spec has a positional part, the pass
    returns; every literal argument of a non-placeholder node is replaced,
    in its position, by a reference to a created placeholder, numbered in
    node-then-argument order; the created placeholders sit directly after
    the last original placeholder, the latest created first (the reverse
    of the traversal order); the positional part of the input spec gets
    one leaf per promoted literal; the parameters are as before. *)
Theorem replace_literals_reverse_order gm (phs body : list Node) in_spec :
  graph gm = phs ++ body →
  phs ≠ [] →
  Forall (λ n, op n = placeholder) phs →
  Forall (λ n, op n ≠ placeholder) body →
  NoDup (name <$> graph gm) →
  _in_spec gm = Some in_spec →
  children_specs in_spec ≠ [] →
  _replace_literals_with_placeholders gm
  = Ok (mkGraphModule
          (phs ++ rev (new_placeholders (fresh_name (graph gm)) (length phs)
                         (literal_count body))
               ++ promoted_nodes (fresh_name (graph gm)) body)
          (attrs gm)
          (Some (extend_in_spec in_spec (literal_count body)))).
Proof.
  intros Hg Hne Hphs Hbody Hnd Hspec Hch.
  destruct (exists_last Hne) as (pre & P & ->).
  destruct gm as [g attr sp]. simpl in *. subst g sp.
  unfold _replace_literals_with_placeholders, promotion_fuel. simpl graph.
  rewrite length_app, <- Nat.add_assoc.
  pose proof (promote_placeholders_run (pre ++ [P]) Hphs [] body None 0
    (length body + sum_list (length ∘ args <$> (pre ++ [P]) ++ body)) attr
    (Some in_spec) Hnd) as Hrun1.
  simpl app in Hrun1. rewrite Hrun1. clear Hrun1.
  rewrite foldl_app. simpl foldl.
  pose proof (promote_body_run in_spec (fresh_name ((pre ++ [P]) ++ body))
    (length (pre ++ [P])) pre P attr body Hch Hbody [] 0
    (length body + sum_list (length ∘ args <$> (pre ++ [P]) ++ body))) as Hrun2.
  simpl in Hrun2. rewrite extend_in_spec_0 in Hrun2.
  rewrite <- (app_assoc pre [P] body). simpl.
  rewrite <- (app_assoc pre [P] body) in Hrun2. simpl in Hrun2.
  rewrite Nat.add_0_r.
  rewrite Hrun2.
  - simpl. rewrite !Nat.add_0_r. by rewrite <- !app_assoc.
  - lia.
  - done.
  - by rewrite <- (app_assoc pre [P] body) in Hnd.
Qed.

End promotion_order.

(** ** Argument values and node references *)

Lemma Arg_nested_ind (P : Arg → Prop) :
  P A_none → (∀ b, P (A_bool b)) → (∀ z, P (A_int z)) → (∀ q, P (A_float q)) →
  (∀ s, P (A_obj s)) → (∀ n, P (A_node n)) →
  (∀ l, Forall P l → P (A_tuple l)) → (∀ l, Forall P l → P (A_list l)) →
  ∀ a, P a.
Proof.
  intros Hnone Hbool Hint Hfloat Hobj Hnode Htuple Hlist.
  fix IH 1. intros [ |b|z|q|s|n|l|l];
    [apply Hnone|apply Hbool|apply Hint|apply Hfloat|apply Hobj|apply Hnode| |].
  - apply Htuple. induction l as [|x l IHl]; constructor; [apply IH | exact IHl].
  - apply Hlist. induction l as [|x l IHl]; constructor; [apply IH | exact IHl].
Qed.

Lemma map_arg_ext (f h : node_id → node_id) (a : Arg) :
  (∀ r, r ∈ arg_nodes a → f r = h r) → map_arg f a = map_arg h a.
Proof.
  induction a as [ | | | | |n|l IH|l IH] using Arg_nested_ind; simpl; intros Hfh;
    try done.
  - f_equal. apply Hfh. by left.
  - f_equal. induction IH as [|x l Hx Hl IHl]; simpl; [done|].
    simpl in Hfh. f_equal.
    + apply Hx. intros r Hr. apply Hfh. apply elem_of_app. by left.
    + apply IHl. intros r Hr. apply Hfh. apply elem_of_app. by right.
  - f_equal. induction IH as [|x l Hx Hl IHl]; simpl; [done|].
    simpl in Hfh. f_equal.
    + apply Hx. intros r Hr. apply Hfh. apply elem_of_app. by left.
    + apply IHl. intros r Hr. apply Hfh. apply elem_of_app. by right.
Qed.

Lemma map_arg_id (a : Arg) : map_arg id a = a.
Proof.
  induction a as [ | | | | |n|l IH|l IH] using Arg_nested_ind; simpl; try done.
  - f_equal. induction IH as [|x l Hx Hl IHl]; simpl; [done|]. by rewrite Hx, IHl.
  - f_equal. induction IH as [|x l Hx Hl IHl]; simpl; [done|]. by rewrite Hx, IHl.
Qed.

Lemma map_arg_compose (f h : node_id → node_id) (a : Arg) :
  map_arg f (map_arg h a) = map_arg (f ∘ h) a.
Proof.
  induction a as [ | | | | |n|l IH|l IH] using Arg_nested_ind; simpl; try done.
  - f_equal. induction IH as [|x l Hx Hl IHl]; simpl; [done|]. by rewrite Hx, IHl.
  - f_equal. induction IH as [|x l Hx Hl IHl]; simpl; [done|]. by rewrite Hx, IHl.
Qed.

Lemma arg_nodes_map_arg (f : node_id → node_id) (a : Arg) :
  arg_nodes (map_arg f a) = f <$> arg_nodes a.
Proof.
  induction a as [ | | | | |n|l IH|l IH] using Arg_nested_ind; simpl; try done.
  - induction IH as [|x l Hx Hl IHl]; simpl; [done|].
    by rewrite fmap_app, Hx, IHl.
  - induction IH as [|x l Hx Hl IHl]; simpl; [done|].
    by rewrite fmap_app, Hx, IHl.
Qed.

Lemma py_eq_0_map_arg (f : node_id → node_id) (a : Arg) :
  py_eq_0 (map_arg f a) = py_eq_0 a.
Proof. by destruct a. Qed.

Lemma elem_of_concat_map {A B : Type} (f : A → list B) (l : list A) (y : B) :
  y ∈ concat (map f l) ↔ ∃ a, a ∈ l ∧ y ∈ f a.
Proof.
  induction l as [|x l IH]; simpl.
  - split; [by intros ?%elem_of_nil | by intros (a & ?%elem_of_nil & _)].
  - rewrite elem_of_app, IH. split.
    + intros [H|(a & Ha & Hy)]; [exists x | exists a]; split; try done.
      * by left.
      * by right.
    + intros (a & Ha & Hy). apply elem_of_cons in Ha as [->|Ha]; [by left|].
      right. by exists a.
Qed.

Lemma elem_of_all_input_nodes (x : Node) (r : node_id) :
  r ∈ all_input_nodes x
  ↔ (∃ a, a ∈ args x ∧ r ∈ arg_nodes a)
    ∨ (∃ k a, kwargs x !! k = Some a ∧ r ∈ arg_nodes a).
Proof.
  unfold all_input_nodes. rewrite elem_of_app, !elem_of_concat_map. split.
  - intros [H|(a & Ha & Hr)]; [by left|]. right.
    apply list_elem_of_fmap in Ha as ([k a'] & -> & Hka).
    apply elem_of_map_to_list in Hka. by exists k, a'.
  - intros [H|(k & a & Hk & Hr)]; [by left|]. right.
    exists a. split; [|done].
    apply list_elem_of_fmap. exists (k, a). split; [done|].
    by apply elem_of_map_to_list.
Qed.

Lemma elem_of_inputs_map_node_args (f : node_id → node_id) (x : Node) (r : node_id) :
  r ∈ all_input_nodes (map_node_args f x)
  ↔ ∃ r0, r0 ∈ all_input_nodes x ∧ r = f r0.
Proof.
  rewrite elem_of_all_input_nodes. simpl. split.
  - intros [(a & Ha & Hr)|(k & a & Hk & Hr)].
    + apply list_elem_of_fmap in Ha as (a0 & -> & Ha0).
      rewrite arg_nodes_map_arg in Hr.
      apply list_elem_of_fmap in Hr as (r0 & -> & Hr0).
      exists r0. split; [|done]. apply elem_of_all_input_nodes. left. by exists a0.
    + rewrite lookup_fmap in Hk.
      destruct (kwargs x !! k) as [a0|] eqn:Hk0; [|done]. injection Hk as <-.
      rewrite arg_nodes_map_arg in Hr.
      apply list_elem_of_fmap in Hr as (r0 & -> & Hr0).
      exists r0. split; [|done]. apply elem_of_all_input_nodes. right. by exists k, a0.
  - intros (r0 & Hr0 & ->).
    apply elem_of_all_input_nodes in Hr0 as [(a & Ha & Hr)|(k & a & Hk & Hr)].
    + left. exists (map_arg f a). split; [by apply list_elem_of_fmap_2|].
      rewrite arg_nodes_map_arg. by apply list_elem_of_fmap_2.
    + right. exists k, (map_arg f a). split; [by rewrite lookup_fmap, Hk|].
      rewrite arg_nodes_map_arg. by apply list_elem_of_fmap_2.
Qed.

Lemma map_node_args_ext (f h : node_id → node_id) (x : Node) :
  (∀ r, r ∈ all_input_nodes x → f r = h r) →
  map_node_args f x = map_node_args h x.
Proof.
  intros Hfh. unfold map_node_args. f_equal.
  - apply list_fmap_ext. intros i a Ha. apply map_arg_ext. intros r Hr.
    apply Hfh, elem_of_all_input_nodes. left. exists a. split; [|done].
    by eapply list_elem_of_lookup_2.
  - apply map_fmap_ext. intros k a Hk. apply map_arg_ext. intros r Hr.
    apply Hfh, elem_of_all_input_nodes. right. by exists k, a.
Qed.

Lemma map_node_args_id (x : Node) : map_node_args id x = x.
Proof.
  unfold map_node_args. destruct x as [n o t a kw]. simpl. f_equal.
  - rewrite <- (list_fmap_id a) at 2. apply list_fmap_ext. intros. apply map_arg_id.
  - rewrite <- (map_fmap_id kw) at 2. apply map_fmap_ext. intros. apply map_arg_id.
Qed.

Lemma map_node_args_compose (f h : node_id → node_id) (x : Node) :
  map_node_args f (map_node_args h x) = map_node_args (f ∘ h) x.
Proof.
  unfold map_node_args. simpl. f_equal.
  - rewrite <- list_fmap_compose. apply list_fmap_ext. intros. apply map_arg_compose.
  - rewrite <- map_fmap_compose. apply map_fmap_ext. intros. apply map_arg_compose.
Qed.

Lemma map_node_args_fixed (f : node_id → node_id) (x : Node) :
  (∀ r, r ∈ all_input_nodes x → f r = r) → map_node_args f x = x.
Proof.
  intros Hf. rewrite <- (map_node_args_id x) at 2. by apply map_node_args_ext.
Qed.

Lemma replace_all_uses_with_map (self replace_with : node_id) (g : list Node) :
  replace_all_uses_with self replace_with g
  = map_node_args (maybe_replace_node self replace_with) <$> g.
Proof.
  unfold replace_all_uses_with. apply list_fmap_ext. intros i x _.
  destruct (uses x self) eqn:Hu; [done|].
  symmetry. apply map_node_args_fixed. intros r Hr.
  unfold maybe_replace_node. case_decide as Heq; [|done]. subst r.
  unfold uses in Hu. by apply bool_decide_eq_false in Hu.
Qed.

(** ** Linted graphs *)

Lemma lint_from_spec (seen : list node_id) (g : list Node) :
  lint_from seen g = true →
  NoDup (name <$> g)
  ∧ (∀ n, n ∈ name <$> g → n ∉ seen)
  ∧ (∀ i u r, g !! i = Some u → r ∈ all_input_nodes u →
       r ∈ seen ∨ ∃ j x, j < i ∧ g !! j = Some x ∧ name x = r).
Proof.
  revert seen. induction g as [|x g IH]; intros seen Hl.
  - split; [constructor|]. split; [by intros n ?%elem_of_nil|]. by intros i u r ?.
  - simpl in Hl. apply andb_true_iff in Hl as [Hl Hrest].
    apply andb_true_iff in Hl as [Hin Hx]. apply bool_decide_eq_true in Hx.
    destruct (IH _ Hrest) as (Hnd & Hfresh & Hlook).
    split; [|split].
    + rewrite fmap_cons. apply NoDup_cons. split; [|done].
      intros Hxin. apply (Hfresh _ Hxin). by left.
    + intros n Hn. rewrite fmap_cons in Hn. apply elem_of_cons in Hn as [->|Hn]; [done|].
      intros Hs. apply (Hfresh _ Hn). by right.
    + intros [|i] u r Hu Hr.
      * injection Hu as <-. left.
        rewrite forallb_forall in Hin. apply list_elem_of_In in Hr.
        by apply Hin, bool_decide_eq_true in Hr.
      * simpl in Hu. destruct (Hlook i u r Hu Hr) as [Hs|(j & y & Hj & Hy & Hn)].
        -- apply elem_of_cons in Hs as [->|Hs]; [|by left].
           right. exists 0, x. split; [lia|done].
        -- right. exists (S j), y. split; [lia|done].
Qed.

Lemma lint_NoDup (g : list Node) : lint g = true → NoDup (name <$> g).
Proof. intros H. by apply lint_from_spec in H as [? _]. Qed.

Lemma lint_input_before (g : list Node) (i : nat) (u : Node) (r : node_id) :
  lint g = true → g !! i = Some u → r ∈ all_input_nodes u →
  ∃ j x, j < i ∧ g !! j = Some x ∧ name x = r.
Proof.
  intros H Hu Hr. apply lint_from_spec in H as (_ & _ & H).
  destruct (H i u r Hu Hr) as [Hnil|?]; [|done]. by apply elem_of_nil in Hnil.
Qed.

Lemma NoDup_names_lookup (g : list Node) (i j : nat) (x y : Node) :
  NoDup (name <$> g) → g !! i = Some x → g !! j = Some y → name x = name y → i = j.
Proof.
  intros Hnd Hi Hj Hn. eapply NoDup_lookup; [exact Hnd| |].
  - by rewrite list_lookup_fmap, Hi.
  - rewrite list_lookup_fmap, Hj. simpl. by rewrite Hn.
Qed.

Lemma lint_no_back_use (g : list Node) : lint g = true → no_back_use g.
Proof.
  intros Hl i k n u Hn Hu Hk. apply bool_decide_eq_false. intros Hin.
  destruct (lint_input_before g k u (name n) Hl Hu Hin) as (j & x & Hj & Hx & Hname).
  pose proof (NoDup_names_lookup g j i x n (lint_NoDup g Hl) Hx Hn Hname). lia.
Qed.

Lemma find_node_elem_of (g : list Node) (x : Node) :
  NoDup (name <$> g) → x ∈ g → find_node g (name x) = Some x.
Proof.
  intros Hnd Hx. apply list_elem_of_split in Hx as (l1 & l2 & ->).
  apply find_node_middle. by apply NoDup_names_middle in Hnd as [? _].
Qed.

Lemma find_node_Some (g : list Node) (n : node_id) (x : Node) :
  find_node g n = Some x → x ∈ g ∧ name x = n.
Proof.
  unfold find_node. intros H. apply find_some in H as [Hin Hb].
  apply bool_decide_eq_true in Hb. split; [by apply list_elem_of_In|done].
Qed.

(** ** Dead-code elimination *)

Section dead_code.
Context {tensor : Type} (E : Externals tensor).

Lemma users_app (l1 l2 : list Node) (r : node_id) :
  users (l1 ++ l2) r = users l1 r ++ users l2 r.
Proof. unfold users. apply filter_app. Qed.

Lemma users_nil_iff (g : list Node) (r : node_id) :
  users g r = [] ↔ ∀ u, u ∈ g → uses u r = false.
Proof.
  unfold users. induction g as [|x g IH].
  - split; [by intros _ u ?%elem_of_nil|done].
  - rewrite filter_cons. destruct (decide (uses x r = true)) as [Hx|Hx].
    + split; [done|]. intros H. rewrite H in Hx; [done|by left].
    + rewrite IH. apply not_true_is_false in Hx. split.
      * intros H u [->|Hu]%elem_of_cons; [done|by apply H].
      * intros H u Hu. apply H. by right.
Qed.

Lemma no_back_use_prefix (l1 l2 : list Node) : no_back_use (l1 ++ l2) → no_back_use l1.
Proof.
  intros H i k n u Hn Hu Hk.
  apply (H i k n u); [by apply lookup_app_l_Some..|done].
Qed.

Lemma no_back_use_last (front : list Node) (n : Node) :
  no_back_use (front ++ [n]) → users (front ++ [n]) (name n) = [].
Proof.
  intros H. apply users_nil_iff. intros u Hu.
  apply list_elem_of_lookup in Hu as [k Hk].
  apply (H (length front) k n u); [|done|].
  - by rewrite lookup_app_r, Nat.sub_diag by lia.
  - apply lookup_lt_Some in Hk. rewrite length_app in Hk. simpl in Hk. lia.
Qed.

Lemma erase_dead_nodes_sweep (front kept : list Node) :
  no_back_use front →
  erase_dead_nodes E (rev front) kept
  = foldr (λ n kept, if dead_node E n kept then kept else n :: kept) kept front.
Proof.
  revert kept. induction front as [|n front IH] using rev_ind; intros kept Hnb; [done|].
  rewrite rev_unit, foldr_app. simpl.
  rewrite rev_involutive.
  assert (users (front ++ n :: kept) (name n) = users kept (name n)) as ->.
  { rewrite (cons_middle n front kept), app_assoc, users_app.
    by rewrite (no_back_use_last _ _ Hnb). }
  apply no_back_use_prefix in Hnb. unfold dead_node.
  destruct (negb (is_impure E n)
            && bool_decide (length (users kept (name n)) = 0)); by apply IH.
Qed.

Lemma sweep_idempotent (g : list Node) : sweep E (sweep E g) = sweep E g.
Proof.
  unfold sweep. induction g as [|n g IH]; [done|]. simpl.
  destruct (dead_node E n _) eqn:Hd; [done|].
  simpl. by rewrite IH, Hd.
Qed.

Lemma lint_from_sweep (g : list Node) :
  ∀ seen seen' : list node_id,
    lint_from seen g = true →
    seen' ⊆ seen →
    (∀ r, r ∈ seen → r ∉ seen' → ∀ u, u ∈ sweep E g → uses u r = false) →
    lint_from seen' (sweep E g) = true.
Proof.
  unfold sweep. induction g as [|n g IH]; intros seen seen' Hl Hsub Hun; [done|].
  simpl in Hl. apply andb_true_iff in Hl as [Hl Hrest].
  apply andb_true_iff in Hl as [Hin Hn]. apply bool_decide_eq_true in Hn.
  simpl in *. destruct (dead_node E n _) eqn:Hd.
  - apply (IH (name n :: seen)); [done|set_solver|].
    intros r Hr Hr' u Hu. apply elem_of_cons in Hr as [->|Hr]; [|by eapply Hun].
    unfold dead_node in Hd. apply andb_true_iff in Hd as [_ Hd].
    apply bool_decide_eq_true, nil_length_inv in Hd.
    by eapply users_nil_iff in Hd.
  - simpl. apply andb_true_iff. split; [apply andb_true_iff; split|].
    + apply forallb_forall. intros r Hr. apply bool_decide_eq_true.
      rewrite forallb_forall in Hin. pose proof (Hin r Hr) as Hs.
      apply bool_decide_eq_true in Hs.
      destruct (decide (r ∈ seen')) as [|Hns]; [done|]. exfalso.
      assert (uses n r = false) as Hf by (eapply Hun; [done..|by left]).
      apply bool_decide_eq_false in Hf. apply Hf. by apply list_elem_of_In.
    + apply bool_decide_eq_true. set_solver.
    + apply (IH (name n :: seen)); [done|set_solver|].
      intros r Hr Hr' u Hu. apply elem_of_cons in Hr as [->|Hr].
      * exfalso. apply Hr'. by left.
      * eapply Hun; [done| |by right]. intros ?. apply Hr'. by right.
Qed.

Lemma lint_sweep (g : list Node) : lint g = true → lint (sweep E g) = true.
Proof.
  intros Hl. apply (lint_from_sweep g [] []); [done|done|].
  by intros r ?%elem_of_nil.
Qed.

Lemma eliminate_dead_code_sweep (g : list Node) :
  lint g = true → eliminate_dead_code E g = Ok (sweep E g).
Proof.
  intros Hl. unfold eliminate_dead_code. rewrite Hl. f_equal.
  apply erase_dead_nodes_sweep. by apply lint_no_back_use.
Qed.

Lemma eliminate_dead_code_lint (g g' : list Node) :
  eliminate_dead_code E g = Ok g' → lint g = true.
Proof. unfold eliminate_dead_code. by destruct (lint g). Qed.

Lemma for_each_node_skip {S : Type} (graph_of : S → list Node)
    (body : node_id → S → result S) (s : S) (rest : list Node) :
  ∀ (pre : list Node) (fuel : nat),
    graph_of s = pre ++ rest →
    NoDup (name <$> graph_of s) →
    (∀ x, x ∈ rest → body (name x) s = Ok s) →
    length rest ≤ fuel →
    for_each_node graph_of body fuel (name <$> head rest) s = Ok s.
Proof.
  induction rest as [|x rest IH]; intros pre fuel Hg Hnd Hbody Hfuel.
  - by destruct fuel.
  - destruct fuel as [|fuel]; [simpl in Hfuel; lia|].
    change (name <$> head (x :: rest)) with (Some (name x)).
    rewrite for_each_node_S, Hbody by (by left).
    change (Ok ?a ≫= ?k) with (k a). cbv beta.
    rewrite Hg in Hnd |- *. rewrite next_node_middle.
    + rewrite <- Hg in Hnd. apply (IH (pre ++ [x])).
      * by rewrite <- app_assoc.
      * done.
      * intros y Hy. apply Hbody. by right.
      * simpl in Hfuel. lia.
    + by apply NoDup_names_middle in Hnd as [? _].
Qed.

End dead_code.

(** ** The driving loop of the fusion pass *)

Section fusion_pass.
Context {tensor : Type} (E : Externals tensor).
Implicit Types (m : GraphModule tensor).

Lemma fusion_candidate_Some m (bn : Node) c :
  fusion_candidate m bn = Ok (Some c) →
  op bn = call_function
  ∧ target bn = aten_native_batch_norm_legit_no_training_default.
Proof.
  unfold fusion_candidate. intros H.
  destruct (decide (op bn ≠ call_function)) as [|Hop]; [done|].
  destruct (decide (target bn ≠ aten_native_batch_norm_legit_no_training_default))
    as [|Ht]; [done|].
  split; [by apply dec_stable in Hop|by apply dec_stable in Ht].
Qed.

Lemma fusion_candidate_other_target m (bn : Node) :
  target bn ≠ aten_native_batch_norm_legit_no_training_default →
  fusion_candidate m bn = Ok None.
Proof.
  intros Ht. unfold fusion_candidate. case_decide; [done|]. by rewrite decide_True.
Qed.

Lemma fuse_visit_skip m (folded : list Node) (n : node_id) (bn : Node) :
  get_node m n = Ok bn → fusion_candidate m bn = Ok None →
  fuse_visit E n (m, folded) = Ok (m, folded).
Proof. intros Hn Hc. unfold fuse_visit. by rewrite Hn; simpl; rewrite Hc. Qed.

Lemma get_node_elem_of m (x : Node) :
  NoDup (name <$> graph m) → x ∈ graph m → get_node m (name x) = Ok x.
Proof. intros Hnd Hx. unfold get_node. by rewrite find_node_elem_of. Qed.

Lemma fuse_scan_skip m :
  NoDup (name <$> graph m) →
  (∀ x, x ∈ graph m → fusion_candidate m x = Ok None) →
  fuse_scan E m = Ok (m, []).
Proof.
  intros Hnd Hnone. unfold fuse_scan.
  apply (for_each_node_skip _ _ _ (graph m) []); [done|done| |lia].
  intros x Hx. apply (fuse_visit_skip _ _ _ x); [by apply get_node_elem_of|by apply Hnone].
Qed.

Lemma fuse_visit_folded (n : node_id) (s s' : GraphModule tensor * list Node) :
  Forall (λ bn, op bn = call_function
                ∧ target bn = aten_native_batch_norm_legit_no_training_default) s.2 →
  fuse_visit E n s = Ok s' →
  Forall (λ bn, op bn = call_function
                ∧ target bn = aten_native_batch_norm_legit_no_training_default) s'.2.
Proof.
  destruct s as [m folded]. simpl. intros Hf Hv. unfold fuse_visit in Hv.
  apply bind_Ok in Hv as (bn & Hbn & Hv).
  apply bind_Ok in Hv as (c & Hc & Hv).
  destruct c as [[[conv w] b]|]; [|by injection Hv as <-].
  apply bind_Ok in Hv as (m' & Hfold & Hv). injection Hv as <-. simpl.
  constructor; [|done]. by eapply fusion_candidate_Some.
Qed.

Lemma with_graph_same m : with_graph m (graph m) = m.
Proof. by destruct m. Qed.

(** When the scan of the transformed graph selects no node, a second run
    of [_fuse_conv_bn_] returns the module as the first run left it. *)
Lemma fuse_conv_bn_fixed_point m m1 :
  _fuse_conv_bn_ E m = Ok m1 →
  (∀ x, x ∈ graph m1 → fusion_candidate m1 x = Ok None) →
  _fuse_conv_bn_ E m1 = Ok m1.
Proof.
  unfold _fuse_conv_bn_. intros Hrun Hnone.
  apply bind_Ok in Hrun as (s & Hscan & Hrun).
  apply bind_Ok in Hrun as (g & Hdce & Hrun).
  unfold recompile in Hrun |- *. injection Hrun as <-.
  pose proof (eliminate_dead_code_lint E _ _ Hdce) as Hlint.
  rewrite (eliminate_dead_code_sweep E _ Hlint) in Hdce. injection Hdce as <-.
  simpl in Hnone.
  rewrite fuse_scan_skip.
  - simpl. rewrite eliminate_dead_code_sweep by by apply lint_sweep.
    simpl. rewrite sweep_idempotent. done.
  - simpl. by apply lint_NoDup, lint_sweep.
  - done.
Qed.

End fusion_pass.

(** ** The rewiring of the index-0 accessors *)

Lemma find_node_fmap (F : Node → Node) (g : list Node) (n : node_id) :
  (∀ x, name (F x) = name x) → find_node (F <$> g) n = F <$> find_node g n.
Proof.
  intros HF. unfold find_node. induction g as [|x g IH]; simpl; [done|].
  rewrite HF. by destruct (bool_decide (name x = n)).
Qed.

Lemma is_getitem_0_map_node_args (f : node_id → node_id) (x : Node) :
  is_getitem_0 (map_node_args f x) = is_getitem_0 x.
Proof.
  unfold is_getitem_0. simpl. repeat case_decide; try done.
  unfold py_index. rewrite list_lookup_fmap.
  destruct (args x !! 1) as [a|]; simpl; [|done]. by rewrite py_eq_0_map_arg.
Qed.

Lemma getitem_0_among_fmap (f : node_id → node_id) (g : list Node) (us : list node_id) :
  getitem_0_among (map_node_args f <$> g) us = getitem_0_among g us.
Proof.
  unfold getitem_0_among. apply list_filter_iff. intros u.
  rewrite find_node_fmap by done.
  destruct (find_node g u) as [x|]; simpl; [|done].
  unfold getitem_0. by rewrite is_getitem_0_map_node_args.
Qed.

Lemma replace_getitem_0_uses_map (conv_node : node_id) (us : list node_id) :
  ∀ g g', replace_getitem_0_uses us conv_node g = Ok g' →
    g' = map_node_args (redirect (getitem_0_among g us) conv_node) <$> g.
Proof.
  induction us as [|u us IH]; intros g g' Hrun; simpl in Hrun.
  - injection Hrun as <-. rewrite <- (list_fmap_id g) at 1.
    apply list_fmap_ext. intros i x _. symmetry. apply map_node_args_fixed.
    intros r _. unfold redirect. case_decide as Hin; [|done].
    unfold getitem_0_among in Hin. rewrite filter_nil in Hin.
    by apply elem_of_nil in Hin.
  - destruct (find_node g u) as [user|] eqn:Hu; [|done]. simpl in Hrun.
    destruct (is_getitem_0 user) as [b|] eqn:Hb; [|done]. simpl in Hrun.
    assert ((if b then replace_all_uses_with u conv_node g else g)
            = map_node_args (if b then maybe_replace_node u conv_node else id) <$> g)
      as Hg1.
    { destruct b; [apply replace_all_uses_with_map|].
      rewrite <- (list_fmap_id g) at 1. apply list_fmap_ext.
      intros i x _. symmetry. apply map_node_args_id. }
    rewrite Hg1 in Hrun. apply IH in Hrun. rewrite Hrun.
    rewrite getitem_0_among_fmap, <- list_fmap_compose.
    apply list_fmap_ext. intros i x _. simpl.
    rewrite map_node_args_compose. apply map_node_args_ext. intros r _. simpl.
    assert (getitem_0 user = b) as Hgb by (unfold getitem_0; by rewrite Hb).
    unfold getitem_0_among at 2. rewrite filter_cons. rewrite Hu. simpl.
    fold (getitem_0_among g us).
    unfold redirect. destruct b.
    + rewrite (decide_True _ _ Hgb). unfold maybe_replace_node.
      destruct (decide (r = u)) as [->|Hne].
      * rewrite (decide_True (P:=u ∈ u :: _)) by by left. by case_decide.
      * destruct (decide (r ∈ getitem_0_among g us)) as [Hin|Hnin].
        -- by rewrite (decide_True (P:=r ∈ u :: _)) by by right.
        -- rewrite (decide_False (P:=r ∈ u :: _)); [done|].
           by intros [?|?]%elem_of_cons.
    + rewrite (decide_False (P:=getitem_0 user = true)); [done|congruence].
Qed.

(** ** What the fold changes *)

Section fold_effects.
Context {tensor : Type} (E : Externals tensor).
Implicit Types (m : GraphModule tensor) (fused_weight fused_bias : tensor).

Lemma update_conv_parameters_spec (conv_node : node_id)
    (conv_weight_node conv_bias_node : Arg) fused_weight fused_bias m m1 (conv : Node) :
  update_conv_parameters conv_node conv_weight_node conv_bias_node
    fused_weight fused_bias m = Ok m1 →
  get_node m conv_node = Ok conv →
  ∃ weight_attr_name,
    target_of m conv_weight_node = Ok (T_str weight_attr_name)
    ∧ match conv_bias_node with
      | A_none =>
          in_graph (graph m) conv_node = true
          ∧ 2 < length (args conv)
          ∧ m1 = mkGraphModule
                   (set_args conv_node
                      (<[2 := A_node (fresh_name (graph m))]> (args conv))
                      (insert_before conv_node
                         (mkNode (fresh_name (graph m)) get_attr
                            (T_str (weight_attr_name +:+ "_bias")) [] ∅)
                         (graph m)))
                   (<[weight_attr_name +:+ "_bias" := fused_bias]>
                      (<[weight_attr_name := fused_weight]> (attrs m)))
                   (_in_spec m)
      | _ =>
          ∃ bias_attr_name,
            target_of m conv_bias_node = Ok (T_str bias_attr_name)
            ∧ m1 = mkGraphModule (set_args conv_node (args conv) (graph m))
                     (<[bias_attr_name := fused_bias]>
                        (<[weight_attr_name := fused_weight]> (attrs m)))
                     (_in_spec m)
      end.
Proof.
  unfold update_conv_parameters. intros Hrun Hconv. rewrite Hconv in Hrun.
  simpl in Hrun.
  apply bind_Ok in Hrun as (wt & Hwt & Hrun).
  apply bind_Ok in Hrun as (wname & Hw & Hrun).
  destruct wt as [s| | | |]; try done. injection Hw as ->.
  exists wname. split; [done|]. simpl in Hrun.
  destruct conv_bias_node as [ |b0|z|q|s|b|l|l]; simpl in Hrun; try done.
  - destruct (in_graph (graph m) conv_node) eqn:Hin; [|done]. simpl in Hrun.
    unfold set_item in Hrun. case_bool_decide as Hlen; [|done]. simpl in Hrun.
    injection Hrun as <-. done.
  - apply bind_Ok in Hrun as ([[bt ca] m2] & Hb & Hrun).
    apply bind_Ok in Hb as (bt' & Hbt & Hb). injection Hb as <- <- <-.
    apply bind_Ok in Hbt as (bnode & Hbn & Hbt). injection Hbt as <-.
    unfold get_node in *. simpl in *.
    destruct (find_node (graph m) b) as [bnode'|] eqn:Hfb; [|done].
    injection Hbn as ->. simpl.
    destruct (target bnode) as [bname| | | |] eqn:Htb; try done. simpl in Hrun.
    injection Hrun as <-. exists bname. split; [|done].
    unfold get_node. rewrite Hfb. simpl. by rewrite Htb.
Qed.

Lemma fold_decompose (conv_node : node_id) (conv_weight_node conv_bias_node : Arg)
    (bn_node : node_id) m m' :
  fold_bn_weights_into_conv_node E conv_node conv_weight_node conv_bias_node
    bn_node m = Ok m' →
  ∃ c bn_eps fused_weight fused_bias m1,
    fold_constants E conv_node conv_weight_node conv_bias_node bn_node m = Ok c
    ∧ bn_eps_of c = Ok bn_eps
    ∧ fuse_conv_bn_weights E (fc_conv_w c) (fc_conv_b c) (fc_bn_rm c) (fc_bn_rv c)
        bn_eps (fc_bn_w c) (fc_bn_b c) (fc_transpose c)
      = Ok (fused_weight, fused_bias)
    ∧ update_conv_parameters conv_node conv_weight_node conv_bias_node
        fused_weight fused_bias m = Ok m1
    ∧ graph m'
      = map_node_args (redirect (getitem_0_users (graph m1) bn_node) conv_node)
        <$> graph m1
    ∧ attrs m' = attrs m1
    ∧ _in_spec m' = _in_spec m1.
Proof.
  unfold fold_bn_weights_into_conv_node. intros Hrun.
  apply bind_Ok in Hrun as (c & Hc & Hrun).
  apply bind_Ok in Hrun as (eps & Heps & Hrun).
  apply bind_Ok in Hrun as ([fw fb] & Hfuse & Hrun).
  apply bind_Ok in Hrun as (m1 & Hupd & Hrun).
  apply bind_Ok in Hrun as (g & Hg & Hrun). injection Hrun as <-.
  exists c, eps, fw, fb, m1. repeat split; try done.
  simpl. by apply replace_getitem_0_uses_map in Hg.
Qed.

End fold_effects.

(** ** Order of definitions and uses *)

Lemma uses_true (u : Node) (r : node_id) : uses u r = true ↔ r ∈ all_input_nodes u.
Proof. unfold uses. apply bool_decide_eq_true. Qed.

Lemma lint_uses_before (g : list Node) (x y : Node) :
  lint g = true → x ∈ g → y ∈ g → uses y (name x) = true → before g x y.
Proof.
  intros Hl Hx Hy Hu. apply uses_true in Hu.
  apply list_elem_of_lookup in Hy as [j Hj].
  apply list_elem_of_lookup in Hx as [i Hi].
  destruct (lint_input_before g j y (name x) Hl Hj Hu) as (i' & x' & Hlt & Hi' & Hn).
  assert (i' = i) as -> by (eapply NoDup_names_lookup; eauto using lint_NoDup).
  by exists i, j.
Qed.

Lemma before_trans (g : list Node) (x y z : Node) :
  NoDup (name <$> g) → before g x y → before g y z → before g x z.
Proof.
  intros Hnd (i & j & Hij & Hi & Hj) (j' & k & Hjk & Hj' & Hk).
  assert (j = j') as <- by (eapply NoDup_names_lookup; eauto).
  exists i, k. split; [lia|done].
Qed.

Lemma before_irrefl (g : list Node) (x : Node) :
  NoDup (name <$> g) → ¬ before g x x.
Proof.
  intros Hnd (i & j & Hij & Hi & Hj).
  assert (i = j) by (eapply NoDup_names_lookup; eauto). lia.
Qed.

Lemma elem_of_same_name (g : list Node) (x y : Node) :
  NoDup (name <$> g) → x ∈ g → y ∈ g → name x = name y → x = y.
Proof.
  intros Hnd Hx Hy Hn.
  apply list_elem_of_lookup in Hx as [i Hi]. apply list_elem_of_lookup in Hy as [j Hj].
  assert (i = j) as -> by (eapply NoDup_names_lookup; eauto). congruence.
Qed.

Lemma elem_of_getitem_0_users (g : list Node) (bn_node r : node_id) :
  NoDup (name <$> g) →
  r ∈ getitem_0_users g bn_node
  ↔ ∃ x, x ∈ g ∧ name x = r ∧ uses x bn_node = true ∧ getitem_0 x = true.
Proof.
  intros Hnd. unfold getitem_0_users, getitem_0_among, users.
  rewrite list_elem_of_filter, list_elem_of_fmap. split.
  - intros (Hg & x & -> & Hx). apply list_elem_of_filter in Hx as [Hu Hx].
    rewrite find_node_elem_of in Hg by done. by exists x.
  - intros (x & Hx & <- & Hu & Hg). rewrite find_node_elem_of by done.
    split; [done|]. exists x. split; [done|]. by apply list_elem_of_filter.
Qed.

Lemma elem_of_list_insert {A : Type} (l : list A) (i : nat) (a x : A) :
  x ∈ <[i := a]> l → x = a ∨ x ∈ l.
Proof.
  revert i. induction l as [|y l IH]; intros i; simpl; [by right|].
  destruct i as [|i]; simpl; rewrite !elem_of_cons; [naive_solver|].
  intros [->|H]; [by right; left|]. destruct (IH i H); [by left|by right; right].
Qed.

Lemma inputs_with_arg_set (x : Node) (i : nat) (a : Arg) (r : node_id) :
  r ∈ all_input_nodes (mkNode (name x) (op x) (target x) (<[i := a]> (args x)) (kwargs x)) →
  r ∈ arg_nodes a ∨ r ∈ all_input_nodes x.
Proof.
  rewrite !elem_of_all_input_nodes. simpl.
  intros [(a0 & Ha0 & Hr)|H]; [|by right; right].
  apply elem_of_list_insert in Ha0 as [->|Ha0]; [by left|].
  right. left. by exists a0.
Qed.

Lemma node_eta (x : Node) : mkNode (name x) (op x) (target x) (args x) (kwargs x) = x.
Proof. by destruct x. Qed.

(** ** The fold on a linted graph whose batch norm is fed by the convolution *)

Section fold_on_linted_graph.
Context {tensor : Type} (E : Externals tensor).
Variables (m : GraphModule tensor) (conv_node bn_node : node_id) (conv bn : Node).
Hypothesis Hlint : lint (graph m) = true.
Hypothesis Hconv : get_node m conv_node = Ok conv.
Hypothesis Hbn : get_node m bn_node = Ok bn.
Hypothesis Hfeed : args bn !! 0 = Some (A_node conv_node).

Lemma get_node_Ok (m0 : GraphModule tensor) (n : node_id) (x : Node) :
  get_node m0 n = Ok x → x ∈ graph m0 ∧ name x = n.
Proof.
  unfold get_node. destruct (find_node (graph m0) n) as [y|] eqn:Hf; [|done].
  intros [= <-]. by apply find_node_Some.
Qed.

Lemma linted_NoDup : NoDup (name <$> graph m).
Proof. by apply lint_NoDup. Qed.

Lemma conv_before_bn : before (graph m) conv bn.
Proof.
  destruct (get_node_Ok _ _ _ Hconv) as [Hc Hcn].
  destruct (get_node_Ok _ _ _ Hbn) as [Hb Hbnn].
  apply lint_uses_before; [done..|]. apply uses_true, elem_of_all_input_nodes.
  left. exists (A_node conv_node). split; [by eapply list_elem_of_lookup_2|].
  rewrite Hcn. simpl. by left.
Qed.

Lemma bn_before_user (x : Node) :
  x ∈ graph m → uses x bn_node = true → before (graph m) bn x.
Proof.
  intros Hx Hu. destruct (get_node_Ok _ _ _ Hbn) as [Hb Hbnn].
  apply lint_uses_before; [done..|]. by rewrite Hbnn.
Qed.

Lemma conv_before_user (x : Node) :
  x ∈ graph m → uses x bn_node = true → before (graph m) conv x.
Proof.
  intros Hx Hu. eapply before_trans; [apply linted_NoDup|apply conv_before_bn|].
  by apply bn_before_user.
Qed.

Lemma user_not_conv (x : Node) :
  x ∈ graph m → uses x bn_node = true → name x ≠ conv_node.
Proof.
  intros Hx Hu Hn. destruct (get_node_Ok _ _ _ Hconv) as [Hc Hcn].
  assert (x = conv) as ->.
  { eapply elem_of_same_name; [apply linted_NoDup|done..|congruence]. }
  eapply before_irrefl; [apply linted_NoDup|]. by apply conv_before_user.
Qed.

Lemma conv_not_using_user (x : Node) :
  x ∈ graph m → uses x bn_node = true → name x ∉ all_input_nodes conv.
Proof.
  intros Hx Hu Hin. destruct (get_node_Ok _ _ _ Hconv) as [Hc Hcn].
  eapply before_irrefl; [apply linted_NoDup|].
  eapply before_trans; [apply linted_NoDup|by apply (conv_before_user x)|].
  apply lint_uses_before; [done..|]. by apply uses_true.
Qed.

Lemma conv_not_using_bn : bn_node ∉ all_input_nodes conv.
Proof.
  intros Hin. destruct (get_node_Ok _ _ _ Hconv) as [Hc Hcn].
  destruct (get_node_Ok _ _ _ Hbn) as [Hb Hbnn].
  eapply before_irrefl; [apply linted_NoDup|].
  eapply before_trans; [apply linted_NoDup|apply conv_before_bn|].
  apply lint_uses_before; [done..|]. apply uses_true. by rewrite Hbnn.
Qed.

Lemma bn_not_using_bn : uses bn bn_node = false.
Proof.
  apply not_true_is_false. intros Hu.
  destruct (get_node_Ok _ _ _ Hbn) as [Hb Hbnn].
  eapply before_irrefl; [apply linted_NoDup|]. by apply (bn_before_user bn).
Qed.

Lemma accessor_spec (r : node_id) :
  r ∈ getitem_0_users (graph m) bn_node
  ↔ ∃ x, x ∈ graph m ∧ name x = r ∧ uses x bn_node = true ∧ getitem_0 x = true.
Proof. apply elem_of_getitem_0_users, linted_NoDup. Qed.

Lemma accessor_in_graph (r : node_id) :
  r ∈ getitem_0_users (graph m) bn_node → r ∈ name <$> graph m.
Proof.
  intros (x & Hx & <- & _)%accessor_spec. by apply list_elem_of_fmap_2.
Qed.

Lemma conv_not_accessor : conv_node ∉ getitem_0_users (graph m) bn_node.
Proof.
  intros (x & Hx & Hn & Hu & _)%accessor_spec. by eapply user_not_conv.
Qed.

Lemma bn_not_accessor : bn_node ∉ getitem_0_users (graph m) bn_node.
Proof.
  intros (x & Hx & Hn & Hu & _)%accessor_spec.
  destruct (get_node_Ok _ _ _ Hbn) as [Hb Hbnn].
  assert (x = bn) as ->.
  { eapply elem_of_same_name; [apply linted_NoDup|done..|congruence]. }
  by rewrite bn_not_using_bn in Hu.
Qed.

Lemma no_inputs_created (n : node_id) (o : Op) (t : Target) (r : node_id) :
  r ∉ all_input_nodes (mkNode n o t [] ∅).
Proof.
  rewrite elem_of_all_input_nodes. simpl.
  intros [(a & Ha%elem_of_nil & _)|(k & a & Hk & _)]; [done|].
  by rewrite lookup_empty in Hk.
Qed.

Lemma redirect_shape (pre post extra : list Node) (conv1 : Node) :
  graph m = pre ++ conv :: post →
  name conv1 = conv_node →
  (∀ r, r ∈ all_input_nodes conv1 →
        r ∈ all_input_nodes conv ∨ r ∉ name <$> graph m) →
  Forall (λ e, (∀ r, r ∉ all_input_nodes e) ∧ name e ∉ name <$> graph m) extra →
  NoDup (name <$> extra) →
  map_node_args
    (redirect (getitem_0_users (pre ++ extra ++ conv1 :: post) bn_node) conv_node)
  <$> (pre ++ extra ++ conv1 :: post)
  = (map_node_args (redirect (getitem_0_users (graph m) bn_node) conv_node) <$> pre)
    ++ extra ++ conv1
    :: (map_node_args (redirect (getitem_0_users (graph m) bn_node) conv_node) <$> post).
Proof.
  intros Hg Hc1 Hin1 Hextra Hndx.
  pose proof linted_NoDup as Hnd.
  destruct (get_node_Ok _ _ _ Hconv) as [Hc Hcn].
  destruct (get_node_Ok _ _ _ Hbn) as [Hb Hbnn].
  set (g1 := pre ++ extra ++ conv1 :: post).
  assert (∀ x, x ∈ graph m ↔ x ∈ pre ∨ x = conv ∨ x ∈ post) as Hmem.
  { intros x. rewrite Hg, elem_of_app, elem_of_cons. tauto. }
  assert (∀ x, x ∈ g1 ↔ x ∈ pre ∨ x ∈ extra ∨ x = conv1 ∨ x ∈ post) as Hmem1.
  { intros x. unfold g1. rewrite !elem_of_app, elem_of_cons. tauto. }
  assert (NoDup (name <$> g1)) as Hnd1.
  { unfold g1. rewrite (app_assoc pre extra), <- (Permutation_app_comm extra pre).
    rewrite <- app_assoc, fmap_app. apply NoDup_app. split; [done|]. split.
    - intros n Hn Hn'. apply list_elem_of_fmap in Hn as (e & -> & He).
      rewrite Forall_forall in Hextra. destruct (Hextra e He) as [_ Hfresh].
      apply Hfresh. rewrite Hg, fmap_app, fmap_cons, Hcn.
      by rewrite fmap_app, fmap_cons, Hc1 in Hn'.
    - rewrite Hg, fmap_app, fmap_cons, Hcn in Hnd.
      by rewrite fmap_app, fmap_cons, Hc1. }
  assert (∀ r, r ∈ getitem_0_users g1 bn_node
               ↔ r ∈ getitem_0_users (graph m) bn_node) as Hacc.
  { intros r. rewrite accessor_spec, (elem_of_getitem_0_users g1) by done. split.
    - intros (x & Hx & Hn & Hu & Hgi). exists x. split; [|done].
      apply Hmem1 in Hx as [Hx|[Hx|[->|Hx]]]; [apply Hmem; by left| | |apply Hmem; by right; right].
      + rewrite Forall_forall in Hextra. destruct (Hextra x Hx) as [Hno _].
        apply uses_true in Hu. by apply Hno in Hu.
      + apply uses_true in Hu. destruct (Hin1 _ Hu) as [Hi|Hi].
        * by apply conv_not_using_bn in Hi.
        * exfalso. apply Hi. rewrite <- Hbnn. by apply list_elem_of_fmap_2.
    - intros (x & Hx & Hn & Hu & Hgi). exists x. split; [|done].
      apply Hmem in Hx as [Hx|[->|Hx]]; [apply Hmem1; by left| |apply Hmem1; by right; right; right].
      exfalso. by apply (user_not_conv conv). }
  assert (∀ x, map_node_args (redirect (getitem_0_users g1 bn_node) conv_node) x
               = map_node_args
                   (redirect (getitem_0_users (graph m) bn_node) conv_node) x) as Hext.
  { intros x. apply map_node_args_ext. intros r _. unfold redirect.
    destruct (decide (r ∈ getitem_0_users g1 bn_node)) as [Hr|Hr].
    - by rewrite decide_True by by apply Hacc.
    - rewrite decide_False; [done|]. intros Hr'. by apply Hr, Hacc. }
  unfold g1 at 2. rewrite !fmap_app, fmap_cons.
  f_equal; [by apply list_fmap_ext|]. f_equal.
  - rewrite <- (list_fmap_id extra) at 2. apply list_fmap_ext. intros i e He. simpl.
    apply map_node_args_fixed. intros r Hr.
    rewrite Forall_forall in Hextra.
    destruct (Hextra e (list_elem_of_lookup_2 _ _ _ He)) as [Hno _]. by apply Hno in Hr.
  - f_equal; [|by apply list_fmap_ext].
    rewrite Hext. apply map_node_args_fixed. intros r Hr. unfold redirect.
    rewrite decide_False; [done|]. intros Hacc'.
    destruct (Hin1 _ Hr) as [Hi|Hi].
    + apply accessor_spec in Hacc' as (x & Hx & <- & Hu & _).
      by apply (conv_not_using_user x).
    + by apply Hi, accessor_in_graph.
Qed.

Lemma fold_graph_shape (conv_weight_node conv_bias_node : Arg) (m' : GraphModule tensor) :
  fold_bn_weights_into_conv_node E conv_node conv_weight_node conv_bias_node
    bn_node m = Ok m' →
  ∃ weight_attr_name c bn_eps fused_weight fused_bias pre post,
    target_of m conv_weight_node = Ok (T_str weight_attr_name)
    ∧ fold_constants E conv_node conv_weight_node conv_bias_node bn_node m = Ok c
    ∧ bn_eps_of c = Ok bn_eps
    ∧ fuse_conv_bn_weights E (fc_conv_w c) (fc_conv_b c) (fc_bn_rm c) (fc_bn_rv c)
        bn_eps (fc_bn_w c) (fc_bn_b c) (fc_transpose c)
      = Ok (fused_weight, fused_bias)
    ∧ graph m = pre ++ conv :: post
    ∧ _in_spec m' = _in_spec m
    ∧ match conv_bias_node with
      | A_none =>
          2 < length (args conv)
          ∧ graph m'
            = (map_node_args (redirect (getitem_0_users (graph m) bn_node) conv_node)
               <$> pre)
              ++ [mkNode (fresh_name (graph m)) get_attr
                    (T_str (weight_attr_name +:+ "_bias")) [] ∅]
              ++ mkNode conv_node (op conv) (target conv)
                   (<[2 := A_node (fresh_name (graph m))]> (args conv)) (kwargs conv)
              :: (map_node_args (redirect (getitem_0_users (graph m) bn_node) conv_node)
                  <$> post)
          ∧ attrs m' = <[weight_attr_name +:+ "_bias" := fused_bias]>
                         (<[weight_attr_name := fused_weight]> (attrs m))
      | _ =>
          ∃ bias_attr_name,
            target_of m conv_bias_node = Ok (T_str bias_attr_name)
            ∧ graph m'
              = (map_node_args (redirect (getitem_0_users (graph m) bn_node) conv_node)
                 <$> pre)
                ++ [] ++ conv
                :: (map_node_args (redirect (getitem_0_users (graph m) bn_node) conv_node)
                    <$> post)
            ∧ attrs m' = <[bias_attr_name := fused_bias]>
                           (<[weight_attr_name := fused_weight]> (attrs m))
      end.
Proof.
  intros Hfold.
  apply fold_decompose in Hfold
    as (c & eps & fw & fb & m1 & Hc & Heps & Hfuse & Hupd & Hg' & Ha' & Hs').
  destruct (update_conv_parameters_spec _ _ _ _ _ _ _ _ Hupd Hconv) as (wname & Hw & Hm1).
  destruct (get_node_Ok _ _ _ Hconv) as [Hcin Hcn].
  pose proof linted_NoDup as Hnd.
  destruct (list_elem_of_split _ _ Hcin) as (pre & post & Hg).
  assert ((name conv ∉ name <$> pre) ∧ (name conv ∉ name <$> post)) as [Hpre Hpost].
  { rewrite Hg in Hnd. by apply NoDup_names_middle in Hnd. }
  exists wname, c, eps, fw, fb, pre, post.
  do 5 (split; [done|]).
  destruct conv_bias_node as [ |b0|z|q|s|b|l|l].
  - destruct Hm1 as (Hin & Hlen & ->). simpl in *. split; [done|]. split; [done|].
    split; [|done]. rewrite Hg'.
    set (bias := mkNode (fresh_name (graph m)) get_attr (T_str (wname +:+ "_bias")) [] ∅).
    assert (name bias ∉ name <$> graph m) as Hfresh by apply fresh_name_not_in.
    assert (set_args conv_node (<[2:=A_node (fresh_name (graph m))]> (args conv))
              (insert_before conv_node bias (graph m))
            = pre ++ [bias]
              ++ mkNode conv_node (op conv) (target conv)
                   (<[2:=A_node (fresh_name (graph m))]> (args conv)) (kwargs conv)
              :: post) as ->.
    { pose proof (insert_before_middle pre post conv bias Hpre) as Hib.
      rewrite Hcn, <- Hg in Hib. rewrite Hib.
      pose proof (set_args_middle (pre ++ [bias]) post conv
                    (<[2:=A_node (fresh_name (graph m))]> (args conv))) as Hsa.
      rewrite Hcn, <- !app_assoc in Hsa. simpl in Hsa.
      apply Hsa; [|by rewrite <- Hcn].
      rewrite fmap_app, <- Hcn.
      intros [?|Hb%list_elem_of_singleton]%elem_of_app; [done|].
      apply Hfresh. change (name bias) with (fresh_name (graph m)).
      simpl in Hb. rewrite <- Hb. by apply list_elem_of_fmap_2. }
    apply redirect_shape; [done|done| | |].
    + intros r Hr. rewrite <- Hcn in Hr. apply inputs_with_arg_set in Hr as [Hr|Hr].
      * right. simpl in Hr. apply list_elem_of_singleton in Hr as ->.
        apply fresh_name_not_in.
      * by left.
    + constructor; [|constructor]. split; [|done]. intros r. apply no_inputs_created.
    + apply NoDup_singleton.
  - destruct Hm1 as (? & ? & ?); done.
  - destruct Hm1 as (? & ? & ?); done.
  - destruct Hm1 as (? & ? & ?); done.
  - destruct Hm1 as (? & ? & ?); done.
  - destruct Hm1 as (bname & Hb & ->). simpl in *. split; [done|].
    exists bname. split; [done|]. split; [|done]. rewrite Hg'.
    assert (set_args conv_node (args conv) (graph m) = pre ++ [] ++ conv :: post) as ->.
    { pose proof (set_args_middle pre post conv (args conv) Hpre Hpost) as Hsa.
      rewrite node_eta, Hcn, <- Hg in Hsa. by rewrite Hsa. }
    apply redirect_shape; [done|done| |constructor|constructor].
    intros r Hr. by left.
  - destruct Hm1 as (? & ? & ?); done.
  - destruct Hm1 as (? & ? & ?); done.
Qed.

Lemma fold_graph_members (conv_weight_node conv_bias_node : Arg) (m' : GraphModule tensor) :
  fold_bn_weights_into_conv_node E conv_node conv_weight_node conv_bias_node
    bn_node m = Ok m' →
  ∃ pre post extra conv1,
    graph m = pre ++ conv :: post
    ∧ graph m'
      = (map_node_args (redirect (getitem_0_users (graph m) bn_node) conv_node) <$> pre)
        ++ extra ++ conv1
        :: (map_node_args (redirect (getitem_0_users (graph m) bn_node) conv_node)
            <$> post)
    ∧ name conv1 = conv_node
    ∧ (∀ r, r ∈ all_input_nodes conv1 →
            r ∈ all_input_nodes conv ∨ r ∉ name <$> graph m)
    ∧ Forall (λ e, (∀ r, r ∉ all_input_nodes e) ∧ name e ∉ name <$> graph m) extra.
Proof.
  intros Hfold.
  destruct (fold_graph_shape _ _ _ Hfold)
    as (wname & c & eps & fw & fb & pre & post & _ & _ & _ & _ & Hg & _ & Hb).
  destruct (get_node_Ok _ _ _ Hconv) as [Hcin Hcn].
  exists pre, post.
  destruct conv_bias_node as [ |b0|z|q|s|b|l|l];
    try (destruct Hb as (? & ? & Hg' & _); eexists [], conv;
         split; [done|]; split; [exact Hg'|]; split; [done|];
         split; [by left|constructor]).
  destruct Hb as (Hlen & Hg' & _). eexists _, _.
  split; [done|]. split; [exact Hg'|]. split; [done|]. split.
  - intros r Hr. rewrite <- Hcn in Hr. apply inputs_with_arg_set in Hr as [Hr|Hr].
    + right. simpl in Hr. apply list_elem_of_singleton in Hr as ->.
      apply fresh_name_not_in.
    + by left.
  - constructor; [|constructor]. split.
    + intros r. apply no_inputs_created.
    + apply fresh_name_not_in.
Qed.

Lemma redirected_not_using_accessor (x : Node) (u : node_id) :
  u ∈ getitem_0_users (graph m) bn_node →
  uses (map_node_args (redirect (getitem_0_users (graph m) bn_node) conv_node) x) u
  = false.
Proof.
  intros Hu. apply not_true_is_false. intros Hx. apply uses_true in Hx.
  apply elem_of_inputs_map_node_args in Hx as (r0 & Hr0 & Heq).
  unfold redirect in Heq. case_decide as Hr; subst u.
  - by apply conv_not_accessor.
  - done.
Qed.

Lemma redirected_using_other (x : Node) (h : node_id) :
  h ∉ getitem_0_users (graph m) bn_node → h ≠ conv_node →
  uses (map_node_args (redirect (getitem_0_users (graph m) bn_node) conv_node) x) h
  = uses x h.
Proof.
  intros Hh Hc. unfold uses. apply bool_decide_ext.
  rewrite elem_of_inputs_map_node_args. split.
  - intros (r0 & Hr0 & Heq). unfold redirect in Heq. case_decide; by subst.
  - intros Hin. exists h. split; [done|]. unfold redirect. by rewrite decide_False.
Qed.

Lemma elem_of_users_names (g : list Node) (h n : node_id) :
  n ∈ name <$> users g h ↔ ∃ x, x ∈ g ∧ name x = n ∧ uses x h = true.
Proof.
  unfold users. rewrite list_elem_of_fmap. split.
  - intros (x & -> & Hx). apply list_elem_of_filter in Hx as [Hu Hx]. by exists x.
  - intros (x & Hx & <- & Hu). exists x. split; [done|]. by apply list_elem_of_filter.
Qed.

Lemma getitem_0_shape (x : Node) :
  getitem_0 x = true
  ↔ op x = call_function ∧ target x = T_getitem
    ∧ ∃ a, args x !! 1 = Some a ∧ py_eq_0 a = true.
Proof.
  unfold getitem_0, is_getitem_0, py_index. split.
  - intros H.
    destruct (decide (op x ≠ call_function)) as [|Hop]; [done|].
    destruct (decide (target x ≠ T_getitem)) as [|Ht]; [done|].
    apply dec_stable in Hop. apply dec_stable in Ht.
    destruct (args x !! 1) as [a|]; [|done]. simpl in H.
    split; [done|]. split; [done|]. by exists a.
  - intros (Hop & Ht & a & Ha & Hz).
    rewrite decide_False by (by intros []). rewrite decide_False by (by intros []).
    by rewrite Ha.
Qed.

(** C3. After [fold_bn_weights_into_conv_node] returns, on a linted graph
    whose batch-norm node has the convolution as first argument: every
    node that referenced an index-0 [getitem] accessor of the batch-norm
    node references the convolution node in its place and the accessor no
    more, so that such an accessor has no users left; an accessor
    [getitem(bn, i)] of another index is in the graph as it was, and the
    nodes using it are the same as before. *)
Theorem fold_redirects_getitem_0 (conv_weight_node conv_bias_node : Arg)
    (m' : GraphModule tensor) :
  fold_bn_weights_into_conv_node E conv_node conv_weight_node conv_bias_node
    bn_node m = Ok m' →
  (∀ u, u ∈ getitem_0_users (graph m) bn_node
        ↔ ∃ x, x ∈ graph m ∧ name x = u ∧ uses x bn_node = true
               ∧ op x = call_function ∧ target x = T_getitem
               ∧ ∃ a, args x !! 1 = Some a ∧ py_eq_0 a = true)
  ∧ (∀ u x, u ∈ getitem_0_users (graph m) bn_node → x ∈ graph m →
       uses x u = true →
       ∃ x', x' ∈ graph m' ∧ name x' = name x ∧ op x' = op x ∧ target x' = target x
         ∧ args x' = map_arg (redirect (getitem_0_users (graph m) bn_node) conv_node)
                     <$> args x
         ∧ kwargs x' = map_arg (redirect (getitem_0_users (graph m) bn_node) conv_node)
                       <$> kwargs x
         ∧ uses x' conv_node = true ∧ uses x' u = false)
  ∧ (∀ u, u ∈ getitem_0_users (graph m) bn_node → users (graph m') u = [])
  ∧ (∀ h (i : Z), h ∈ graph m → op h = call_function → target h = T_getitem →
       args h = [A_node bn_node; A_int i] → kwargs h = ∅ → i ≠ 0%Z →
       h ∈ graph m'
       ∧ ∀ n, n ∈ name <$> users (graph m') (name h)
              ↔ n ∈ name <$> users (graph m) (name h)).
Proof.
  intros Hfold.
  destruct (fold_graph_members _ _ _ Hfold)
    as (pre & post & extra & conv1 & Hg & Hg' & Hc1 & Hin1 & Hextra).
  destruct (get_node_Ok _ _ _ Hconv) as [Hcin Hcn].
  pose proof linted_NoDup as Hnd.
  set (F := map_node_args (redirect (getitem_0_users (graph m) bn_node) conv_node))
    in *.
  assert (∀ x, x ∈ graph m ↔ x ∈ pre ∨ x = conv ∨ x ∈ post) as Hmem.
  { intros x. rewrite Hg, elem_of_app, elem_of_cons. tauto. }
  assert (∀ x', x' ∈ graph m'
            ↔ (∃ x, x ∈ graph m ∧ x ≠ conv ∧ x' = F x) ∨ x' ∈ extra ∨ x' = conv1)
    as Hmem'.
  { intros x'. rewrite Hg', !elem_of_app, elem_of_cons, !list_elem_of_fmap. split.
    - intros [(x & -> & Hx)|[?|[?|(x & -> & Hx)]]]; [left|by right; left|by right; right|left];
        exists x; (split; [apply Hmem; tauto|]); (split; [|done]); intros ->;
        rewrite Hg in Hnd; apply NoDup_names_middle in Hnd as [Hn1 Hn2];
        [apply Hn1|apply Hn2]; by apply list_elem_of_fmap_2.
    - intros [(x & Hx & Hne & ->)|[?|?]]; [|tauto..].
      apply Hmem in Hx as [?|[?|?]]; [left; by exists x|done|].
      right; right; right. by exists x. }
  assert (∀ x, x ∈ graph m → uses x bn_node = true → x ≠ conv) as Hnc.
  { intros x Hx Hu ->. by apply (user_not_conv conv). }
  split; [|split; [|split]].
  - intros u. rewrite accessor_spec. split.
    + intros (x & Hx & Hn & Hu & Hgi). apply getitem_0_shape in Hgi. by exists x.
    + intros (x & Hx & Hn & Hu & Hop & Ht & Ha). exists x. do 3 (split; [done|]).
      by apply getitem_0_shape.
  - intros u x Hu Hx Hxu. exists (F x).
    assert (x ≠ conv) as Hne.
    { intros ->. apply accessor_spec in Hu as (y & Hy & <- & Hyu & _).
      apply uses_true in Hxu. by apply (conv_not_using_user y). }
    split; [apply Hmem'; left; by exists x|]. do 5 (split; [done|]). split.
    + apply uses_true, elem_of_inputs_map_node_args. exists u.
      split; [by apply uses_true|]. unfold redirect. by rewrite decide_True.
    + by apply redirected_not_using_accessor.
  - intros u Hu. apply users_nil_iff. intros x' Hx'.
    apply Hmem' in Hx' as [(x & Hx & Hne & ->)|[Hx'| ->]].
    + by apply redirected_not_using_accessor.
    + rewrite Forall_forall in Hextra. destruct (Hextra x' Hx') as [Hno _].
      apply not_true_is_false. intros Hux%uses_true. by apply Hno in Hux.
    + apply not_true_is_false. intros Hux%uses_true.
      destruct (Hin1 _ Hux) as [Hi|Hi].
      * apply accessor_spec in Hu as (y & Hy & <- & Hyu & _).
        by apply (conv_not_using_user y).
      * by apply Hi, accessor_in_graph.
  - intros h i Hh Hop Ht Hargs Hkw Hz.
    assert (uses h bn_node = true) as Hhu.
    { apply uses_true, elem_of_all_input_nodes. left. exists (A_node bn_node).
      rewrite Hargs. split; [by left|]. simpl. by left. }
    assert (name h ∉ getitem_0_users (graph m) bn_node) as Hna.
    { intros (y & Hy & Hn & _ & Hgi)%accessor_spec.
      assert (y = h) as -> by (by eapply elem_of_same_name).
      apply getitem_0_shape in Hgi as (_ & _ & a' & Ha' & Hz').
      rewrite Hargs in Ha'. injection Ha' as <-. simpl in Hz'.
      by apply bool_decide_eq_true in Hz'. }
    assert (name h ≠ conv_node) as Hnc' by (by apply user_not_conv).
    assert (F h = h) as HFh.
    { apply map_node_args_fixed. intros r Hr.
      apply elem_of_all_input_nodes in Hr as [(a0 & Ha0 & Hr)|(k & a0 & Hk & _)].
      - rewrite Hargs in Ha0. unfold redirect. rewrite decide_False; [done|].
        apply elem_of_cons in Ha0 as [->|Ha0].
        + simpl in Hr. apply list_elem_of_singleton in Hr as ->. apply bn_not_accessor.
        + apply list_elem_of_singleton in Ha0 as ->. simpl in Hr.
          by apply elem_of_nil in Hr.
      - by rewrite Hkw, lookup_empty in Hk. }
    split.
    + apply Hmem'. left. exists h. split; [done|]. split; [by apply Hnc|done].
    + intros n. rewrite !elem_of_users_names. split.
      * intros (x' & Hx' & Hn & Hu).
        apply Hmem' in Hx' as [(x & Hx & Hne & ->)|[Hx'| ->]].
        -- exists x. split; [done|]. split; [done|].
           by rewrite redirected_using_other in Hu.
        -- rewrite Forall_forall in Hextra. destruct (Hextra x' Hx') as [Hno _].
           apply uses_true in Hu. by apply Hno in Hu.
        -- apply uses_true in Hu. destruct (Hin1 _ Hu) as [Hi|Hi].
           ++ by apply (conv_not_using_user h) in Hi.
           ++ exfalso. apply Hi. by apply list_elem_of_fmap_2.
      * intros (x & Hx & Hn & Hu). exists (F x).
        assert (x ≠ conv) as Hne.
        { intros ->. apply uses_true in Hu. by apply (conv_not_using_user h) in Hu. }
        split; [apply Hmem'; left; by exists x|]. split; [done|].
        by rewrite redirected_using_other.
Qed.

Lemma names_map_node_args (f : node_id → node_id) (l : list Node) :
  name <$> (map_node_args f <$> l) = name <$> l.
Proof. rewrite <- list_fmap_compose. by apply list_fmap_ext. Qed.

(** C4. [fold_bn_weights_into_conv_node], on a linted graph whose
    batch-norm node has the convolution as first argument, stores the fused
    weight under the weight attribute name and: with no bias node, creates
    a [get_attr] node for the name [<weight name>_bias], puts it directly
    before the convolution node, makes it the third positional argument of
    the convolution and stores the fused bias under that name; with a bias
    node, stores the fused bias under that node's attribute name, adds no
    node and leaves the convolution node as it was. *)
Theorem fold_bias_attribute (conv_weight_node conv_bias_node : Arg)
    (m' : GraphModule tensor) :
  fold_bn_weights_into_conv_node E conv_node conv_weight_node conv_bias_node
    bn_node m = Ok m' →
  ∃ weight_attr_name c bn_eps fused_weight fused_bias,
    target_of m conv_weight_node = Ok (T_str weight_attr_name)
    ∧ fold_constants E conv_node conv_weight_node conv_bias_node bn_node m = Ok c
    ∧ bn_eps_of c = Ok bn_eps
    ∧ fuse_conv_bn_weights E (fc_conv_w c) (fc_conv_b c) (fc_bn_rm c) (fc_bn_rv c)
        bn_eps (fc_bn_w c) (fc_bn_b c) (fc_transpose c)
      = Ok (fused_weight, fused_bias)
    ∧ match conv_bias_node with
      | A_none =>
          ∃ get_bias_node conv' pre post pre' post',
            graph m = pre ++ conv :: post
            ∧ graph m' = pre' ++ get_bias_node :: conv' :: post'
            ∧ name <$> pre' = name <$> pre ∧ name <$> post' = name <$> post
            ∧ get_bias_node
              = mkNode (fresh_name (graph m)) get_attr
                  (T_str (weight_attr_name +:+ "_bias")) [] ∅
            ∧ conv'
              = mkNode conv_node (op conv) (target conv)
                  (<[2 := A_node (name get_bias_node)]> (args conv)) (kwargs conv)
            ∧ args conv' !! 2 = Some (A_node (name get_bias_node))
            ∧ attrs m' = <[weight_attr_name +:+ "_bias" := fused_bias]>
                           (<[weight_attr_name := fused_weight]> (attrs m))
      | _ =>
          ∃ bias_attr_name,
            target_of m conv_bias_node = Ok (T_str bias_attr_name)
            ∧ attrs m' = <[bias_attr_name := fused_bias]>
                           (<[weight_attr_name := fused_weight]> (attrs m))
            ∧ name <$> graph m' = name <$> graph m
            ∧ find_node (graph m') conv_node = Some conv
      end.
Proof.
  intros Hfold.
  destruct (fold_graph_shape _ _ _ Hfold)
    as (wname & c & eps & fw & fb & pre & post & Hw & Hc & Heps & Hfuse & Hg & _ & Hb).
  destruct (get_node_Ok _ _ _ Hconv) as [Hcin Hcn].
  pose proof linted_NoDup as Hnd.
  exists wname, c, eps, fw, fb. do 4 (split; [done|]).
  destruct conv_bias_node as [ |b0|z|q|s|b|l|l].
  - destruct Hb as (Hlen & Hg' & Ha').
    eexists _, _, pre, post, _, _. split; [done|]. split; [exact Hg'|].
    split; [apply names_map_node_args|]. split; [apply names_map_node_args|].
    split; [done|]. split; [done|]. split; [|done].
    simpl. by apply list_lookup_insert_eq.
  - destruct Hb as (? & ? & ?); done.
  - destruct Hb as (? & ? & ?); done.
  - destruct Hb as (? & ? & ?); done.
  - destruct Hb as (? & ? & ?); done.
  - destruct Hb as (bname & Htb & Hg' & Ha'). exists bname.
    split; [done|]. split; [done|]. split.
    + rewrite Hg', Hg. simpl. rewrite !fmap_app, !fmap_cons.
      by rewrite !names_map_node_args.
    + rewrite Hg'. simpl. rewrite <- Hcn. apply find_node_middle.
      rewrite names_map_node_args. rewrite Hg in Hnd.
      by apply NoDup_names_middle in Hnd as [? _].
  - destruct Hb as (? & ? & ?); done.
  - destruct Hb as (? & ? & ?); done.
Qed.

End fold_on_linted_graph.

(** * The statements on the example graphs *)

(** A batch norm of another target: the fold raises and the module is as
    it was. *)
Lemma fold_eps_by_variant_witness :
  get_node (ex_module (T_overload "aten" "native_batch_norm" "default")) 7
    = Ok (ex_bn (T_overload "aten" "native_batch_norm" "default"))
  ∧ ∃ e, fold_bn_weights_into_conv_node_in_place ex_externals 6 (A_node 1) A_none 7
           (ex_module (T_overload "aten" "native_batch_norm" "default"))
         = (ex_module (T_overload "aten" "native_batch_norm" "default"), Raise e).
Proof.
  split; [reflexivity|].
  destruct (proj2 (fold_eps_by_variant ex_externals 6 (A_node 1) A_none 7
                     (ex_module (T_overload "aten" "native_batch_norm" "default"))
                     (ex_bn (T_overload "aten" "native_batch_norm" "default"))
                     eq_refl))
    as (e & He & _); [discriminate|discriminate|].
  by exists e.
Defined.

(** C2, as stated, fails: a layer norm has its normalized shape, a list,
    where the batch norms have the weight, so that reading the weight
    constant (line 54) raises [AttributeError] before the target is
    looked at, and not the [ValueError]. *)
Lemma fold_layer_norm_attribute_error :
  get_node ex_module_layer_norm 7 = Ok ex_layer_norm
  ∧ target ex_layer_norm ≠ aten_native_batch_norm_legit_no_training_default
  ∧ target ex_layer_norm ≠ aten_native_batch_norm_legit_default
  ∧ fold_bn_weights_into_conv_node ex_externals_layer_norm 6 (A_node 1) A_none 7
      ex_module_layer_norm = Raise AttributeError
  ∧ ∀ msg, fold_bn_weights_into_conv_node ex_externals_layer_norm 6 (A_node 1)
             A_none 7 ex_module_layer_norm ≠ Raise (ValueError msg).
Proof.
  assert (fold_bn_weights_into_conv_node ex_externals_layer_norm 6 (A_node 1) A_none 7
            ex_module_layer_norm = Raise AttributeError) as H by (by vm_compute).
  split; [reflexivity|]. split; [discriminate|]. split; [discriminate|].
  split; [exact H|]. intros msg. rewrite H. discriminate.
Qed.

(** The fold on the example: the index-0 accessor (node 8) is left
    without users. *)
Lemma fold_redirects_getitem_0_witness :
  ∃ m', fold_bn_weights_into_conv_node ex_externals 6 (A_node 1) A_none 7
          (ex_module aten_native_batch_norm_legit_no_training_default) = Ok m'
        ∧ users (graph m') 8 = [].
Proof.
  destruct (fold_bn_weights_into_conv_node ex_externals 6 (A_node 1) A_none 7
              (ex_module aten_native_batch_norm_legit_no_training_default))
    as [m'|e] eqn:Hfold; [|vm_compute in Hfold; discriminate].
  exists m'. split; [reflexivity|].
  apply (fold_redirects_getitem_0 ex_externals
           (ex_module aten_native_batch_norm_legit_no_training_default) 6 7
           ex_conv (ex_bn aten_native_batch_norm_legit_no_training_default)
           eq_refl eq_refl eq_refl eq_refl (A_node 1) A_none m' Hfold).
  vm_compute. by left.
Defined.

(** The fold on the example, whose convolution has no bias: the weight
    attribute is ["w"]. *)
Lemma fold_bias_attribute_witness :
  ∃ m' weight_attr_name,
    fold_bn_weights_into_conv_node ex_externals 6 (A_node 1) A_none 7
      (ex_module aten_native_batch_norm_legit_no_training_default) = Ok m'
    ∧ target_of (ex_module aten_native_batch_norm_legit_no_training_default) (A_node 1)
      = Ok (T_str weight_attr_name).
Proof.
  destruct (fold_bn_weights_into_conv_node ex_externals 6 (A_node 1) A_none 7
              (ex_module aten_native_batch_norm_legit_no_training_default))
    as [m'|e] eqn:Hfold; [|vm_compute in Hfold; discriminate].
  destruct (fold_bias_attribute ex_externals
              (ex_module aten_native_batch_norm_legit_no_training_default) 6 7
              ex_conv (ex_bn aten_native_batch_norm_legit_no_training_default)
              eq_refl eq_refl eq_refl eq_refl (A_node 1) A_none m' Hfold)
    as (weight_attr_name & c & bn_eps & fw & fb & Hw & _).
  exists m', weight_attr_name. split; [reflexivity|exact Hw].
Defined.


(** C6, as stated, fails: for the literals [3] and [(1, 2)] the created
    placeholders are the nodes 3 and 4, in this order in the arguments,
    and 4 before 3 in the graph. *)
Lemma replace_literals_not_in_traversal_order :
  ∃ gm', _replace_literals_with_placeholders ex_module_literals = Ok gm'
         ∧ created_placeholders (graph ex_module_literals) (graph gm') = [4; 3]
         ∧ promoted_references (graph ex_module_literals) (graph gm') = [3; 4]
         ∧ ¬ placeholders_in_traversal_order (graph ex_module_literals) (graph gm').
Proof.
  eexists. split; [vm_compute; reflexivity|].
  split; [by vm_compute|]. split; [by vm_compute|].
  unfold placeholders_in_traversal_order. vm_compute. discriminate.
Qed.

(** The amended statement on the same graph. *)
Lemma replace_literals_reverse_order_witness :
  ∃ gm', _replace_literals_with_placeholders ex_module_literals = Ok gm'
         ∧ name <$> graph gm' = [0; 4; 3; 1; 2].
Proof.
  eexists. split.
  - apply (replace_literals_reverse_order ex_module_literals
             [mkNode 0 placeholder (T_str "x") [] ∅]
             [mkNode 1 call_function (T_overload "aten" "add" "Tensor")
                [A_node 0; A_int 3; A_tuple [A_int 1; A_int 2]] {[ "alpha" := A_int 2 ]};
              mkNode 2 output (T_str "output") [A_tuple [A_node 1]] ∅]
             ex_in_spec).
    + reflexivity.
    + discriminate.
    + repeat constructor.
    + repeat constructor; discriminate.
    + by compute_done.
    + reflexivity.
    + discriminate.
  - reflexivity.
Defined.

(** The keyword argument [alpha=2] of the example stays. *)
Lemma replace_literals_keeps_kwargs_witness :
  ∃ gm', _replace_literals_with_placeholders ex_module_literals = Ok gm'
         ∧ ∀ n, n ∈ graph ex_module_literals →
             ∃ n', n' ∈ graph gm' ∧ name n' = name n ∧ kwargs n' = kwargs n.
Proof.
  destruct (_replace_literals_with_placeholders ex_module_literals)
    as [gm'|e] eqn:H; [|vm_compute in H; discriminate].
  exists gm'. split; [reflexivity|]. intros n Hn.
  destruct (proj1 (replace_literals_keeps_kwargs ex_module_literals gm' H) n Hn)
    as (n' & Hn' & Hname & _ & _ & Hkw).
  by exists n'.
Defined.

(** * Further properties *)

(** ** Operand resolution *)

Section operand_resolution_more.
Context {V : Type}.
Implicit Types (orig_args : list V) (orig_kwargs : gmap string V)
  (args_schema : list (Argument V)).

Lemma lookup_get_all_arguments orig_args orig_kwargs args_schema (i : nat) :
  _get_all_arguments orig_args orig_kwargs args_schema !! i
  = resolve_argument orig_args orig_kwargs i <$> args_schema !! i.
Proof.
  destruct (args_schema !! i) as [s|] eqn:Hs; simpl.
  - unfold _get_all_arguments.
    by rewrite (lookup_get_all_arguments_from 0 i _ _ _ s Hs).
  - apply lookup_ge_None. unfold _get_all_arguments.
    rewrite length_get_all_arguments_from. by apply lookup_ge_None.
Qed.

(** X1. A call without keyword arguments for the schema names, against a
    schema without keyword-only entries, resolves to the positional
    arguments cut at the schema length, followed by the defaults of the
    schema entries the positionals do not reach. *)
Theorem get_all_arguments_positional orig_args orig_kwargs args_schema :
  (∀ s, s ∈ args_schema → orig_kwargs !! arg_name s = None) →
  (∀ s, s ∈ args_schema → kwarg_only s = false) →
  _get_all_arguments orig_args orig_kwargs args_schema
  = take (length args_schema) orig_args
    ++ (default_value <$> drop (length orig_args) args_schema).
Proof.
  intros Hkw Hko. apply list_eq. intros i.
  rewrite lookup_get_all_arguments.
  destruct (args_schema !! i) as [s|] eqn:Hs; simpl.
  - assert (s ∈ args_schema) as Hin by (by eapply list_elem_of_lookup_2).
    pose proof (lookup_lt_Some _ _ _ Hs) as Hlt.
    unfold resolve_argument. rewrite (Hkw s Hin), (Hko s Hin). simpl.
    destruct (decide (i < length orig_args)) as [Hi|Hi].
    + rewrite bool_decide_eq_true_2 by done.
      rewrite lookup_app_l by (rewrite length_take; lia).
      rewrite lookup_take_lt by done.
      by destruct (lookup_lt_is_Some_2 orig_args i Hi) as [v ->].
    + rewrite bool_decide_eq_false_2 by done.
      rewrite lookup_app_r by (rewrite length_take; lia).
      rewrite length_take, Nat.min_r by lia.
      rewrite list_lookup_fmap, lookup_drop.
      replace (length orig_args + (i - length orig_args)) with i by lia.
      by rewrite Hs.
  - symmetry. apply lookup_ge_None. apply lookup_ge_None in Hs.
    rewrite length_app, length_take, length_fmap, length_drop. lia.
Qed.

(** X2. The result depends only on the first positional arguments, as
    many as the schema has entries, and on the keyword arguments named in
    the schema: further positionals and keywords of other names are
    ignored, without an error. *)
Theorem get_all_arguments_ignores_extra orig_args orig_args'
    orig_kwargs orig_kwargs' args_schema :
  take (length args_schema) orig_args = take (length args_schema) orig_args' →
  (∀ s, s ∈ args_schema → orig_kwargs !! arg_name s = orig_kwargs' !! arg_name s) →
  _get_all_arguments orig_args orig_kwargs args_schema
  = _get_all_arguments orig_args' orig_kwargs' args_schema.
Proof.
  intros Htake Hkw. apply list_eq. intros i. rewrite !lookup_get_all_arguments.
  destruct (args_schema !! i) as [s|] eqn:Hs; simpl; [|done]. f_equal.
  assert (s ∈ args_schema) as Hin by (by eapply list_elem_of_lookup_2).
  pose proof (lookup_lt_Some _ _ _ Hs) as Hlt.
  assert (orig_args !! i = orig_args' !! i) as Hi.
  { rewrite <- (lookup_take_lt orig_args (length args_schema) i) by done.
    rewrite <- (lookup_take_lt orig_args' (length args_schema) i) by done.
    by rewrite Htake. }
  unfold resolve_argument. rewrite (Hkw s Hin), <- Hi.
  destruct (orig_kwargs' !! arg_name s); [done|].
  destruct (orig_args !! i) as [v|] eqn:Hv.
  - rewrite !bool_decide_eq_true_2; [done| |].
    + apply lookup_lt_is_Some. rewrite <- Hi. by eexists.
    + by eapply lookup_lt_Some.
  - rewrite !bool_decide_eq_false_2; [done| |].
    + apply Nat.nlt_ge, lookup_ge_None. by rewrite <- Hi.
    + by apply Nat.nlt_ge, lookup_ge_None.
Qed.

End operand_resolution_more.

(** ** The fold: parameter store, node count and failures *)

Section fold_more.
Context {tensor : Type} (E : Externals tensor).
Implicit Types (m : GraphModule tensor).

Lemma length_insert_before (anchor : node_id) (new : Node) (g : list Node) :
  in_graph g anchor = true → length (insert_before anchor new g) = S (length g).
Proof.
  unfold in_graph. rewrite bool_decide_eq_true.
  induction g as [|x g IH]; simpl; [by intros ?%elem_of_nil|].
  intros Hin. case_decide; [done|]. simpl. rewrite IH; [done|].
  apply elem_of_cons in Hin as [?|?]; [congruence|done].
Qed.

Lemma length_set_args (n : node_id) (new_args : list Arg) (g : list Node) :
  length (set_args n new_args g) = length g.
Proof. unfold set_args. by rewrite length_fmap. Qed.

Lemma update_conv_parameters_conv (conv_node : node_id)
    (conv_weight_node conv_bias_node : Arg) (fused_weight fused_bias : tensor) m m1 :
  update_conv_parameters conv_node conv_weight_node conv_bias_node
    fused_weight fused_bias m = Ok m1 →
  ∃ conv, get_node m conv_node = Ok conv.
Proof.
  unfold update_conv_parameters. intros H.
  apply bind_Ok in H as (conv & Hc & _). by exists conv.
Qed.

(** X3. A fold that returns has written at most two entries of the
    parameter store: the weight attribute and the bias attribute (the
    target of the bias node, or [<weight name>_bias] without one), which
    both hold a value afterwards; every other attribute is as before, the
    input spec is untouched, and the graph has one node more exactly when
    there was no bias node. *)
Theorem fold_parameter_frame (conv_node : node_id)
    (conv_weight_node conv_bias_node : Arg) (bn_node : node_id) m m' :
  fold_bn_weights_into_conv_node E conv_node conv_weight_node conv_bias_node
    bn_node m = Ok m' →
  ∃ weight_attr_name bias_attr_name,
    target_of m conv_weight_node = Ok (T_str weight_attr_name)
    ∧ (if conv_bias_node is A_none
       then bias_attr_name = weight_attr_name +:+ "_bias"
       else target_of m conv_bias_node = Ok (T_str bias_attr_name))
    ∧ (∀ k, k ≠ weight_attr_name → k ≠ bias_attr_name →
            attrs m' !! k = attrs m !! k)
    ∧ is_Some (attrs m' !! weight_attr_name)
    ∧ is_Some (attrs m' !! bias_attr_name)
    ∧ _in_spec m' = _in_spec m
    ∧ length (graph m')
      = (if conv_bias_node is A_none then S (length (graph m)) else length (graph m)).
Proof.
  intros Hfold.
  apply fold_decompose in Hfold
    as (c & eps & fw & fb & m1 & Hc & Heps & Hfuse & Hupd & Hg' & Ha' & Hs').
  destruct (update_conv_parameters_conv _ _ _ _ _ _ _ Hupd) as [conv Hconv].
  destruct (update_conv_parameters_spec _ _ _ _ _ _ _ _ Hupd Hconv) as (wname & Hw & Hm1).
  assert (∀ bname, attrs m1 = <[bname := fb]> (<[wname := fw]> (attrs m)) →
            (∀ k, k ≠ wname → k ≠ bname → attrs m' !! k = attrs m !! k)
            ∧ is_Some (attrs m' !! wname) ∧ is_Some (attrs m' !! bname)) as Hstore.
  { intros bname Hattrs. rewrite Ha', Hattrs. split; [|split].
    - intros k Hk1 Hk2. by rewrite !lookup_insert_ne by done.
    - destruct (decide (bname = wname)) as [->|Hne].
      + rewrite lookup_insert_eq. by eexists.
      + rewrite lookup_insert_ne, lookup_insert_eq by done. by eexists.
    - rewrite lookup_insert_eq. by eexists. }
  exists wname.
  destruct conv_bias_node as [ |b0|z|q|s|b|l|l];
    try (destruct Hm1 as (? & ? & ?); done).
  - destruct Hm1 as (Hin & Hlen & ->). exists (wname +:+ "_bias").
    split; [done|]. split; [done|].
    destruct (Hstore (wname +:+ "_bias") eq_refl) as (H1 & H2 & H3).
    split; [done|]. split; [done|]. split; [done|]. split; [done|].
    rewrite Hg'. simpl. rewrite length_fmap, length_set_args.
    by apply length_insert_before.
  - destruct Hm1 as (bname & Hb & ->). exists bname.
    split; [done|]. split; [done|].
    destruct (Hstore bname eq_refl) as (H1 & H2 & H3).
    split; [done|]. split; [done|]. split; [done|]. split; [done|].
    rewrite Hg'. simpl. by rewrite length_fmap, length_set_args.
Qed.

(** X4. The fold fails before it changes anything when the graph does
    not have the expected shape: a weight argument that is a node other
    than [get_attr] fails the assertion, and, with weight and bias
    constants read, a convolution call with fewer than seven positional
    arguments gives an [IndexError]; in both cases the module at the raise
    is the module given. *)
Theorem fold_structural_failures (conv_node : node_id)
    (conv_weight_node conv_bias_node : Arg) (bn_node : node_id) m :
  (∀ w weight,
     conv_weight_node = A_node w → get_node m w = Ok weight →
     op weight ≠ get_attr →
     fold_bn_weights_into_conv_node_in_place E conv_node conv_weight_node
       conv_bias_node bn_node m = (m, Raise AssertionError)
     ∧ fold_bn_weights_into_conv_node E conv_node conv_weight_node conv_bias_node
         bn_node m = Raise AssertionError)
  ∧ (∀ conv_w conv_b conv,
       _get_tensor_constant_from_node conv_weight_node m = Ok conv_w →
       _get_tensor_constant_from_node conv_bias_node m = Ok conv_b →
       get_node m conv_node = Ok conv →
       length (args conv) < 7 →
       fold_bn_weights_into_conv_node_in_place E conv_node conv_weight_node
         conv_bias_node bn_node m = (m, Raise IndexError)
       ∧ fold_bn_weights_into_conv_node E conv_node conv_weight_node conv_bias_node
           bn_node m = Raise IndexError).
Proof.
  split.
  - intros w weight -> Hw Hop.
    assert (_get_tensor_constant_from_node (A_node w) m = Raise AssertionError) as Hcw.
    { unfold _get_tensor_constant_from_node. rewrite Hw. simpl.
      by rewrite bool_decide_eq_false_2. }
    assert (fold_constants E conv_node (A_node w) conv_bias_node bn_node m
            = Raise AssertionError) as Hc.
    { unfold fold_constants. by rewrite Hcw. }
    split; [apply fold_in_place_reading; by left|].
    unfold fold_bn_weights_into_conv_node. by rewrite Hc.
  - intros conv_w conv_b conv Hcw Hcb Hconv Hlen.
    assert (fold_constants E conv_node conv_weight_node conv_bias_node bn_node m
            = Raise IndexError) as Hc.
    { unfold fold_constants.
      rewrite Hcw. simpl. rewrite Hcb. simpl. rewrite Hconv. simpl.
      unfold py_index. by rewrite (lookup_ge_None_2 (args conv) 6) by lia. }
    split; [apply fold_in_place_reading; by left|].
    unfold fold_bn_weights_into_conv_node. by rewrite Hc.
Qed.

End fold_more.

(** ** Linting after the fold *)

Lemma forallb_pointwise {A : Type} (f h : A → bool) (l : list A) :
  (∀ a, f a = h a) → forallb f l = forallb h l.
Proof. intros Hfh. induction l as [|a l IH]; simpl; [done|]. by rewrite Hfh, IH. Qed.

Lemma lint_from_ext (g : list Node) :
  ∀ seen seen' : list node_id,
    (∀ r, r ∈ seen ↔ r ∈ seen') → lint_from seen g = lint_from seen' g.
Proof.
  induction g as [|x g IH]; intros seen seen' Hs; simpl; [done|].
  f_equal; [f_equal|].
  - apply forallb_pointwise. intros r. apply bool_decide_ext, Hs.
  - apply bool_decide_ext. by rewrite Hs.
  - apply IH. intros r. rewrite !elem_of_cons. by rewrite Hs.
Qed.

Lemma lint_from_app (l1 l2 : list Node) :
  ∀ seen : list node_id,
    lint_from seen (l1 ++ l2)
    = lint_from seen l1 && lint_from ((name <$> l1) ++ seen) l2.
Proof.
  induction l1 as [|x l1 IH]; intros seen; simpl; [done|].
  rewrite IH, <- !andb_assoc. do 3 f_equal.
  apply lint_from_ext. intros r. rewrite !elem_of_app, !elem_of_cons, elem_of_app.
  tauto.
Qed.

Lemma lint_from_names (seen : list node_id) (g : list Node) (x : Node) :
  lint_from seen g = true → x ∈ g → name x ∉ seen.
Proof.
  intros Hl Hx. apply lint_from_spec in Hl as (_ & H & _).
  by apply H, list_elem_of_fmap_2.
Qed.

Lemma lint_from_redirect (accessors : list node_id) (conv_node : node_id)
    (post : list Node) :
  ∀ seen seen' : list node_id,
    lint_from seen post = true →
    seen ⊆ seen' →
    conv_node ∈ seen' →
    (∀ x, x ∈ post → name x ∉ seen') →
    lint_from seen' (map_node_args (redirect accessors conv_node) <$> post) = true.
Proof.
  induction post as [|x post IH]; intros seen seen' Hl Hsub Hc Hfresh; [done|].
  pose proof Hl as Hl0. simpl in Hl.
  apply andb_true_iff in Hl as [Hl Hrest].
  apply andb_true_iff in Hl as [Hin Hx].
  rewrite fmap_cons. simpl. apply andb_true_iff. split; [apply andb_true_iff; split|].
  - apply forallb_forall. intros r Hr. apply bool_decide_eq_true.
    apply list_elem_of_In, elem_of_inputs_map_node_args in Hr as (r0 & Hr0 & ->).
    unfold redirect. destruct (decide (r0 ∈ accessors)); [done|]. apply Hsub.
    rewrite forallb_forall in Hin. apply list_elem_of_In in Hr0.
    by apply Hin, bool_decide_eq_true in Hr0.
  - apply bool_decide_eq_true. apply Hfresh. by left.
  - apply (IH (name x :: seen)); [done|set_solver|by right|].
    intros y Hy. rewrite not_elem_of_cons. split.
    + intros Heq. apply (lint_from_names _ _ y Hrest Hy). rewrite Heq. by left.
    + apply Hfresh. by right.
Qed.

Section fold_keeps_lint.
Context {tensor : Type} (E : Externals tensor).
Variables (m : GraphModule tensor) (conv_node bn_node : node_id) (conv bn : Node).
Hypothesis Hlint : lint (graph m) = true.
Hypothesis Hconv : get_node m conv_node = Ok conv.
Hypothesis Hbn : get_node m bn_node = Ok bn.
Hypothesis Hfeed : args bn !! 0 = Some (A_node conv_node).

Lemma before_conv_not_redirected (pre post : list Node) (x : Node) :
  graph m = pre ++ conv :: post → x ∈ pre →
  map_node_args (redirect (getitem_0_users (graph m) bn_node) conv_node) x = x.
Proof.
  intros Hg Hx. pose proof (lint_NoDup _ Hlint) as Hnd.
  destruct (get_node_Ok _ _ _ Hconv) as [Hcin Hcn].
  assert (x ∈ graph m) as Hxg by (rewrite Hg; apply elem_of_app; by left).
  assert (before (graph m) x conv) as Hxc.
  { apply list_elem_of_lookup in Hx as [i Hi]. exists i, (length pre).
    split; [by eapply lookup_lt_Some|]. rewrite Hg. split.
    - by apply lookup_app_l_Some.
    - by rewrite lookup_app_r, Nat.sub_diag by lia. }
  apply map_node_args_fixed. intros r Hr. unfold redirect.
  rewrite decide_False; [done|]. intros Hacc.
  apply (accessor_spec m bn_node Hlint) in Hacc as (y & Hy & <- & Hyu & _).
  apply (before_irrefl (graph m) conv Hnd).
  eapply before_trans; [done| |exact Hxc].
  eapply before_trans; [done| |].
  - by apply (conv_before_user m conv_node bn_node conv bn).
  - apply lint_uses_before; [done..|]. by apply uses_true.
Qed.

Lemma fold_keeps_lint (conv_weight_node conv_bias_node : Arg) (m' : GraphModule tensor) :
  fold_bn_weights_into_conv_node E conv_node conv_weight_node conv_bias_node
    bn_node m = Ok m' →
  lint (graph m') = true.
Proof.
  intros Hfold.
  destruct (fold_graph_shape E m conv_node bn_node conv bn Hlint Hconv Hbn Hfeed
              _ _ _ Hfold)
    as (wname & c & eps & fw & fb & pre & post & _ & _ & _ & _ & Hg & _ & Hb).
  destruct (get_node_Ok _ _ _ Hconv) as [Hcin Hcn].
  pose proof Hlint as Hl. unfold lint in Hl. rewrite Hg, lint_from_app in Hl.
  apply andb_true_iff in Hl as [Hpre Hrest]. rewrite app_nil_r in Hrest.
  pose proof Hrest as Hrest0. simpl in Hrest.
  apply andb_true_iff in Hrest as [Hc Hpost].
  apply andb_true_iff in Hc as [Hcin' Hcfresh].
  rewrite Hcn in Hpost, Hcfresh. apply bool_decide_eq_true in Hcfresh.
  assert (map_node_args (redirect (getitem_0_users (graph m) bn_node) conv_node)
          <$> pre = pre) as HFpre.
  { rewrite <- (list_fmap_id pre) at 2. apply list_fmap_ext. intros i x Hx.
    apply (before_conv_not_redirected pre post); [done|].
    by eapply list_elem_of_lookup_2. }
  assert (∀ x, x ∈ post → name x ∈ name <$> graph m) as Hpostg.
  { intros x Hx. apply list_elem_of_fmap_2. rewrite Hg.
    apply elem_of_app. right. by right. }
  unfold lint.
  destruct conv_bias_node as [ |b0|z|q|s|b|l|l];
    try (destruct Hb as (? & ? & ?); done).
  2:{ destruct Hb as (bname & _ & Hg' & _). rewrite Hg', HFpre, lint_from_app.
      rewrite Hpre, app_nil_r. simpl. rewrite Hcin', Hcn.
      rewrite (bool_decide_eq_true_2 _ Hcfresh). simpl.
      apply (lint_from_redirect _ _ _ _ _ Hpost); [done|by left|].
      intros x Hx. by apply (lint_from_names _ _ x Hpost). }
  destruct Hb as (Hlen & Hg' & _). rewrite Hg', HFpre, lint_from_app.
  rewrite Hpre, app_nil_r. simpl.
  assert (fresh_name (graph m) ∉ name <$> pre) as Hfp.
  { intros Hin. apply (fresh_name_not_in (graph m)).
    apply list_elem_of_fmap in Hin as (y & Hy & Hyin).
    apply list_elem_of_fmap. exists y. split; [done|].
    rewrite Hg. apply elem_of_app. by left. }
  apply andb_true_iff. split; [apply andb_true_iff; split|].
  - apply forallb_forall. intros r Hr%list_elem_of_In. by apply no_inputs_created in Hr.
  - by apply bool_decide_eq_true.
  - apply andb_true_iff. split; [apply andb_true_iff; split|].
    + apply forallb_forall. intros r Hr%list_elem_of_In. apply bool_decide_eq_true.
      rewrite <- Hcn in Hr. apply inputs_with_arg_set in Hr as [Hr|Hr].
      * simpl in Hr. apply list_elem_of_singleton in Hr as ->. by left.
      * right. rewrite forallb_forall in Hcin'. apply list_elem_of_In in Hr.
        by apply Hcin', bool_decide_eq_true in Hr.
    + apply bool_decide_eq_true. rewrite not_elem_of_cons. split; [|done].
      intros Heq. apply (fresh_name_not_in (graph m)). rewrite <- Heq, <- Hcn.
      by apply list_elem_of_fmap_2.
    + apply (lint_from_redirect _ _ _ _ _ Hpost); [set_solver|by left|].
      intros x Hx. rewrite !not_elem_of_cons.
      pose proof (lint_from_names _ _ x Hpost Hx) as Hnx.
      rewrite not_elem_of_cons in Hnx. destruct Hnx as [Hn1 Hn2].
      split; [done|]. split; [|done].
      intros Heq. apply (fresh_name_not_in (graph m)). rewrite <- Heq.
      by apply Hpostg.
Qed.

End fold_keeps_lint.

(** ** The fusion pass on linted graphs *)

Section fusion_pass_more.
Context {tensor : Type} (E : Externals tensor).
Implicit Types (m : GraphModule tensor).

Lemma fusion_candidate_inv m (bn : Node) (c : node_id) (w b : Arg) :
  fusion_candidate m bn = Ok (Some (c, w, b)) →
  args bn !! 0 = Some (A_node c)
  ∧ ∃ conv, get_node m c = Ok conv ∧ op conv = call_function
      ∧ target conv = aten_convolution_default
      ∧ args conv !! 1 = Some w ∧ args conv !! 2 = Some b.
Proof.
  unfold fusion_candidate. intros H.
  destruct (decide (op bn ≠ call_function)); [done|].
  destruct (decide (target bn ≠ aten_native_batch_norm_legit_no_training_default));
    [done|].
  unfold py_index in H. destruct (args bn !! 0) as [a|] eqn:Ha; [|done]. simpl in H.
  destruct a as [ | | | | |c'| | ]; try done.
  destruct (get_node m c') as [conv|] eqn:Hc; [|done]. simpl in H.
  destruct (decide (op conv ≠ call_function)) as [|Hop]; [done|].
  destruct (decide (target conv ≠ aten_convolution_default)) as [|Ht]; [done|].
  apply dec_stable in Hop. apply dec_stable in Ht.
  destruct (args conv !! 1) as [w'|] eqn:Hw; [|done]. simpl in H.
  destruct (args conv !! 2) as [b'|] eqn:Hb; [|done]. simpl in H.
  injection H as <- <- <-. split; [done|]. by exists conv.
Qed.

Lemma fuse_visit_lint (n : node_id) (s s' : GraphModule tensor * list Node) :
  lint (graph s.1) = true → fuse_visit E n s = Ok s' → lint (graph s'.1) = true.
Proof.
  destruct s as [m folded]. simpl. intros Hl Hv. unfold fuse_visit in Hv.
  apply bind_Ok in Hv as (bn & Hbn & Hv).
  apply bind_Ok in Hv as (c & Hc & Hv).
  destruct c as [[[conv_node w] b]|]; [|by injection Hv as <-].
  apply bind_Ok in Hv as (m' & Hfold & Hv). injection Hv as <-. simpl.
  destruct (fusion_candidate_inv _ _ _ _ _ Hc) as (Hfeed & conv & Hconv & _).
  by apply (fold_keeps_lint E m conv_node n conv bn Hl Hconv Hbn Hfeed w b m').
Qed.

(** X5. On a linted graph (every reference to an earlier node, names
    unique) the fusion loop keeps the graph linted, so the dead-code
    elimination that closes [_fuse_conv_bn_] does not fail: the pass
    returns whenever its loop does, with the loop's module swept of dead
    nodes, linted again; and a failure of the loop is the failure of the
    pass. *)
Theorem fuse_conv_bn_keeps_lint m :
  lint (graph m) = true →
  (∀ s, fuse_scan E m = Ok s →
     lint (graph s.1) = true
     ∧ _fuse_conv_bn_ E m = Ok (with_graph s.1 (sweep E (graph s.1)))
     ∧ lint (sweep E (graph s.1)) = true)
  ∧ (∀ e, fuse_scan E m = Raise e → _fuse_conv_bn_ E m = Raise e).
Proof.
  intros Hl. split.
  - intros s Hs.
    assert (lint (graph s.1) = true) as Hl'.
    { apply (for_each_node_invariant _ _ (λ s, lint (graph s.1) = true)) in Hs;
        [done| |done].
      intros n s0 s1. apply fuse_visit_lint. }
    split; [done|]. split; [|by apply lint_sweep].
    unfold _fuse_conv_bn_. rewrite Hs. simpl.
    by rewrite eliminate_dead_code_sweep.
  - intros e He. unfold _fuse_conv_bn_. by rewrite He.
Qed.

Lemma for_each_node_prefix {St : Type} (graph_of : St → list Node)
    (body : node_id → St → result St) (s : St) (pre : list Node) :
  ∀ (seen rest : list Node) (fuel : nat),
    graph_of s = seen ++ pre ++ rest →
    NoDup (name <$> graph_of s) →
    (∀ x, x ∈ pre → body (name x) s = Ok s) →
    for_each_node graph_of body (length pre + fuel) (name <$> head (pre ++ rest)) s
    = for_each_node graph_of body fuel (name <$> head rest) s.
Proof.
  induction pre as [|x pre IH]; intros seen rest fuel Hg Hnd Hbody; [done|].
  change (name <$> head ((x :: pre) ++ rest)) with (Some (name x)).
  change (length (x :: pre) + fuel) with (S (length pre + fuel)).
  rewrite for_each_node_S, Hbody by (by left).
  change (Ok ?a ≫= ?k) with (k a). cbv beta.
  change ((x :: pre) ++ rest) with (x :: pre ++ rest) in Hg.
  replace (next_node (graph_of s) (name x)) with (name <$> head (pre ++ rest)).
  - apply (IH (seen ++ [x])).
    + by rewrite <- app_assoc.
    + done.
    + intros y Hy. apply Hbody. by right.
  - rewrite Hg. symmetry. apply next_node_middle.
    rewrite Hg in Hnd. by apply NoDup_names_middle in Hnd as [? _].
Qed.

Lemma fuse_scan_first_failure m (pre rest : list Node) (bn : Node) (e : exn) :
  graph m = pre ++ bn :: rest →
  NoDup (name <$> graph m) →
  (∀ x, x ∈ pre → fusion_candidate m x = Ok None) →
  fuse_visit E (name bn) (m, []) = Raise e →
  _fuse_conv_bn_ E m = Raise e.
Proof.
  intros Hg Hnd Hpre Hbn. unfold _fuse_conv_bn_, fuse_scan.
  assert (2 * length (graph m) = length pre + S (length pre + 2 * length rest + 1))
    as -> by (rewrite Hg, length_app; simpl; lia).
  rewrite Hg at 1.
  rewrite (for_each_node_prefix _ _ _ pre [] (bn :: rest)); [|done|done|].
  - change (name <$> head (bn :: rest)) with (Some (name bn)).
    by rewrite for_each_node_S, Hbn.
  - intros x Hx. apply (fuse_visit_skip E _ _ _ x); [|by apply Hpre].
    apply get_node_elem_of; [done|]. rewrite Hg. apply elem_of_app. by left.
Qed.

(** X6. The first node the loop selects decides a failing pass: when no
    node before a no-training batch-norm call is selected, the pass raises
    [IndexError] if that call has no argument, [AttributeError] if its
    first argument is not a node, and otherwise, the first argument being
    a convolution call, whatever the fold raises on the pair. *)
Theorem fuse_conv_bn_first_failure m (pre rest : list Node) (bn : Node) :
  graph m = pre ++ bn :: rest →
  NoDup (name <$> graph m) →
  (∀ x, x ∈ pre → fusion_candidate m x = Ok None) →
  op bn = call_function →
  target bn = aten_native_batch_norm_legit_no_training_default →
  (args bn = [] → _fuse_conv_bn_ E m = Raise IndexError)
  ∧ (∀ a, args bn !! 0 = Some a → (∀ c, a ≠ A_node c) →
       _fuse_conv_bn_ E m = Raise AttributeError)
  ∧ (∀ c w b e,
       fusion_candidate m bn = Ok (Some (c, w, b)) →
       fold_bn_weights_into_conv_node E c w b (name bn) m = Raise e →
       _fuse_conv_bn_ E m = Raise e).
Proof.
  intros Hg Hnd Hpre Hop Ht.
  assert (get_node m (name bn) = Ok bn) as Hbn.
  { apply get_node_elem_of; [done|]. rewrite Hg. apply elem_of_app. right. by left. }
  split; [|split].
  - intros Hargs. apply (fuse_scan_first_failure m pre rest bn); [done..|].
    unfold fuse_visit. rewrite Hbn. simpl. unfold fusion_candidate.
    rewrite decide_False by (by intros []). rewrite decide_False by (by intros []).
    by rewrite Hargs.
  - intros a Ha Hna. apply (fuse_scan_first_failure m pre rest bn); [done..|].
    unfold fuse_visit. rewrite Hbn. simpl. unfold fusion_candidate, py_index.
    rewrite decide_False by (by intros []). rewrite decide_False by (by intros []).
    rewrite Ha. simpl. destruct a; try done. by destruct (Hna n).
  - intros c w b e Hc Hfold. apply (fuse_scan_first_failure m pre rest bn); [done..|].
    unfold fuse_visit. rewrite Hbn. simpl. rewrite Hc. simpl. by rewrite Hfold.
Qed.

(** X7. When the loop selects no node of a graph with unique names, the
    pass is the dead-code elimination of the graph and nothing else:
    parameters and input spec are those of the module. *)
Theorem fuse_conv_bn_nothing_selected m :
  NoDup (name <$> graph m) →
  (∀ x, x ∈ graph m → fusion_candidate m x = Ok None) →
  _fuse_conv_bn_ E m
  = g ← eliminate_dead_code E (graph m);
    Ok (mkGraphModule g (attrs m) (_in_spec m)).
Proof.
  intros Hnd Hnone. unfold _fuse_conv_bn_. by rewrite fuse_scan_skip.
Qed.

End fusion_pass_more.

(** ** What the fusion pass keeps *)

Lemma same_node_kind_refl (x : Node) : same_node_kind x x.
Proof. done. Qed.

Lemma same_node_kind_trans (x y z : Node) :
  same_node_kind x y → same_node_kind y z → same_node_kind x z.
Proof. unfold same_node_kind. intros (-> & -> & ->) (-> & -> & ->). done. Qed.

Lemma fusion_frame_refl (g : list Node) : fusion_frame g g.
Proof.
  split.
  - intros x Hx. by exists x.
  - intros x Hx. left. by exists x.
Qed.

Lemma fusion_frame_trans (g0 g1 g2 : list Node) :
  fusion_frame g0 g1 → fusion_frame g1 g2 → fusion_frame g0 g2.
Proof.
  intros [H01 H10] [H12 H21]. split.
  - intros x Hx. destruct (H01 x Hx) as (y & Hy & Hxy).
    destruct (H12 y Hy) as (z & Hz & Hyz). exists z. split; [done|].
    by eapply same_node_kind_trans.
  - intros z Hz. destruct (H21 z Hz) as [(y & Hy & Hyz)|[Hop Hnew]].
    + destruct (H10 y Hy) as [(x & Hx & Hxy)|[Hop Hnew]].
      * left. exists x. split; [done|]. by eapply same_node_kind_trans.
      * right. destruct Hyz as (-> & -> & _). done.
    + right. split; [done|]. intros Hin. apply Hnew.
      apply list_elem_of_fmap in Hin as (x & -> & Hx).
      destruct (H01 x Hx) as (y & Hy & (<- & _)). by apply list_elem_of_fmap_2.
Qed.

Lemma fusion_frame_fmap (f : Node → Node) (g : list Node) :
  (∀ x, same_node_kind x (f x)) → fusion_frame g (f <$> g).
Proof.
  intros Hf. split.
  - intros x Hx. exists (f x). split; [by apply list_elem_of_fmap_2|done].
  - intros x' Hx'. apply list_elem_of_fmap in Hx' as (x & -> & Hx).
    left. by exists x.
Qed.

Lemma fusion_frame_set_args (n : node_id) (new_args : list Arg) (g : list Node) :
  fusion_frame g (set_args n new_args g).
Proof. apply fusion_frame_fmap. intros x. by case_decide. Qed.

Lemma fusion_frame_insert_before (anchor : node_id) (new : Node) (g : list Node) :
  op new = get_attr → name new = fresh_name g →
  fusion_frame g (insert_before anchor new g).
Proof.
  intros Hop Hname. split.
  - intros x Hx. exists x. split; [|done].
    clear Hname. induction g as [|y g IH]; simpl; [done|].
    case_decide; rewrite !elem_of_cons; apply elem_of_cons in Hx; naive_solver.
  - intros x' Hx'.
    assert (x' = new ∨ x' ∈ g) as [->|Hin].
    { clear Hname. induction g as [|y g IH]; simpl in Hx'; [by right|].
      case_decide; rewrite !elem_of_cons in Hx'; rewrite elem_of_cons; naive_solver. }
    + right. split; [done|]. rewrite Hname. apply fresh_name_not_in.
    + left. by exists x'.
Qed.

Lemma elem_of_sweep {tensor} (E : Externals tensor) (g : list Node) (x : Node) :
  x ∈ sweep E g → x ∈ g.
Proof.
  unfold sweep. induction g as [|y g IH]; simpl; [done|].
  destruct (dead_node E y _); rewrite ?elem_of_cons; naive_solver.
Qed.

Lemma sweep_keeps_impure {tensor} (E : Externals tensor) (g : list Node) (x : Node) :
  x ∈ g → is_impure E x = true → x ∈ sweep E g.
Proof.
  unfold sweep. intros Hx Himp. induction g as [|y g IH]; simpl; [done|].
  apply elem_of_cons in Hx as [<-|Hx].
  - unfold dead_node. rewrite Himp. simpl. by left.
  - destruct (dead_node E y _); [by apply IH|]. right. by apply IH.
Qed.

Section fusion_pass_frame.
Context {tensor : Type} (E : Externals tensor).
Implicit Types (m : GraphModule tensor).

Lemma fold_frame (conv_node : node_id) (conv_weight_node conv_bias_node : Arg)
    (bn_node : node_id) m m' :
  fold_bn_weights_into_conv_node E conv_node conv_weight_node conv_bias_node
    bn_node m = Ok m' →
  fusion_frame (graph m) (graph m')
  ∧ _in_spec m' = _in_spec m
  ∧ (∀ k, is_Some (attrs m !! k) → is_Some (attrs m' !! k)).
Proof.
  intros Hfold.
  apply fold_decompose in Hfold
    as (c & eps & fw & fb & m1 & Hc & Heps & Hfuse & Hupd & Hg' & Ha' & Hs').
  destruct (update_conv_parameters_conv _ _ _ _ _ _ _ Hupd) as [conv Hconv].
  destruct (update_conv_parameters_spec _ _ _ _ _ _ _ _ Hupd Hconv) as (wname & Hw & Hm1).
  assert (∀ bname k, is_Some (attrs m !! k) →
            is_Some ((<[bname := fb]> (<[wname := fw]> (attrs m))) !! k)) as Hstore.
  { intros bname k Hk.
    destruct (decide (k = bname)) as [->|?]; [rewrite lookup_insert_eq; by eexists|].
    rewrite lookup_insert_ne by done.
    destruct (decide (k = wname)) as [->|?]; [rewrite lookup_insert_eq; by eexists|].
    by rewrite lookup_insert_ne by done. }
  rewrite Hg', Ha', Hs'.
  assert (fusion_frame (graph m) (graph m1) ∧ _in_spec m1 = _in_spec m
          ∧ ∀ k, is_Some (attrs m !! k) → is_Some (attrs m1 !! k)) as (HF & HS & HA).
  { destruct conv_bias_node as [ |b0|z|q|s|b|l|l];
      try (destruct Hm1 as (? & ? & ?); done).
    - destruct Hm1 as (Hin & Hlen & ->). simpl. split; [|split; [done|]].
      + eapply fusion_frame_trans; [|apply fusion_frame_set_args].
        by apply fusion_frame_insert_before.
      + apply Hstore.
    - destruct Hm1 as (bname & Hb & ->). simpl. split; [|split; [done|]].
      + apply fusion_frame_set_args.
      + apply Hstore. }
  split; [|done].
  eapply fusion_frame_trans; [exact HF|]. by apply fusion_frame_fmap.
Qed.

(** X8. What [_fuse_conv_bn_] keeps when it returns: every placeholder,
    every output and every other node with a side effect is still in the
    graph, with its name, op and target; every node of the result is a node
    of the input up to its arguments, or a [get_attr] node of a new name;
    no parameter is deleted, and the input spec is the one given. *)
Theorem fuse_conv_bn_frame m m' :
  _fuse_conv_bn_ E m = Ok m' →
  (∀ x, x ∈ graph m → is_impure E x = true →
        ∃ x', x' ∈ graph m' ∧ same_node_kind x x')
  ∧ (∀ x', x' ∈ graph m' →
       (∃ x, x ∈ graph m ∧ same_node_kind x x')
       ∨ (op x' = get_attr ∧ name x' ∉ name <$> graph m))
  ∧ (∀ k, is_Some (attrs m !! k) → is_Some (attrs m' !! k))
  ∧ _in_spec m' = _in_spec m.
Proof.
  unfold _fuse_conv_bn_. intros Hrun.
  apply bind_Ok in Hrun as (s & Hs & Hrun). simpl in Hrun.
  apply bind_Ok in Hrun as (g & Hg & Hrun). injection Hrun as <-.
  pose proof (eliminate_dead_code_lint _ _ _ Hg) as Hl.
  rewrite eliminate_dead_code_sweep in Hg by done. injection Hg as <-.
  assert (fusion_frame (graph m) (graph s.1) ∧ _in_spec s.1 = _in_spec m
          ∧ ∀ k, is_Some (attrs m !! k) → is_Some (attrs s.1 !! k))
    as ([Hkeep Hnew] & HS & HA).
  { apply (for_each_node_invariant _ _
             (λ s, fusion_frame (graph m) (graph s.1) ∧ _in_spec s.1 = _in_spec m
                   ∧ ∀ k, is_Some (attrs m !! k) → is_Some (attrs s.1 !! k)))
      in Hs; [done| |].
    - intros n [m0 folded] s1 (HF & HS & HA) Hv. simpl in *. unfold fuse_visit in Hv.
      apply bind_Ok in Hv as (bn & Hbn & Hv).
      apply bind_Ok in Hv as (c & Hc & Hv).
      destruct c as [[[conv_node w] b]|]; [|by injection Hv as <-].
      apply bind_Ok in Hv as (m1 & Hfold & Hv). injection Hv as <-. simpl.
      apply fold_frame in Hfold as (HF1 & HS1 & HA1).
      split; [by eapply fusion_frame_trans|]. split; [congruence|].
      intros k Hk. by apply HA1, HA.
    - simpl. split; [apply fusion_frame_refl|done]. }
  simpl. split; [|split; [|done]].
  - intros x Hx Himp. destruct (Hkeep x Hx) as (x' & Hx' & Hk).
    exists x'. split; [|done]. apply sweep_keeps_impure; [done|].
    destruct Hk as (_ & Hop & Ht). unfold is_impure in *. by rewrite Hop, Ht.
  - intros x' Hx'. apply Hnew. by eapply elem_of_sweep.
Qed.

End fusion_pass_frame.

(** ** Literal promotion: graphs without literals, and failures *)

Section promotion_more.
Context {tensor : Type}.
Implicit Types (gm : GraphModule tensor).

Lemma promote_literals_none (last_ph : option node_id) gm (cnt : nat)
    (node_args : list Arg) :
  (∀ a, a ∈ node_args → _is_literal a = false) →
  ∀ new_args,
    promote_literals last_ph node_args new_args gm cnt
    = Ok (new_args ++ node_args, gm, cnt).
Proof.
  induction node_args as [|a rest IH]; intros Hlit new_args; simpl.
  - by rewrite app_nil_r.
  - rewrite (Hlit a) by (by left). rewrite IH by (intros b Hb; apply Hlit; by right).
    by rewrite <- app_assoc.
Qed.

Lemma promote_literals_raise (last_ph : option node_id) gm (cnt : nat)
    (node_args : list Arg) (e : exn) :
  (∃ a, a ∈ node_args ∧ _is_literal a = true) →
  (in_spec ← (match _in_spec gm with
              | Some s => Ok s
              | None => Raise AttributeError
              end);
   append_leaf_spec in_spec) = Raise e →
  ∀ new_args, promote_literals last_ph node_args new_args gm cnt = Raise e.
Proof.
  intros Hex Hspec. induction node_args as [|a rest IH]; intros new_args; simpl.
  - destruct Hex as (a & Ha & _). by apply elem_of_nil in Ha.
  - destruct (_is_literal a) eqn:Hlit.
    + destruct (_in_spec gm) as [s|]; simpl in *.
      * by rewrite Hspec.
      * by injection Hspec as <-.
    + apply IH. destruct Hex as (b & Hb & Hbl).
      apply elem_of_cons in Hb as [->|Hb]; [congruence|]. by exists b.
Qed.

Lemma set_args_same (g : list Node) (x : Node) :
  NoDup (name <$> g) → x ∈ g → set_args (name x) (args x) g = g.
Proof.
  intros Hnd Hx. apply list_elem_of_split in Hx as (pre & post & ->).
  apply NoDup_names_middle in Hnd as [Hpre Hpost].
  rewrite set_args_middle by done. by rewrite node_eta.
Qed.

(** A node the loop passes without touching the module. *)
Lemma promote_visit_quiet gm (x : Node) (last_ph : option node_id) (cnt : nat) :
  NoDup (name <$> graph gm) → x ∈ graph gm →
  (∀ p, last_ph = Some p → p ∈ name <$> graph gm) →
  (op x ≠ placeholder → ∀ a, a ∈ args x → _is_literal a = false) →
  ∃ last_ph' cnt',
    promote_visit (name x) (gm, last_ph, cnt) = Ok (gm, last_ph', cnt')
    ∧ (∀ p, last_ph' = Some p → p ∈ name <$> graph gm).
Proof.
  intros Hnd Hx Hlast Hq. unfold promote_visit, get_node.
  rewrite find_node_elem_of by done. simpl.
  destruct (decide (op x = placeholder)) as [Hop|Hop].
  - exists (Some (name x)), (S cnt). split; [done|].
    intros p [= <-]. by apply list_elem_of_fmap_2.
  - exists last_ph, cnt. split; [|done].
    assert ((match last_ph with
             | Some p => in_graph (graph gm) p
             | None => true
             end) = true) as ->.
    { destruct last_ph as [p|]; [|done]. apply bool_decide_eq_true. by apply Hlast. }
    simpl. rewrite promote_literals_none by (by apply Hq). simpl.
    rewrite set_args_same by done. by destruct gm.
Qed.

Lemma promote_quiet_prefix gm (pre : list Node) :
  NoDup (name <$> graph gm) →
  (∀ x, x ∈ pre → op x ≠ placeholder → ∀ a, a ∈ args x → _is_literal a = false) →
  ∀ (seen rest : list Node) (last_ph : option node_id) (cnt fuel : nat),
    graph gm = seen ++ pre ++ rest →
    (∀ p, last_ph = Some p → p ∈ name <$> graph gm) →
    ∃ last_ph' cnt',
      for_each_node (λ s, graph s.1.1) promote_visit (length pre + fuel)
        (name <$> head (pre ++ rest)) (gm, last_ph, cnt)
      = for_each_node (λ s, graph s.1.1) promote_visit fuel
          (name <$> head rest) (gm, last_ph', cnt')
      ∧ (∀ p, last_ph' = Some p → p ∈ name <$> graph gm).
Proof.
  intros Hnd. induction pre as [|x pre IH];
    intros Hq seen rest last_ph cnt fuel Hg Hlast.
  - by exists last_ph, cnt.
  - assert (x ∈ graph gm) as Hx.
    { rewrite Hg. apply elem_of_app. right. by left. }
    destruct (promote_visit_quiet gm x last_ph cnt Hnd Hx Hlast)
      as (lp1 & cnt1 & Hv & Hlast1); [apply Hq; by left|].
    destruct (IH (λ y Hy, Hq y (list_elem_of_further _ _ _ Hy))
                (seen ++ [x]) rest lp1 cnt1 fuel) as (lp2 & cnt2 & Hrun & Hlast2).
    { by rewrite <- app_assoc. }
    { done. }
    exists lp2, cnt2. split; [|done]. rewrite <- Hrun.
    change (name <$> head ((x :: pre) ++ rest)) with (Some (name x)).
    change (length (x :: pre) + fuel) with (S (length pre + fuel)).
    rewrite for_each_node_S, Hv.
    change (Ok ?a ≫= ?k) with (k a). cbv beta.
    replace (next_node (graph (gm, lp1, cnt1).1.1) (name x))
      with (name <$> head (pre ++ rest)); [done|].
    simpl. rewrite Hg. symmetry. apply (next_node_middle seen (pre ++ rest) x).
    rewrite Hg in Hnd. by apply NoDup_names_middle in Hnd as [? _].
Qed.

Lemma promote_quiet_loop gm :
  NoDup (name <$> graph gm) →
  (∀ x, x ∈ graph gm → op x ≠ placeholder → ∀ a, a ∈ args x → _is_literal a = false) →
  ∃ last_ph cnt,
    for_each_node (λ s, graph s.1.1) promote_visit (promotion_fuel (graph gm))
      (name <$> head (graph gm)) (gm, None, 0)
    = Ok (gm, last_ph, cnt).
Proof.
  intros Hnd Hq. unfold promotion_fuel.
  destruct (promote_quiet_prefix gm (graph gm) Hnd Hq [] [] None 0
              (sum_list (length ∘ args <$> graph gm)))
    as (lp & cnt & Hrun & _).
  { by rewrite app_nil_r. }
  { done. }
  exists lp, cnt. rewrite app_nil_r in Hrun. rewrite Hrun. by destruct (sum_list _).
Qed.

(** X9. On a graph with unique names in which no argument of a
    non-placeholder node is a literal, [_replace_literals_with_placeholders]
    returns the module as it was given: no placeholder is created, the
    input spec is not read, and no argument list changes. *)
Theorem replace_literals_nothing_to_promote gm :
  NoDup (name <$> graph gm) →
  (∀ x, x ∈ graph gm → op x ≠ placeholder → ∀ a, a ∈ args x → _is_literal a = false) →
  _replace_literals_with_placeholders gm = Ok gm.
Proof.
  intros Hnd Hq. unfold _replace_literals_with_placeholders.
  destruct (promote_quiet_loop gm Hnd Hq) as (lp & cnt & Hrun).
  fold (promotion_fuel (graph gm)). by rewrite Hrun.
Qed.

(** X10. The first literal met needs the positional part of the input
    spec: when the nodes before a non-placeholder node with a literal
    argument are placeholders or without literals, the pass raises
    [AttributeError] on a module without [_in_spec], and [IndexError] on
    one whose [_in_spec] has no child. *)
Theorem replace_literals_needs_in_spec gm (pre rest : list Node) (n : Node) (a : Arg) :
  graph gm = pre ++ n :: rest →
  NoDup (name <$> graph gm) →
  (∀ x, x ∈ pre → op x ≠ placeholder → ∀ a, a ∈ args x → _is_literal a = false) →
  op n ≠ placeholder →
  a ∈ args n → _is_literal a = true →
  (_in_spec gm = None →
     _replace_literals_with_placeholders gm = Raise AttributeError)
  ∧ (∀ in_spec, _in_spec gm = Some in_spec → children_specs in_spec = [] →
       _replace_literals_with_placeholders gm = Raise IndexError).
Proof.
  intros Hg Hnd Hq Hop Ha Hlit.
  assert (∀ e,
    (in_spec ← (match _in_spec gm with
                | Some s => Ok s
                | None => Raise AttributeError
                end);
     append_leaf_spec in_spec) = Raise e →
    _replace_literals_with_placeholders gm = Raise e) as Hraise.
  { intros e Hspec. unfold _replace_literals_with_placeholders, promotion_fuel.
    assert (length (graph gm) + sum_list (length ∘ args <$> graph gm)
            = length pre
              + S (length rest + sum_list (length ∘ args <$> graph gm))) as ->.
    { rewrite Hg at 1. rewrite length_app. simpl. lia. }
    rewrite Hg at 2.
    destruct (promote_quiet_prefix gm pre Hnd Hq [] (n :: rest) None 0
                (S (length rest + sum_list (length ∘ args <$> graph gm))))
      as (lp & cnt & Hrun & Hlast); [done|done|].
    rewrite Hrun.
    change (name <$> head (n :: rest)) with (Some (name n)).
    rewrite for_each_node_S.
    assert (promote_visit (name n) (gm, lp, cnt) = Raise e) as ->; [|done].
    unfold promote_visit, get_node.
    rewrite find_node_elem_of; [|done|rewrite Hg; apply elem_of_app; right; by left].
    simpl. rewrite decide_False by done.
    assert ((match lp with
             | Some p => in_graph (graph gm) p
             | None => true
             end) = true) as ->.
    { destruct lp as [p|]; [|done]. apply bool_decide_eq_true. by apply Hlast. }
    simpl. rewrite (promote_literals_raise lp gm cnt (args n) e); [done| |done].
    by exists a. }
  split.
  - intros Hnone. apply Hraise. by rewrite Hnone.
  - intros in_spec Hsome Hch. apply Hraise. rewrite Hsome. simpl.
    unfold append_leaf_spec. by rewrite Hch.
Qed.

End promotion_more.

(** ** Literal promotion: a second run, and the references it keeps *)

Lemma is_literal_no_nodes (a : Arg) : _is_literal a = true → arg_nodes a = [].
Proof.
  induction a as [ | | | | |n|l IH|l IH] using Arg_nested_ind; simpl; try done.
  - intros Hall. induction IH as [|x l Hx Hl IHl]; simpl; [done|].
    simpl in Hall. apply andb_true_iff in Hall as [H1 H2].
    by rewrite Hx, IHl.
  - intros Hall. induction IH as [|x l Hx Hl IHl]; simpl; [done|].
    simpl in Hall. apply andb_true_iff in Hall as [H1 H2].
    by rewrite Hx, IHl.
Qed.

Lemma promoted_args_no_literal (next : node_id) (node_args : list Arg) (a : Arg) :
  a ∈ promoted_args next node_args → _is_literal a = false.
Proof.
  revert next. induction node_args as [|b rest IH]; intros next; simpl.
  - by intros ?%elem_of_nil.
  - destruct (_is_literal b) eqn:Hb; intros [->|Ha]%elem_of_cons; eauto.
Qed.

Lemma promoted_args_old_nodes (next : node_id) (node_args : list Arg) (r : node_id) :
  r < next →
  r ∈ concat (map arg_nodes (promoted_args next node_args))
  ↔ r ∈ concat (map arg_nodes node_args).
Proof.
  revert next. induction node_args as [|b rest IH]; intros next Hr; simpl; [done|].
  destruct (_is_literal b) eqn:Hb; simpl.
  - rewrite (is_literal_no_nodes b Hb). simpl.
    rewrite elem_of_cons, IH by lia. split; [|by right].
    intros [->|?]; [lia|done].
  - by rewrite !elem_of_app, IH.
Qed.

Lemma elem_of_promoted_nodes (next : node_id) (body : list Node) (x' : Node) :
  x' ∈ promoted_nodes next body →
  ∃ x next', x ∈ body ∧ next ≤ next'
    ∧ x' = mkNode (name x) (op x) (target x) (promoted_args next' (args x)) (kwargs x).
Proof.
  revert next. induction body as [|x body IH]; intros next; simpl.
  - by intros ?%elem_of_nil.
  - intros [->|Hx']%elem_of_cons.
    + exists x, next. split; [by left|done].
    + destruct (IH _ Hx') as (y & next' & Hy & Hle & ->).
      exists y, next'. split; [by right|]. split; [lia|done].
Qed.

Lemma names_promoted_nodes (next : node_id) (body : list Node) :
  name <$> promoted_nodes next body = name <$> body.
Proof.
  revert next. induction body as [|x body IH]; intros next; simpl; [done|].
  by rewrite IH.
Qed.

Lemma elem_of_new_placeholders (first cnt k : nat) (p : Node) :
  p ∈ new_placeholders first cnt k →
  op p = placeholder ∧ args p = [] ∧ kwargs p = ∅ ∧ first ≤ name p < first + k.
Proof.
  unfold new_placeholders. intros (j & -> & Hj)%list_elem_of_fmap.
  apply elem_of_seq in Hj. simpl. repeat split; lia.
Qed.

Lemma elem_of_names_new_placeholders (first cnt k : nat) (r : node_id) :
  first ≤ r < first + k → r ∈ name <$> new_placeholders first cnt k.
Proof.
  intros Hr. unfold new_placeholders. rewrite <- list_fmap_compose.
  apply list_elem_of_fmap. exists (r - first). simpl. split; [lia|].
  apply elem_of_seq. lia.
Qed.

Lemma NoDup_names_new_placeholders (first cnt k : nat) :
  NoDup (name <$> new_placeholders first cnt k).
Proof.
  unfold new_placeholders. rewrite <- list_fmap_compose.
  apply NoDup_fmap_2; [|apply NoDup_seq].
  intros i j. simpl. lia.
Qed.

Lemma elem_of_rev {A : Type} (l : list A) (x : A) : x ∈ rev l ↔ x ∈ l.
Proof. by rewrite <- Permutation_rev. Qed.

Lemma name_lt_fresh_name (g : list Node) (r : node_id) :
  r ∈ name <$> g → r < fresh_name g.
Proof. intros Hr. unfold fresh_name. apply max_list_elem_of_le in Hr. lia. Qed.

Section promotion_again.
Context {tensor : Type}.
Implicit Types (gm : GraphModule tensor).

Lemma promote_run gm (phs body : list Node) in_spec :
  graph gm = phs ++ body →
  phs ≠ [] →
  Forall (λ n, op n = placeholder) phs →
  Forall (λ n, op n ≠ placeholder) body →
  NoDup (name <$> graph gm) →
  _in_spec gm = Some in_spec →
  children_specs in_spec ≠ [] →
  _replace_literals_with_placeholders gm
  = Ok (mkGraphModule
          (phs ++ rev (new_placeholders (fresh_name (graph gm)) (length phs)
                         (literal_count body))
               ++ promoted_nodes (fresh_name (graph gm)) body)
          (attrs gm)
          (Some (extend_in_spec in_spec (literal_count body)))).
Proof.
  intros Hg Hne Hphs Hbody Hnd Hspec Hch.
  destruct (exists_last Hne) as (pre & P & ->).
  destruct gm as [g attr sp]. simpl in *. subst g sp.
  unfold _replace_literals_with_placeholders, promotion_fuel. simpl graph.
  rewrite length_app, <- Nat.add_assoc.
  pose proof (promote_placeholders_run (pre ++ [P]) Hphs [] body None 0
    (length body + sum_list (length ∘ args <$> (pre ++ [P]) ++ body)) attr
    (Some in_spec) Hnd) as Hrun1.
  simpl app in Hrun1. rewrite Hrun1. clear Hrun1.
  rewrite foldl_app. simpl foldl.
  pose proof (promote_body_run in_spec (fresh_name ((pre ++ [P]) ++ body))
    (length (pre ++ [P])) pre P attr body Hch Hbody [] 0
    (length body + sum_list (length ∘ args <$> (pre ++ [P]) ++ body))) as Hrun2.
  simpl in Hrun2. rewrite extend_in_spec_0 in Hrun2.
  rewrite <- (app_assoc pre [P] body). simpl.
  rewrite <- (app_assoc pre [P] body) in Hrun2. simpl in Hrun2.
  rewrite Nat.add_0_r.
  rewrite Hrun2.
  - simpl. rewrite !Nat.add_0_r. by rewrite <- !app_assoc.
  - lia.
  - done.
  - by rewrite <- (app_assoc pre [P] body) in Hnd.
Qed.

Lemma promoted_graph_NoDup (g phs body : list Node) (cnt : nat) :
  g = phs ++ body →
  NoDup (name <$> g) →
  NoDup (name <$> (phs ++ rev (new_placeholders (fresh_name g) cnt (literal_count body))
                       ++ promoted_nodes (fresh_name g) body)).
Proof.
  intros Hg Hnd.
  rewrite !fmap_app, names_promoted_nodes, <- Permutation_rev.
  rewrite app_assoc,
    (Permutation_app_comm (name <$> phs)
       (name <$> new_placeholders (fresh_name g) cnt (literal_count body))),
    <- app_assoc.
  apply NoDup_app. split; [|split].
  - apply NoDup_names_new_placeholders.
  - intros r Hr Hold.
    apply list_elem_of_fmap in Hr as (p & -> & Hp).
    apply elem_of_new_placeholders in Hp as (_ & _ & _ & Hge).
    rewrite <- fmap_app, <- Hg in Hold. apply name_lt_fresh_name in Hold. lia.
  - by rewrite <- fmap_app, <- Hg.
Qed.

(** X11. A second run changes nothing.  On a graph whose placeholders
    come first (at least one, unique names) and whose input spec has a
    positional part, the pass returns a module in which no positional
    argument of a non-placeholder node is a literal, and the pass applied
    to that module returns it as it is. *)
Theorem replace_literals_twice gm (phs body : list Node) in_spec :
  graph gm = phs ++ body →
  phs ≠ [] →
  Forall (λ n, op n = placeholder) phs →
  Forall (λ n, op n ≠ placeholder) body →
  NoDup (name <$> graph gm) →
  _in_spec gm = Some in_spec →
  children_specs in_spec ≠ [] →
  ∃ gm',
    _replace_literals_with_placeholders gm = Ok gm'
    ∧ (∀ x, x ∈ graph gm' → op x ≠ placeholder →
            ∀ a, a ∈ args x → _is_literal a = false)
    ∧ _replace_literals_with_placeholders gm' = Ok gm'.
Proof.
  intros Hg Hne Hphs Hbody Hnd Hspec Hch.
  eexists. split; [by apply (promote_run gm phs body in_spec)|].
  assert (∀ x, x ∈ phs ++ rev (new_placeholders (fresh_name (graph gm)) (length phs)
                                 (literal_count body))
                     ++ promoted_nodes (fresh_name (graph gm)) body →
               op x ≠ placeholder → ∀ a, a ∈ args x → _is_literal a = false) as Hq.
  { intros x Hx Hop a Ha. rewrite !elem_of_app in Hx. destruct Hx as [Hx|[Hx|Hx]].
    - rewrite Forall_forall in Hphs. by destruct Hop; apply Hphs.
    - apply elem_of_rev, elem_of_new_placeholders in Hx as (? & _). done.
    - apply elem_of_promoted_nodes in Hx as (y & next' & _ & _ & ->). simpl in Ha.
      by eapply promoted_args_no_literal. }
  split; [exact Hq|].
  set (gm' := mkGraphModule _ (attrs gm) _).
  destruct (promote_quiet_loop gm') as (lp & cnt & Hrun); [|exact Hq|].
  { simpl. by apply promoted_graph_NoDup. }
  unfold _replace_literals_with_placeholders. by rewrite Hrun.
Qed.

End promotion_again.

(** ** Literal promotion: lint and users *)

Lemma promoted_args_nodes (next : node_id) (node_args : list Arg) (r : node_id) :
  r ∈ concat (map arg_nodes (promoted_args next node_args)) →
  r ∈ concat (map arg_nodes node_args)
  ∨ (next ≤ r < next + count_literals node_args).
Proof.
  revert next. induction node_args as [|b rest IH]; intros next; simpl; [by left|].
  destruct (_is_literal b) eqn:Hb; simpl.
  - rewrite (is_literal_no_nodes b Hb). simpl.
    intros [->|Hr]%elem_of_cons; [right; lia|].
    destruct (IH _ Hr) as [?|?]; [by left|right; lia].
  - rewrite !elem_of_app. intros [?|Hr]; [left; by left|].
    destruct (IH _ Hr) as [?|?]; [left; by right|by right].
Qed.

Lemma promoted_args_new_nodes (first next : node_id) (node_args : list Arg)
    (p : node_id) :
  (∀ r, r ∈ concat (map arg_nodes node_args) → r < first) →
  first ≤ p →
  p ∈ concat (map arg_nodes (promoted_args next node_args))
  ↔ next ≤ p < next + count_literals node_args.
Proof.
  revert next. induction node_args as [|b rest IH]; intros next Hold Hp; simpl.
  - split; [by intros ?%elem_of_nil|lia].
  - simpl in Hold.
    assert (∀ r, r ∈ concat (map arg_nodes rest) → r < first) as Hold'.
    { intros r Hr. apply Hold, elem_of_app. by right. }
    destruct (_is_literal b) eqn:Hb; simpl.
    + rewrite elem_of_cons, (IH (S next) Hold' Hp). lia.
    + rewrite elem_of_app, (IH next Hold' Hp). split; [|by right].
      intros [Hr|?]; [|done].
      assert (p < first) by (apply Hold, elem_of_app; by left). lia.
Qed.

Lemma lint_from_no_inputs (l : list Node) :
  ∀ seen : list node_id,
    (∀ x, x ∈ l → all_input_nodes x = []) →
    NoDup (name <$> l) →
    (∀ x, x ∈ l → name x ∉ seen) →
    lint_from seen l = true.
Proof.
  induction l as [|x l IH]; intros seen Hin Hnd Hfresh; simpl; [done|].
  rewrite fmap_cons in Hnd. apply NoDup_cons in Hnd as [Hx Hnd].
  rewrite (Hin x) by (by left). simpl.
  rewrite bool_decide_eq_true_2 by (apply Hfresh; by left). simpl.
  apply IH; [intros y Hy; apply Hin; by right|done|].
  intros y Hy. rewrite not_elem_of_cons. split; [|apply Hfresh; by right].
  intros Heq. apply Hx. rewrite <- Heq. by apply list_elem_of_fmap_2.
Qed.

Lemma all_input_nodes_promoted (x : Node) (next : node_id) (r : node_id) :
  r ∈ all_input_nodes
        (mkNode (name x) (op x) (target x) (promoted_args next (args x)) (kwargs x)) →
  r ∈ all_input_nodes x ∨ (next ≤ r < next + count_literals (args x)).
Proof.
  unfold all_input_nodes. simpl. rewrite !elem_of_app.
  intros [Hr|Hr]; [|left; by right].
  destruct (promoted_args_nodes _ _ _ Hr) as [?|?]; [left; by left|by right].
Qed.

Lemma lint_from_promoted (first bound : node_id) (body : list Node) :
  ∀ (next : node_id) (seen seen' : list node_id),
    lint_from seen body = true →
    seen ⊆ seen' →
    (∀ r, first ≤ r < bound → r ∈ seen') →
    (∀ x, x ∈ body → name x ∉ seen') →
    first ≤ next → next + literal_count body ≤ bound →
    lint_from seen' (promoted_nodes next body) = true.
Proof.
  induction body as [|x body IH];
    intros next seen seen' Hl Hsub Hnew Hfresh Hfirst Hbound; [done|].
  pose proof Hl as Hl0. simpl in Hl, Hbound.
  apply andb_true_iff in Hl as [Hl Hrest].
  apply andb_true_iff in Hl as [Hin Hx].
  simpl. apply andb_true_iff. split; [apply andb_true_iff; split|].
  - apply forallb_forall. intros r Hr. apply bool_decide_eq_true.
    apply list_elem_of_In, all_input_nodes_promoted in Hr as [Hr|Hr].
    + apply Hsub. rewrite forallb_forall in Hin. apply list_elem_of_In in Hr.
      by apply Hin, bool_decide_eq_true in Hr.
    + apply Hnew. lia.
  - apply bool_decide_eq_true. apply Hfresh. by left.
  - apply (IH _ (name x :: seen)); [done|set_solver| | |lia|lia].
    + intros r Hr. right. by apply Hnew.
    + intros y Hy. rewrite not_elem_of_cons. split.
      * intros Heq. apply (lint_from_names _ _ y Hrest Hy). rewrite Heq. by left.
      * apply Hfresh. by right.
Qed.

Lemma uses_promoted_old (x : Node) (next r : node_id) :
  r < next →
  uses (mkNode (name x) (op x) (target x) (promoted_args next (args x)) (kwargs x)) r
  = uses x r.
Proof.
  intros Hr. unfold uses. apply bool_decide_ext.
  unfold all_input_nodes. simpl. by rewrite !elem_of_app, promoted_args_old_nodes.
Qed.

Lemma users_promoted_old (body : list Node) (r : node_id) :
  ∀ next, r < next →
    name <$> users (promoted_nodes next body) r = name <$> users body r.
Proof.
  unfold users. induction body as [|x body IH]; intros next Hr; simpl; [done|].
  rewrite !filter_cons. rewrite uses_promoted_old by done.
  destruct (decide (uses x r = true)); rewrite ?fmap_cons, IH by lia; done.
Qed.

Lemma users_promoted_new (first : node_id) (body : list Node) (p : node_id) :
  (∀ x r, x ∈ body → r ∈ all_input_nodes x → r < first) →
  first ≤ p →
  ∀ next,
    length (users (promoted_nodes next body) p)
    = (if bool_decide (next ≤ p < next + literal_count body) then 1 else 0).
Proof.
  intros Hold Hp. unfold users. induction body as [|x body IH]; intros next; simpl.
  - rewrite bool_decide_eq_false_2 by lia. done.
  - rewrite filter_cons.
    assert (uses (mkNode (name x) (op x) (target x)
                    (promoted_args next (args x)) (kwargs x)) p = true
            ↔ next ≤ p < next + count_literals (args x)) as Huse.
    { rewrite uses_true. unfold all_input_nodes. simpl. rewrite elem_of_app.
      rewrite (promoted_args_new_nodes first).
      - split; [|by left]. intros [?|Hk]; [done|].
        assert (p < first); [|lia].
        apply (Hold x p); [by left|]. unfold all_input_nodes. apply elem_of_app.
        by right.
      - intros r Hr. apply (Hold x r); [by left|]. unfold all_input_nodes.
        apply elem_of_app. by left.
      - done. }
    assert (∀ y r, y ∈ body → r ∈ all_input_nodes y → r < first) as Hold'.
    { intros y r Hy. apply Hold. by right. }
    destruct (decide (uses _ p = true)) as [Hu|Hu].
    + apply Huse in Hu. simpl. rewrite (IH Hold').
      rewrite bool_decide_eq_false_2 by lia. by rewrite bool_decide_eq_true_2 by lia.
    + rewrite Huse in Hu. rewrite (IH Hold').
      destruct (bool_decide_reflect
                  (count_literals (args x) + next ≤ p
                   < count_literals (args x) + next + literal_count body));
        [rewrite bool_decide_eq_true_2 by lia|rewrite bool_decide_eq_false_2 by lia];
        done.
Qed.

Lemma users_none (l : list Node) (p : node_id) :
  (∀ x, x ∈ l → uses x p = false) → users l p = [].
Proof.
  unfold users. induction l as [|x l IH]; intros Hl; [done|].
  rewrite filter_cons, (Hl x) by (by left).
  rewrite decide_False by done. apply IH. intros y Hy. apply Hl. by right.
Qed.

Section promotion_references.
Context {tensor : Type}.
Implicit Types (gm : GraphModule tensor).

Lemma lint_inputs_below_fresh (g : list Node) (x : Node) (r : node_id) :
  lint g = true → x ∈ g → r ∈ all_input_nodes x → r < fresh_name g.
Proof.
  intros Hl Hx Hr. apply list_elem_of_lookup in Hx as [i Hi].
  destruct (lint_input_before g i x r Hl Hi Hr) as (j & y & _ & Hj & <-).
  apply name_lt_fresh_name, list_elem_of_fmap_2. by eapply list_elem_of_lookup_2.
Qed.

(** X12. Promotion keeps a linted graph linted: on a linted graph whose
    placeholders come first (at least one) and whose input spec has a
    positional part, the pass returns a graph in which every node, the
    created placeholders included, comes before the nodes that use it, and
    names are unique. *)
Theorem replace_literals_keeps_lint gm (phs body : list Node) in_spec :
  graph gm = phs ++ body →
  phs ≠ [] →
  Forall (λ n, op n = placeholder) phs →
  Forall (λ n, op n ≠ placeholder) body →
  lint (graph gm) = true →
  _in_spec gm = Some in_spec →
  children_specs in_spec ≠ [] →
  ∃ gm', _replace_literals_with_placeholders gm = Ok gm' ∧ lint (graph gm') = true.
Proof.
  intros Hg Hne Hphs Hbody Hl Hspec Hch.
  pose proof (lint_NoDup _ Hl) as Hnd.
  eexists. split; [by apply (promote_run gm phs body in_spec)|].
  simpl. set (first := fresh_name (graph gm)).
  set (K := literal_count body).
  pose proof (promoted_graph_NoDup (graph gm) phs body (length phs) Hg Hnd) as Hnd'.
  fold first K in Hnd'.
  unfold lint in *. rewrite Hg in Hl. rewrite lint_from_app in Hl.
  apply andb_true_iff in Hl as [Hl1 Hl2].
  rewrite !lint_from_app, Hl1. simpl. apply andb_true_iff. split.
  - apply lint_from_no_inputs.
    + intros x Hx. apply elem_of_rev, elem_of_new_placeholders in Hx
        as (_ & Ha & Hk & _).
      unfold all_input_nodes. rewrite Ha, Hk. by rewrite map_to_list_empty.
    + rewrite fmap_app in Hnd'. apply NoDup_app in Hnd' as (_ & _ & Hnd').
      rewrite fmap_app in Hnd'. by apply NoDup_app in Hnd' as (Hnd' & _).
    + intros x Hx. rewrite app_nil_r. intros Hin.
      apply elem_of_rev, elem_of_new_placeholders in Hx as (_ & _ & _ & Hge).
      assert (name x < first); [|lia].
      apply name_lt_fresh_name. rewrite Hg, fmap_app. apply elem_of_app. by left.
  - apply (lint_from_promoted first (first + K) body first ((name <$> phs) ++ []));
      [done| | | |lia|unfold K; lia].
    + intros r Hr. apply elem_of_app. by right.
    + intros r Hr. apply elem_of_app. left.
      rewrite <- Permutation_rev. by apply elem_of_names_new_placeholders.
    + intros x Hx. rewrite app_nil_r, elem_of_app. intros [Hin|Hin].
      * apply list_elem_of_fmap in Hin as (p & Hp & Hin).
        apply elem_of_rev, elem_of_new_placeholders in Hin as (_ & _ & _ & Hge).
        assert (name x < first); [|lia].
        apply name_lt_fresh_name. rewrite Hg, fmap_app. apply elem_of_app. right.
        by apply list_elem_of_fmap_2.
      * rewrite Hg, fmap_app in Hnd. apply NoDup_app in Hnd as (_ & Hdisj & _).
        apply (Hdisj _ Hin). by apply list_elem_of_fmap_2.
Qed.

(** X13. Promotion keeps the references between the nodes it was given
    and uses every placeholder it creates once.  On a linted graph whose
    placeholders come first (at least one) and whose input spec has a
    positional part, a node of the input has, by name, the same users
    after the pass as before; a created placeholder has no input and
    exactly one user. *)
Theorem replace_literals_references gm (phs body : list Node) in_spec :
  graph gm = phs ++ body →
  phs ≠ [] →
  Forall (λ n, op n = placeholder) phs →
  Forall (λ n, op n ≠ placeholder) body →
  lint (graph gm) = true →
  _in_spec gm = Some in_spec →
  children_specs in_spec ≠ [] →
  ∃ gm',
    _replace_literals_with_placeholders gm = Ok gm'
    ∧ (∀ r, r ∈ name <$> graph gm →
         name <$> users (graph gm') r = name <$> users (graph gm) r)
    ∧ (∀ p, p ∈ graph gm' → name p ∉ name <$> graph gm →
         all_input_nodes p = [] ∧ length (users (graph gm') (name p)) = 1).
Proof.
  intros Hg Hne Hphs Hbody Hl Hspec Hch.
  pose proof (lint_NoDup _ Hl) as Hnd.
  eexists. split; [by apply (promote_run gm phs body in_spec)|].
  simpl. set (first := fresh_name (graph gm)).
  set (K := literal_count body).
  assert (∀ p, users (rev (new_placeholders first (length phs) K)) p = [])
    as Hnew_users.
  { intros p. apply users_none. intros x Hx.
    apply elem_of_rev, elem_of_new_placeholders in Hx as (_ & Ha & Hk & _).
    unfold uses, all_input_nodes. by rewrite Ha, Hk, map_to_list_empty. }
  assert (∀ x r, x ∈ graph gm → r ∈ all_input_nodes x → r < first) as Hold.
  { intros x r Hx Hr. by apply (lint_inputs_below_fresh (graph gm) x r). }
  split.
  - intros r Hr. rewrite Hg. unfold users. rewrite !filter_app, !fmap_app.
    f_equal. fold (users (rev (new_placeholders first (length phs) K)) r).
    rewrite Hnew_users. simpl.
    apply users_promoted_old. by apply name_lt_fresh_name.
  - intros p Hp Hfresh.
    assert (p ∈ new_placeholders first (length phs) K) as Hnew.
    { rewrite !elem_of_app in Hp. destruct Hp as [Hp|[Hp|Hp]].
      - destruct Hfresh. rewrite Hg, fmap_app. apply elem_of_app. left.
        by apply list_elem_of_fmap_2.
      - by rewrite elem_of_rev in Hp.
      - destruct Hfresh. rewrite Hg, fmap_app. apply elem_of_app. right.
        rewrite <- (names_promoted_nodes first). by apply list_elem_of_fmap_2. }
    apply elem_of_new_placeholders in Hnew as (_ & Ha & Hk & Hrange).
    split; [unfold all_input_nodes; by rewrite Ha, Hk, map_to_list_empty|].
    unfold users. rewrite !filter_app, !length_app.
    fold (users phs (name p)) (users (rev (new_placeholders first (length phs) K)) (name p))
      (users (promoted_nodes first body) (name p)).
    rewrite Hnew_users. rewrite (users_none phs).
    + rewrite (users_promoted_new first); [|intros x r Hx|lia].
      * rewrite bool_decide_eq_true_2; [done|]. unfold K in Hrange. lia.
      * apply Hold. rewrite Hg. apply elem_of_app. by right.
    + intros x Hx. apply not_true_is_false. rewrite uses_true. intros Hr.
      assert (name p < first); [|lia].
      apply (Hold x); [|done]. rewrite Hg. apply elem_of_app. by left.
Qed.

End promotion_references.

(** ** Overload removal and the dropout filter, further *)

(** X14. [remove_tensor_overload_for_qdq_ops] reaches a fixed point in
    one run: afterwards no [call_function] node has a key of the table as
    target, and a second run changes nothing; a node that is not a
    [call_function] keeps its target even when the table has it. *)
Theorem remove_tensor_overload_for_qdq_ops_idempotent {tensor}
    (match_pattern : GraphModule tensor) :
  (∀ n, n ∈ graph (remove_tensor_overload_for_qdq_ops match_pattern) →
        op n = call_function → _MAP !! target n = None)
  ∧ remove_tensor_overload_for_qdq_ops
      (remove_tensor_overload_for_qdq_ops match_pattern)
    = remove_tensor_overload_for_qdq_ops match_pattern
  ∧ (∀ i n, graph match_pattern !! i = Some n → op n ≠ call_function →
       graph (remove_tensor_overload_for_qdq_ops match_pattern) !! i = Some n).
Proof.
  assert (∀ n : Node, op (remove_tensor_overload n) = call_function →
                      _MAP !! target (remove_tensor_overload n) = None) as Hclean.
  { intros n. unfold remove_tensor_overload.
    destruct (decide (op n ≠ call_function)) as [Hop|Hop]; [done|].
    destruct (_MAP !! target n) as [t|] eqn:Ht; simpl; [|done].
    intros _. destruct (_MAP_strips_overload _ _ Ht) as (ns & opname & ov & _ & ->).
    destruct (_MAP !! T_packet ns opname) as [t'|] eqn:Ht'; [|done].
    by destruct (_MAP_strips_overload _ _ Ht') as (? & ? & ? & ? & _). }
  split; [|split].
  - unfold remove_tensor_overload_for_qdq_ops. simpl.
    intros n (n0 & -> & _)%list_elem_of_fmap. apply Hclean.
  - unfold remove_tensor_overload_for_qdq_ops, with_graph. simpl. f_equal.
    rewrite <- list_fmap_compose. apply list_fmap_ext. intros i n _. simpl.
    unfold remove_tensor_overload at 1.
    destruct (decide (op (remove_tensor_overload n) ≠ call_function)) as [|Hop];
      [done|].
    apply dec_stable in Hop. by rewrite (Hclean n Hop).
  - intros i n Hn Hop. unfold remove_tensor_overload_for_qdq_ops. simpl.
    rewrite list_lookup_fmap, Hn. simpl. unfold remove_tensor_overload.
    by rewrite decide_True.
Qed.

Lemma size_list_to_set_le (l : list Target) :
  size (list_to_set (C:=gset Target) l) ≤ length l.
Proof.
  induction l as [|x l IH]; simpl; [done|].
  rewrite size_union_alt, size_singleton.
  assert (list_to_set (C:=gset Target) l ∖ {[x]} ⊆ list_to_set l) as Hsub
    by set_solver.
  apply subseteq_size in Hsub. simpl. lia.
Qed.

(** X15. [_is_dropout_filter] reads nothing but the targets of the
    matched nodes: a match it accepts maps at least four nodes, and every
    match whose matched nodes carry the same targets, or more, is accepted
    too, whatever the pattern nodes, the order of the entries and the two
    graphs passed along. *)
Theorem is_dropout_filter_targets_only (m1 m2 : InternalMatch)
    (original_graph1 pattern_graph1 original_graph2 pattern_graph2 : list Node) :
  _is_dropout_filter m1 original_graph1 pattern_graph1 = true →
  4 ≤ length (nodes_map m1)
  ∧ ((∀ n, n ∈ snd <$> nodes_map m1 →
           ∃ n', n' ∈ snd <$> nodes_map m2 ∧ target n' = target n) →
     _is_dropout_filter m2 original_graph2 pattern_graph2 = true).
Proof.
  unfold _is_dropout_filter. rewrite !bool_decide_eq_true.
  rewrite !remove_matched_ops_difference, !size_empty_iff.
  intros Hcover.
  assert (dropout_ops ⊆ list_to_set (target <$> (snd <$> nodes_map m1))) as Hsub.
  { intros t Ht. destruct (decide (t ∈ list_to_set (C:=gset Target)
                                     (target <$> (snd <$> nodes_map m1)))); [done|].
    exfalso. apply (not_elem_of_empty (C:=gset Target) t).
    rewrite <- Hcover. set_solver. }
  split.
  - apply subseteq_size in Hsub.
    pose proof (size_list_to_set_le (target <$> (snd <$> nodes_map m1))) as Hle.
    rewrite !length_fmap in Hle.
    assert (size dropout_ops = 4) as Hfour by (by vm_compute).
    lia.
  - intros Hmore t. split; [|set_solver].
    intros [Ht Hn]%elem_of_difference. exfalso. apply Hn.
    apply Hsub in Ht. rewrite elem_of_list_to_set in Ht.
    apply list_elem_of_fmap in Ht as (n & -> & Hin).
    destruct (Hmore n Hin) as (n' & Hin' & <-).
    rewrite elem_of_list_to_set. by apply list_elem_of_fmap_2.
Qed.

(** ** Node scopes *)

Lemma py_split_dot_no_dot (c : string) :
  (∀ a b, c ≠ a +:+ "." +:+ b) → py_split_dot c = [c].
Proof.
  induction c as [|y c IH]; intros Hdot; simpl; [done|].
  destruct (Ascii.eqb_spec y dot) as [->|Hy].
  - by destruct (Hdot "" c).
  - rewrite IH; [done|].
    intros a b Heq. apply (Hdot (String y a) b). simpl. by rewrite Heq.
Qed.

Lemma py_split_dot_last (s : string) :
  ∃ init c, py_split_dot s = init ++ [c]
    ∧ (∀ a b, c ≠ a +:+ "." +:+ b)
    ∧ ∃ prefix, s = prefix +:+ c ∧ (prefix = "" ∨ ∃ q, prefix = q +:+ ".")
        ∧ (init = [] → prefix = "").
Proof.
  induction s as [|x s (init & c & Hsplit & Hdot & prefix & Hs & Hpre & Hinit)].
  - exists [], "". split; [done|]. split.
    + intros [|y a] b; done.
    + exists "". split; [done|]. split; [by left|done].
  - simpl. destruct (Ascii.eqb_spec x dot) as [->|Hx].
    + exists ("" :: init), c. rewrite Hsplit. split; [done|]. split; [done|].
      exists ("." +:+ prefix). split; [by rewrite Hs|]. split; [|done].
      right. destruct Hpre as [->|[q ->]]; [by exists ""|by exists ("." +:+ q)].
    + rewrite Hsplit. destruct init as [|h init]; simpl.
      * exists [], (String x c). split; [done|].
        rewrite (Hinit eq_refl) in Hs. simpl in Hs. subst s. split.
        -- intros [|y a] b; simpl; intros [= ? ?]; [done|]. by eapply Hdot.
        -- exists "". split; [done|]. split; [by left|done].
      * exists (String x h :: init), c. split; [done|]. split; [done|].
        exists (String x prefix). split; [by rewrite Hs|]. split; [|done].
        right. destruct Hpre as [->|[q ->]].
        -- exfalso. simpl in Hs. subst s.
           rewrite py_split_dot_no_dot in Hsplit by done.
           by destruct init.
        -- by exists (String x q).
Qed.

Lemma current_scope_snoc (entries : list (string * (string * py_type)))
    (key path : string) (ty : py_type) (init : list string) (c : string) :
  py_split_dot path = init ++ [c] →
  current_scope (Some (entries ++ [(key, (path, ty))])) = Ok (c, ty).
Proof.
  intros Hsplit. unfold current_scope.
  destruct (entries ++ [(key, (path, ty))]) as [|e0 es] eqn:He.
  { by destruct entries. }
  rewrite <- He. unfold py_last. rewrite fmap_app.
  change (snd <$> [(key, (path, ty))]) with [(path, ty)].
  rewrite last_snoc. simpl. by rewrite Hsplit, last_snoc.
Qed.

(** X16. The scope [_get_node_name_to_scope] gives a node with a module
    stack is taken from the last entry of the stack: the type is the
    entry's type, and the name is the last dotted component of the entry's
    module path, that is, the path ends with it, what precedes it is empty
    or ends with a dot, and it contains no dot. *)
Theorem current_scope_last_component (entries : list (string * (string * py_type)))
    (key path : string) (ty : py_type) :
  ∃ scope_name prefix,
    current_scope (Some (entries ++ [(key, (path, ty))])) = Ok (scope_name, ty)
    ∧ path = prefix +:+ scope_name
    ∧ (prefix = "" ∨ ∃ q, prefix = q +:+ ".")
    ∧ (∀ a b, scope_name ≠ a +:+ "." +:+ b).
Proof.
  destruct (py_split_dot_last path) as (init & c & Hsplit & Hdot & prefix & Hs & Hpre & _).
  exists c, prefix. split; [|done]. by apply (current_scope_snoc _ _ _ _ init).
Qed.

Lemma current_scope_Ok (stack : nn_module_stack) :
  ∃ scope, current_scope stack = Ok scope.
Proof.
  destruct stack as [entries|]; [|by eexists].
  destruct entries as [|e entries _] using rev_ind; [by eexists|].
  destruct e as [key [path ty]].
  destruct (py_split_dot_last path) as (init & c & Hsplit & _).
  exists (c, ty). by apply (current_scope_snoc _ _ _ _ init).
Qed.

Lemma node_scopes_spec (meta : node_id → nn_module_stack) (nodes : list Node) :
  ∀ acc, ∃ d,
    node_scopes meta nodes acc = Ok d
    ∧ ∀ k, (k ∈ name <$> nodes →
            ∃ scope, current_scope (meta k) = Ok scope ∧ d !! k = Some scope)
           ∧ (k ∉ name <$> nodes → d !! k = acc !! k).
Proof.
  induction nodes as [|n nodes IH]; intros acc; simpl.
  - exists acc. split; [done|]. intros k. split; [by intros ?%elem_of_nil|done].
  - destruct (current_scope_Ok (meta (name n))) as [sc Hsc]. rewrite Hsc. simpl.
    destruct (IH (<[name n := sc]> acc)) as (d & Hrun & Hd).
    exists d. split; [done|]. intros k. split.
    + intros Hk. destruct (decide (k ∈ name <$> nodes)) as [Hin|Hnin].
      * by apply Hd.
      * apply elem_of_cons in Hk as [->|?]; [|done].
        exists sc. split; [done|].
        rewrite (proj2 (Hd (name n)) Hnin). by rewrite lookup_insert_eq.
    + intros Hk. apply not_elem_of_cons in Hk as [Hne Hnin].
      rewrite (proj2 (Hd k) Hnin). by rewrite lookup_insert_ne.
Qed.

(** X17. [_get_node_name_to_scope] never fails: it returns a dict whose
    keys are exactly the names of the graph's nodes, each with the scope
    computed from that node's module stack; a node without a stack, or
    with an empty one, gets the scope [("", NoneType)]. *)
Theorem get_node_name_to_scope_entries {tensor} (meta : node_id → nn_module_stack)
    (model : GraphModule tensor) :
  ∃ node_name_to_scope,
    _get_node_name_to_scope meta model = Ok node_name_to_scope
    ∧ (∀ k, is_Some (node_name_to_scope !! k) ↔ k ∈ name <$> graph model)
    ∧ (∀ n, n ∈ graph model →
         ∃ scope, current_scope (meta (name n)) = Ok scope
                  ∧ node_name_to_scope !! name n = Some scope)
    ∧ (∀ n, n ∈ graph model →
         meta (name n) = None ∨ meta (name n) = Some [] →
         node_name_to_scope !! name n = Some ("", NoneType)).
Proof.
  destruct (node_scopes_spec meta (graph model) ∅) as (d & Hrun & Hd).
  exists d. split; [done|].
  assert (∀ n, n ∈ graph model →
            ∃ scope, current_scope (meta (name n)) = Ok scope
                     ∧ d !! name n = Some scope) as Hscope.
  { intros n Hn. apply Hd. by apply list_elem_of_fmap_2. }
  split; [|split; [done|]].
  - intros k. split.
    + intros Hk. destruct (decide (k ∈ name <$> graph model)) as [|Hnin]; [done|].
      destruct (Hd k) as [_ Heq]. rewrite Heq, lookup_empty in Hk by done.
      by destruct Hk.
    + intros Hk. destruct (Hd k) as [Heq _].
      destruct (Heq Hk) as (sc & _ & ->). by eexists.
  - intros n Hn Hmeta. destruct (Hscope n Hn) as (sc & Hsc & ->).
    assert (current_scope (meta (name n)) = Ok ("", NoneType)) as Hdef.
    { by destruct Hmeta as [-> | ->]. }
    congruence.
Qed.

(** ** The fold keeps the graph linted *)

(** X18. On a linted graph whose batch-norm node has the convolution as
    first argument, a fold that returns leaves a linted graph: the created
    bias node comes before the convolution, and the users of the index-0
    accessors, redirected to the convolution, come after it. *)
Theorem fold_preserves_lint {tensor} (E : Externals tensor) (m m' : GraphModule tensor)
    (conv_node bn_node : node_id) (conv bn : Node)
    (conv_weight_node conv_bias_node : Arg) :
  lint (graph m) = true →
  get_node m conv_node = Ok conv →
  get_node m bn_node = Ok bn →
  args bn !! 0 = Some (A_node conv_node) →
  fold_bn_weights_into_conv_node E conv_node conv_weight_node conv_bias_node
    bn_node m = Ok m' →
  lint (graph m') = true.
Proof.
  intros Hlint Hconv Hbn Hfeed Hfold.
  by apply (fold_keeps_lint E m conv_node bn_node conv bn Hlint Hconv Hbn Hfeed
              conv_weight_node conv_bias_node m').
Qed.

(** * The further properties on the example graphs *)

Lemma get_all_arguments_positional_witness :
  _get_all_arguments [A_int 1; A_int 2] ({[ "other" := A_int 9 ]} : gmap string Arg)
    (ex_schema ["input"; "weight"; "bias"])
  = [A_int 1; A_int 2; A_none].
Proof.
  apply (get_all_arguments_positional [A_int 1; A_int 2]
           ({[ "other" := A_int 9 ]} : gmap string Arg)
           (ex_schema ["input"; "weight"; "bias"])).
  - intros s Hs.
    repeat (apply elem_of_cons in Hs as [->|Hs]; [reflexivity|]).
    by apply elem_of_nil in Hs.
  - intros s Hs.
    repeat (apply elem_of_cons in Hs as [->|Hs]; [reflexivity|]).
    by apply elem_of_nil in Hs.
Defined.

Lemma get_all_arguments_ignores_extra_witness :
  _get_all_arguments [A_int 1; A_int 2; A_int 3; A_int 4]
    ({[ "other" := A_int 9 ]} : gmap string Arg) (ex_schema ["input"; "weight"; "bias"])
  = _get_all_arguments [A_int 1; A_int 2; A_int 3] (∅ : gmap string Arg)
      (ex_schema ["input"; "weight"; "bias"]).
Proof.
  apply (get_all_arguments_ignores_extra [A_int 1; A_int 2; A_int 3; A_int 4]
           [A_int 1; A_int 2; A_int 3]
           ({[ "other" := A_int 9 ]} : gmap string Arg) ∅
           (ex_schema ["input"; "weight"; "bias"])).
  - reflexivity.
  - intros s Hs.
    repeat (apply elem_of_cons in Hs as [->|Hs]; [reflexivity|]).
    by apply elem_of_nil in Hs.
Defined.

Lemma fold_parameter_frame_witness :
  ∃ m', fold_bn_weights_into_conv_node ex_externals 6 (A_node 1) A_none 7
          (ex_module aten_native_batch_norm_legit_no_training_default) = Ok m'
        ∧ _in_spec m' = Some ex_in_spec
        ∧ length (graph m') = 12.
Proof.
  destruct (fold_bn_weights_into_conv_node ex_externals 6 (A_node 1) A_none 7
              (ex_module aten_native_batch_norm_legit_no_training_default))
    as [m'|e] eqn:Hfold; [|vm_compute in Hfold; discriminate].
  destruct (fold_parameter_frame ex_externals 6 (A_node 1) A_none 7
              (ex_module aten_native_batch_norm_legit_no_training_default) m' Hfold)
    as (wname & bname & _ & _ & _ & _ & _ & Hspec & Hlen).
  exists m'. split; [reflexivity|]. split; [exact Hspec|exact Hlen].
Defined.

Lemma fold_structural_failures_witness :
  fold_bn_weights_into_conv_node_in_place ex_externals 6 (A_node 0) A_none 7
    (ex_module aten_native_batch_norm_legit_no_training_default)
  = (ex_module aten_native_batch_norm_legit_no_training_default, Raise AssertionError).
Proof.
  apply (proj1 (fold_structural_failures ex_externals 6 (A_node 0) A_none 7
                  (ex_module aten_native_batch_norm_legit_no_training_default))
           0 (mkNode 0 placeholder (T_str "x") [] ∅));
    [reflexivity|reflexivity|discriminate].
Defined.

Lemma fold_preserves_lint_witness :
  ∃ m', fold_bn_weights_into_conv_node ex_externals 6 (A_node 1) A_none 7
          (ex_module aten_native_batch_norm_legit_no_training_default) = Ok m'
        ∧ lint (graph m') = true.
Proof.
  destruct (fold_bn_weights_into_conv_node ex_externals 6 (A_node 1) A_none 7
              (ex_module aten_native_batch_norm_legit_no_training_default))
    as [m'|e] eqn:Hfold; [|vm_compute in Hfold; discriminate].
  exists m'. split; [reflexivity|].
  apply (fold_preserves_lint ex_externals
           (ex_module aten_native_batch_norm_legit_no_training_default) m' 6 7
           ex_conv (ex_bn aten_native_batch_norm_legit_no_training_default)
           (A_node 1) A_none eq_refl eq_refl eq_refl eq_refl Hfold).
Defined.

Lemma fuse_conv_bn_keeps_lint_witness :
  ∃ s, fuse_scan ex_externals ex_module_single = Ok s
       ∧ _fuse_conv_bn_ ex_externals ex_module_single
         = Ok (with_graph s.1 (sweep ex_externals (graph s.1)))
       ∧ lint (sweep ex_externals (graph s.1)) = true.
Proof.
  destruct (fuse_scan ex_externals ex_module_single) as [s|e] eqn:Hs;
    [|vm_compute in Hs; discriminate].
  exists s. split; [reflexivity|].
  destruct (proj1 (fuse_conv_bn_keeps_lint ex_externals ex_module_single eq_refl) s Hs)
    as (_ & Hrun & Hl).
  split; [exact Hrun|exact Hl].
Defined.

Lemma fuse_conv_bn_first_failure_witness :
  _fuse_conv_bn_ ex_externals ex_module_bare_bn = Raise IndexError.
Proof.
  apply (proj1 (fuse_conv_bn_first_failure ex_externals ex_module_bare_bn
                  [mkNode 0 placeholder (T_str "x") [] ∅]
                  [mkNode 2 output (T_str "output") [A_tuple [A_node 1]] ∅]
                  (mkNode 1 call_function
                     aten_native_batch_norm_legit_no_training_default [] ∅)
                  eq_refl ltac:(by compute_done)
                  ltac:(intros x Hx; apply elem_of_cons in Hx as [->|Hx];
                        [reflexivity|by apply elem_of_nil in Hx])
                  eq_refl eq_refl)).
  reflexivity.
Defined.

Lemma fuse_conv_bn_nothing_selected_witness :
  _fuse_conv_bn_ ex_externals ex_module_no_literals
  = g ← eliminate_dead_code ex_externals (graph ex_module_no_literals);
    Ok (mkGraphModule g (attrs ex_module_no_literals) (_in_spec ex_module_no_literals)).
Proof.
  apply (fuse_conv_bn_nothing_selected ex_externals ex_module_no_literals).
  - by compute_done.
  - intros x Hx.
    repeat (apply elem_of_cons in Hx as [->|Hx]; [reflexivity|]).
    by apply elem_of_nil in Hx.
Defined.

Lemma fuse_conv_bn_frame_witness :
  ∃ m', _fuse_conv_bn_ ex_externals ex_module_single = Ok m'
        ∧ _in_spec m' = _in_spec ex_module_single.
Proof.
  destruct (_fuse_conv_bn_ ex_externals ex_module_single) as [m'|e] eqn:Hrun;
    [|vm_compute in Hrun; discriminate].
  exists m'. split; [reflexivity|].
  by destruct (fuse_conv_bn_frame ex_externals ex_module_single m' Hrun)
    as (_ & _ & _ & Hspec).
Defined.

Lemma replace_literals_nothing_to_promote_witness :
  _replace_literals_with_placeholders ex_module_no_literals = Ok ex_module_no_literals.
Proof.
  apply (replace_literals_nothing_to_promote ex_module_no_literals).
  - by compute_done.
  - intros x Hx Hop a Ha.
    repeat (apply elem_of_cons in Hx as [->|Hx];
            [simpl in Ha;
             repeat (apply elem_of_cons in Ha as [->|Ha]; [reflexivity|]);
             by apply elem_of_nil in Ha|]).
    by apply elem_of_nil in Hx.
Defined.

Lemma replace_literals_needs_in_spec_witness :
  _replace_literals_with_placeholders
    (mkGraphModule (graph ex_module_literals) (∅ : gmap string Z) None)
  = Raise AttributeError.
Proof.
  apply (proj1 (replace_literals_needs_in_spec
                  (mkGraphModule (graph ex_module_literals) (∅ : gmap string Z) None)
                  [mkNode 0 placeholder (T_str "x") [] ∅]
                  [mkNode 2 output (T_str "output") [A_tuple [A_node 1]] ∅]
                  (mkNode 1 call_function (T_overload "aten" "add" "Tensor")
                     [A_node 0; A_int 3; A_tuple [A_int 1; A_int 2]]
                     {[ "alpha" := A_int 2 ]})
                  (A_int 3)
                  eq_refl ltac:(by compute_done)
                  ltac:(intros x Hx Hop a Ha; apply elem_of_cons in Hx as [->|Hx];
                        [by apply elem_of_nil in Ha|by apply elem_of_nil in Hx])
                  ltac:(discriminate)
                  ltac:(right; left)
                  eq_refl)).
  reflexivity.
Defined.

Lemma replace_literals_twice_witness :
  ∃ gm', _replace_literals_with_placeholders ex_module_literals = Ok gm'
         ∧ _replace_literals_with_placeholders gm' = Ok gm'.
Proof.
  destruct (replace_literals_twice ex_module_literals
              [mkNode 0 placeholder (T_str "x") [] ∅]
              [mkNode 1 call_function (T_overload "aten" "add" "Tensor")
                 [A_node 0; A_int 3; A_tuple [A_int 1; A_int 2]] {[ "alpha" := A_int 2 ]};
               mkNode 2 output (T_str "output") [A_tuple [A_node 1]] ∅]
              ex_in_spec)
    as (gm' & Hrun & _ & Hagain).
  - reflexivity.
  - discriminate.
  - repeat constructor.
  - repeat constructor; discriminate.
  - by compute_done.
  - reflexivity.
  - discriminate.
  - by exists gm'.
Defined.

Lemma replace_literals_keeps_lint_witness :
  ∃ gm', _replace_literals_with_placeholders ex_module_literals = Ok gm'
         ∧ lint (graph gm') = true.
Proof.
  apply (replace_literals_keeps_lint ex_module_literals
           [mkNode 0 placeholder (T_str "x") [] ∅]
           [mkNode 1 call_function (T_overload "aten" "add" "Tensor")
              [A_node 0; A_int 3; A_tuple [A_int 1; A_int 2]] {[ "alpha" := A_int 2 ]};
            mkNode 2 output (T_str "output") [A_tuple [A_node 1]] ∅]
           ex_in_spec).
  - reflexivity.
  - discriminate.
  - repeat constructor.
  - repeat constructor; discriminate.
  - reflexivity.
  - reflexivity.
  - discriminate.
Defined.

Lemma replace_literals_references_witness :
  ∃ gm', _replace_literals_with_placeholders ex_module_literals = Ok gm'
         ∧ name <$> users (graph gm') 0 = [1].
Proof.
  destruct (replace_literals_references ex_module_literals
              [mkNode 0 placeholder (T_str "x") [] ∅]
              [mkNode 1 call_function (T_overload "aten" "add" "Tensor")
                 [A_node 0; A_int 3; A_tuple [A_int 1; A_int 2]] {[ "alpha" := A_int 2 ]};
               mkNode 2 output (T_str "output") [A_tuple [A_node 1]] ∅]
              ex_in_spec)
    as (gm' & Hrun & Hold & _).
  - reflexivity.
  - discriminate.
  - repeat constructor.
  - repeat constructor; discriminate.
  - reflexivity.
  - reflexivity.
  - discriminate.
  - exists gm'. split; [exact Hrun|]. rewrite Hold; [reflexivity|].
    simpl. by left.
Defined.

Lemma is_dropout_filter_targets_only_witness :
  _is_dropout_filter ex_match [] [] = true ∧ 4 ≤ length (nodes_map ex_match).
Proof.
  assert (_is_dropout_filter ex_match [] [] = true) as H by (by vm_compute).
  split; [exact H|].
  exact (proj1 (is_dropout_filter_targets_only ex_match ex_match [] [] [] [] H)).
Defined.

(** * The pass and the nodes it does not select *)

Lemma foldr_keep_elem {tensor} (E : Externals tensor) (pre kept : list Node) (x : Node) :
  x ∈ kept →
  x ∈ foldr (λ n kept, if dead_node E n kept then kept else n :: kept) kept pre.
Proof.
  intros Hx. induction pre as [|y pre IH]; simpl; [done|].
  destruct (dead_node E y _); [done|by right].
Qed.

Lemma foldr_keep_inv {tensor} (E : Externals tensor) (pre kept : list Node) (u : Node) :
  u ∈ foldr (λ n kept, if dead_node E n kept then kept else n :: kept) kept pre →
  u ∈ kept ∨ u ∈ pre.
Proof.
  induction pre as [|y pre IH]; simpl; [by left|].
  destruct (dead_node E y _).
  - intros Hu. destruct (IH Hu); [by left|right; by right].
  - intros [->|Hu]%elem_of_cons; [right; by left|].
    destruct (IH Hu); [by left|right; by right].
Qed.

(** A node of a linted graph is kept by the sweep, or it is without side
    effect and no kept node uses it. *)
Lemma sweep_cases {tensor} (E : Externals tensor) (g : list Node) (x : Node) :
  lint g = true → x ∈ g →
  x ∈ sweep E g
  ∨ (is_impure E x = false ∧ ∀ u, u ∈ sweep E g → uses u (name x) = false).
Proof.
  intros Hl Hx. pose proof (lint_NoDup _ Hl) as Hnd.
  pose proof Hx as Hxg.
  apply list_elem_of_split in Hx as (pre & post & Hg).
  unfold sweep. rewrite Hg, foldr_app. simpl. fold (sweep E post).
  destruct (dead_node E x (sweep E post)) eqn:Hdead.
  - right. unfold dead_node in Hdead. apply andb_true_iff in Hdead as [Himp Huse].
    apply negb_true_iff in Himp. apply bool_decide_eq_true in Huse.
    split; [done|]. intros u Hu. apply not_true_is_false. intros Huses.
    apply foldr_keep_inv in Hu as [Hu|Hu].
    + assert (u ∈ users (sweep E post) (name x)) as Hin.
      { unfold users. by apply list_elem_of_filter. }
      destruct (users (sweep E post) (name x)); [by apply elem_of_nil in Hin|done].
    + assert (u ∈ g) as Hug by (rewrite Hg; apply elem_of_app; by left).
      pose proof (lint_uses_before g x u Hl Hxg Hug Huses) as Hxu.
      assert (before g u x) as Hux.
      { apply list_elem_of_lookup in Hu as [i Hi]. exists i, (length pre).
        split; [by eapply lookup_lt_Some|]. rewrite Hg. split.
        - by apply lookup_app_l_Some.
        - by rewrite list_lookup_middle. }
      by apply (before_irrefl g x Hnd), (before_trans g x u x).
  - left. apply foldr_keep_elem. by left.
Qed.

Section pass_on_other_nodes.
Context {tensor : Type} (E : Externals tensor).
Implicit Types (m : GraphModule tensor).

(** What the loop keeps of the nodes of [g0] that are not convolution
    calls: each is in the graph up to a renaming of accessors. *)
Lemma fuse_visit_rewires (g0 : list Node) (n : node_id)
    (s s' : GraphModule tensor * list Node) :
  (lint (graph s.1) = true
   ∧ fusion_frame g0 (graph s.1)
   ∧ ∀ y0, y0 ∈ g0 →
       ¬ (op y0 = call_function ∧ target y0 = aten_convolution_default) →
       ∃ f, rewires_accessors g0 f ∧ map_node_args f y0 ∈ graph s.1) →
  fuse_visit E n s = Ok s' →
  lint (graph s'.1) = true
  ∧ fusion_frame g0 (graph s'.1)
  ∧ ∀ y0, y0 ∈ g0 →
      ¬ (op y0 = call_function ∧ target y0 = aten_convolution_default) →
      ∃ f, rewires_accessors g0 f ∧ map_node_args f y0 ∈ graph s'.1.
Proof.
  destruct s as [m folded]. simpl. intros (Hl & HF & Hinv) Hv.
  pose proof Hv as Hv0. unfold fuse_visit in Hv.
  apply bind_Ok in Hv as (bn & Hbn & Hv).
  apply bind_Ok in Hv as (c & Hc & Hv).
  destruct c as [[[conv_node w] b]|]; [|by injection Hv as <-].
  apply bind_Ok in Hv as (m' & Hfold & Hv). injection Hv as <-. simpl.
  destruct (fusion_candidate_inv _ _ _ _ _ Hc)
    as (Hfeed & conv & Hconv & Hcop & Hct & _).
  pose proof (lint_NoDup _ Hl) as Hnd.
  split; [by apply (fold_keeps_lint E m conv_node n conv bn Hl Hconv Hbn Hfeed w b m')|].
  destruct (fold_frame E _ _ _ _ _ _ Hfold) as (HF1 & _ & _).
  split; [by eapply fusion_frame_trans|].
  destruct (fold_graph_members E m conv_node n conv bn Hl Hconv Hbn Hfeed w b m' Hfold)
    as (pre & post & extra & conv1 & Hg & Hg' & _).
  set (ρ := redirect (getitem_0_users (graph m) n) conv_node) in *.
  destruct (get_node_Ok m conv_node conv Hconv) as [Hcin Hcn].
  assert (∃ c0, c0 ∈ g0 ∧ name c0 = conv_node ∧ op c0 = call_function
                ∧ target c0 = aten_convolution_default) as Hconv0.
  { destruct HF as [_ HF]. destruct (HF conv Hcin) as [(c0 & Hc0 & Hk)|[Hop _]].
    - destruct Hk as (Hn & Hop & Ht). exists c0. split; [done|].
      split; [congruence|]. split; congruence.
    - congruence. }
  intros y0 Hy0 Hkind. destruct (Hinv y0 Hy0 Hkind) as (f & Hf & Hy).
  exists (ρ ∘ f). split.
  - intros r Hr. simpl in Hr.
    destruct (decide (f r = r)) as [Hfr|Hfr].
    + rewrite Hfr in Hr. simpl. rewrite Hfr.
      unfold ρ, redirect in Hr |- *.
      destruct (decide (r ∈ getitem_0_users (graph m) n)) as [Hacc|]; [|done].
      split; [|done].
      apply elem_of_getitem_0_users in Hacc as (h & Hh & Hhn & _ & Hh0); [|done].
      apply getitem_0_shape in Hh0 as Hshape. destruct Hshape as (Hhop & Hht & _).
      destruct HF as [_ HF]. destruct (HF h Hh) as [(h0 & Hh0g & Hk)|[Hop _]];
        [|congruence].
      destruct Hk as (Hn & Hop & Ht).
      destruct (Hinv h0 Hh0g) as (f' & _ & Hh').
      { intros [_ Hc']. rewrite <- Ht, Hht in Hc'. done. }
      assert (map_node_args f' h0 = h) as Heq.
      { apply (elem_of_same_name (graph m)); [done|done|done|]. simpl. congruence. }
      exists h0. split; [done|]. split; [congruence|].
      unfold getitem_0 in *. by rewrite <- Heq, is_getitem_0_map_node_args in Hh0.
    + destruct (Hf r Hfr) as [Hacc Hcv]. split; [done|]. simpl.
      unfold ρ, redirect. destruct (decide (f r ∈ _)); [done|done].
  - rewrite <- map_node_args_compose. rewrite Hg'.
    rewrite Hg in Hy. rewrite !elem_of_app, elem_of_cons in Hy.
    destruct Hy as [Hy|[Hy|Hy]].
    + apply elem_of_app. left. by apply list_elem_of_fmap_2.
    + destruct Hkind. rewrite <- Hcop, <- Hct, <- Hy. done.
    + apply elem_of_app. right. apply elem_of_app. right. right.
      by apply list_elem_of_fmap_2.
Qed.

End pass_on_other_nodes.

Section training_variant.
Context {tensor : Type} (E : Externals tensor).
Implicit Types (m : GraphModule tensor).


End training_variant.



(** * A second run of the pass *)

Lemma NoDup_middle_inj {A : Type} (P P' Q Q' : list A) (n : A) :
  NoDup (P ++ n :: Q) → P ++ n :: Q = P' ++ n :: Q' → P = P' ∧ Q = Q'.
Proof.
  revert P'. induction P as [|a P IH]; intros P' Hnd Heq.
  - destruct P' as [|a' P']; simpl in *.
    + by injection Heq as ->.
    + injection Heq as <- ->. apply NoDup_cons in Hnd as [Hn _].
      destruct Hn. apply elem_of_app. right. by left.
  - destruct P' as [|a' P']; simpl in *.
    + injection Heq as -> <-. apply NoDup_cons in Hnd as [Hn _].
      destruct Hn. apply elem_of_app. right. by left.
    + injection Heq as <- Heq. apply NoDup_cons in Hnd as [_ Hnd].
      destruct (IH P' Hnd Heq) as [-> ->]. done.
Qed.

Lemma next_node_names (g : list Node) (P Q : list node_id) (n : node_id) :
  name <$> g = P ++ n :: Q → NoDup (name <$> g) → next_node g n = head Q.
Proof.
  intros Hg Hnd. apply fmap_app_inv in Hg as (pre & rest & -> & Hrest & ->).
  symmetry in Hrest. apply fmap_cons_inv in Hrest as (p & post & -> & -> & ->).
  rewrite next_node_middle; [by destruct post|].
  by apply NoDup_names_middle in Hnd as [? _].
Qed.

(** The loop with the names before the cursor: a body that leaves the
    names from the cursor on as they are visits them all, and an invariant
    on the names before the cursor holds at the end of all names. *)
Lemma for_each_node_prefix_invariant {St : Type} (graph_of : St → list Node)
    (body : node_id → St → result St) (I : list node_id → St → Prop) :
  (∀ n s s' P Q,
     I P s → name <$> graph_of s = P ++ n :: Q → NoDup (name <$> graph_of s) →
     body n s = Ok s' →
     ∃ P', name <$> graph_of s' = P' ++ n :: Q
           ∧ NoDup (name <$> graph_of s') ∧ I (P' ++ [n]) s') →
  ∀ fuel Q P s s',
    name <$> graph_of s = P ++ Q → NoDup (name <$> graph_of s) → I P s →
    for_each_node graph_of body fuel (head Q) s = Ok s' →
    I (name <$> graph_of s') s'.
Proof.
  intros Hstep fuel. induction fuel as [|fuel IH]; intros Q P s s' Hg Hnd HI Hrun.
  - destruct Q as [|n Q]; simpl in Hrun; [|done]. injection Hrun as <-.
    by rewrite Hg, app_nil_r.
  - destruct Q as [|n Q]; simpl in Hrun.
    + injection Hrun as <-. by rewrite Hg, app_nil_r.
    + apply bind_Ok in Hrun as (s1 & Hbody & Hrun).
      destruct (Hstep n s s1 P Q HI Hg Hnd Hbody) as (P' & Hg1 & Hnd1 & HI1).
      rewrite (next_node_names _ P' Q n Hg1 Hnd1) in Hrun.
      apply (IH Q (P' ++ [n]) s1 s'); [|done|done|done].
      by rewrite <- app_assoc.
Qed.

Section fold_result.
Context {tensor : Type} (E : Externals tensor).
Variables (m m' : GraphModule tensor) (conv_node bn_node : node_id) (conv bn : Node).
Variables (conv_weight_node conv_bias_node : Arg).
Hypothesis Hlint : lint (graph m) = true.
Hypothesis Hconv : get_node m conv_node = Ok conv.
Hypothesis Hbn : get_node m bn_node = Ok bn.
Hypothesis Hfeed : args bn !! 0 = Some (A_node conv_node).
Hypothesis Hfold :
  fold_bn_weights_into_conv_node E conv_node conv_weight_node conv_bias_node
    bn_node m = Ok m'.

(** The nodes of the graph after the fold: a redirected node of the graph
    before, the created bias node, or the convolution. *)
Lemma fold_result_nodes (x' : Node) :
  x' ∈ graph m' →
  (∃ x, x ∈ graph m ∧ name x ≠ conv_node
        ∧ x' = map_node_args (redirect (getitem_0_users (graph m) bn_node) conv_node) x)
  ∨ (op x' = get_attr ∧ (∀ r, r ∉ all_input_nodes x')
     ∧ name x' ∉ name <$> graph m)
  ∨ (name x' = conv_node ∧ op x' = op conv ∧ target x' = target conv
     ∧ ∀ r, r ∈ all_input_nodes x' →
         r ∈ all_input_nodes conv ∨ r ∉ name <$> graph m).
Proof.
  intros Hx'.
  destruct (fold_graph_members E m conv_node bn_node conv bn Hlint Hconv Hbn Hfeed
              conv_weight_node conv_bias_node m' Hfold)
    as (pre & post & extra & conv1 & Hg & Hg' & Hn1 & Hin1 & Hextra).
  destruct (fold_frame E _ _ _ _ _ _ Hfold) as ([_ HF] & _ & _).
  pose proof (lint_NoDup _ Hlint) as Hnd.
  destruct (get_node_Ok m conv_node conv Hconv) as [Hcin Hcn].
  assert ((name conv ∉ name <$> pre) ∧ (name conv ∉ name <$> post)) as [Hpre Hpost].
  { rewrite Hg in Hnd. by apply NoDup_names_middle in Hnd. }
  rewrite Hg' in Hx'. rewrite !elem_of_app, elem_of_cons in Hx'.
  destruct Hx' as [Hx|[Hx|[->|Hx]]].
  - left. apply list_elem_of_fmap in Hx as (x & -> & Hx). exists x.
    split; [rewrite Hg; apply elem_of_app; by left|]. split; [|done].
    intros Heq. apply Hpre. rewrite Hcn, <- Heq. by apply list_elem_of_fmap_2.
  - right. left. rewrite Forall_forall in Hextra. destruct (Hextra x' Hx) as [Hno Hnew].
    split; [|done].
    assert (x' ∈ graph m') as Hin.
    { rewrite Hg'. apply elem_of_app. right. apply elem_of_app. by left. }
    destruct (HF x' Hin) as [(x & Hxg & Hk)|[Hop _]]; [|done].
    destruct Hnew. destruct Hk as (-> & _). by apply list_elem_of_fmap_2.
  - right. right. split; [done|].
    assert (conv1 ∈ graph m') as Hin.
    { rewrite Hg'. apply elem_of_app. right. apply elem_of_app. right. by left. }
    destruct (HF conv1 Hin) as [(x & Hxg & Hk)|[_ Hnew]].
    + destruct Hk as (Hn & Hop & Ht).
      assert (x = conv) as ->.
      { apply (elem_of_same_name (graph m)); [done..|]. congruence. }
      done.
    + destruct Hnew. rewrite Hn1, <- Hcn. by apply list_elem_of_fmap_2.
  - left. apply list_elem_of_fmap in Hx as (x & -> & Hx). exists x.
    split; [rewrite Hg; apply elem_of_app; right; by right|]. split; [|done].
    intros Heq. apply Hpost. rewrite Hcn, <- Heq. by apply list_elem_of_fmap_2.
Qed.

Lemma fold_result_keeps (x : Node) :
  x ∈ graph m → name x ≠ conv_node →
  map_node_args (redirect (getitem_0_users (graph m) bn_node) conv_node) x ∈ graph m'.
Proof.
  intros Hx Hne.
  destruct (fold_graph_members E m conv_node bn_node conv bn Hlint Hconv Hbn Hfeed
              conv_weight_node conv_bias_node m' Hfold)
    as (pre & post & extra & conv1 & Hg & Hg' & _).
  destruct (get_node_Ok m conv_node conv Hconv) as [Hcin Hcn].
  rewrite Hg' . rewrite Hg in Hx. rewrite !elem_of_app, elem_of_cons in Hx.
  destruct Hx as [Hx|[->|Hx]]; [|done|].
  - apply elem_of_app. left. by apply list_elem_of_fmap_2.
  - apply elem_of_app. right. apply elem_of_app. right. right.
    by apply list_elem_of_fmap_2.
Qed.

(** A use, after the fold, of a node other than the convolution was a
    use before. *)
Lemma fold_result_uses (u' : Node) (t : node_id) :
  u' ∈ graph m' → t ∈ name <$> graph m → t ≠ conv_node →
  uses u' t = true →
  (∃ u, u ∈ graph m
        ∧ u' = map_node_args (redirect (getitem_0_users (graph m) bn_node) conv_node) u
        ∧ uses u t = true)
  ∨ (uses conv t = true ∧ name u' = conv_node).
Proof.
  intros Hu' Ht Hne Huse. apply uses_true in Huse.
  destruct (fold_result_nodes u' Hu')
    as [(u & Hu & _ & ->)|[(_ & Hno & _)|(Hn & _ & _ & Hin)]].
  - left. exists u. split; [done|]. split; [done|].
    apply elem_of_inputs_map_node_args in Huse as (r0 & Hr0 & Heq).
    unfold redirect in Heq. destruct (decide (r0 ∈ getitem_0_users (graph m) bn_node)); [done|].
    subst r0. by apply uses_true.
  - by destruct (Hno t).
  - right. split; [|done]. apply uses_true.
    destruct (Hin t Huse); [done|done].
Qed.

End fold_result.

Section second_run.
Context {tensor : Type} (E : Externals tensor).
Implicit Types (m : GraphModule tensor).

Lemma fusion_candidate_none_inv m (x : Node) :
  fusion_candidate m x = Ok None →
  (op x ≠ call_function
   ∨ target x ≠ aten_native_batch_norm_legit_no_training_default)
  ∨ ∃ c0 conv0,
      args x !! 0 = Some (A_node c0) ∧ get_node m c0 = Ok conv0
      ∧ (op conv0 ≠ call_function ∨ target conv0 ≠ aten_convolution_default).
Proof.
  unfold fusion_candidate. intros H.
  destruct (decide (op x ≠ call_function)); [left; by left|].
  destruct (decide (target x ≠ aten_native_batch_norm_legit_no_training_default));
    [left; by right|].
  right. unfold py_index in H. destruct (args x !! 0) as [a|]; [|done]. simpl in H.
  destruct a as [ | | | | |c0| | ]; try done.
  destruct (get_node m c0) as [conv0|] eqn:Hc0; [|done]. simpl in H.
  exists c0, conv0. split; [done|]. split; [done|].
  destruct (decide (op conv0 ≠ call_function)); [by left|].
  destruct (decide (target conv0 ≠ aten_convolution_default)); [by right|].
  destruct (args conv0 !! 1); [|done]. simpl in H.
  destruct (args conv0 !! 2); done.
Qed.

Lemma fusion_candidate_none_kind m (x : Node) :
  op x ≠ call_function
  ∨ target x ≠ aten_native_batch_norm_legit_no_training_default →
  fusion_candidate m x = Ok None.
Proof.
  intros [Hop|Ht]; unfold fusion_candidate.
  - by rewrite decide_True.
  - case_decide; [done|]. by rewrite decide_True.
Qed.

Lemma fusion_candidate_none_conv m (x : Node) (c0 : node_id) (conv0 : Node) :
  args x !! 0 = Some (A_node c0) → get_node m c0 = Ok conv0 →
  op conv0 ≠ call_function ∨ target conv0 ≠ aten_convolution_default →
  fusion_candidate m x = Ok None.
Proof.
  intros Ha Hc Hk. unfold fusion_candidate, py_index.
  case_decide; [done|]. case_decide; [done|].
  rewrite Ha. simpl. rewrite Hc. simpl.
  destruct Hk as [Hop|Ht].
  - by rewrite decide_True.
  - case_decide; [done|]. by rewrite decide_True.
Qed.

Lemma elem_of_front_before (g front back : list Node) (x y : Node) :
  g = front ++ y :: back → x ∈ front → before g x y.
Proof.
  intros -> Hx. apply list_elem_of_lookup in Hx as [i Hi]. exists i, (length front).
  split; [by eapply lookup_lt_Some|]. split.
  - by apply lookup_app_l_Some.
  - by rewrite list_lookup_middle.
Qed.

End second_run.

Section fold_settles.
Context {tensor : Type} (E : Externals tensor).
Variables (m m' : GraphModule tensor) (conv_node bn_node : node_id) (conv bn : Node).
Variables (conv_weight_node conv_bias_node : Arg).
Hypothesis Hlint : lint (graph m) = true.
Hypothesis Hconv : get_node m conv_node = Ok conv.
Hypothesis Hbn : get_node m bn_node = Ok bn.
Hypothesis Hfeed : args bn !! 0 = Some (A_node conv_node).
Hypothesis Hfold :
  fold_bn_weights_into_conv_node E conv_node conv_weight_node conv_bias_node
    bn_node m = Ok m'.
Hypothesis Hcop : op conv = call_function.
Hypothesis Hct : target conv = aten_convolution_default.
Hypothesis Hbop : op bn = call_function.
Hypothesis Hbt : target bn = aten_native_batch_norm_legit_no_training_default.
Hypothesis Hfirst : first_output_only (graph m).

Lemma conv_not_getitem_0 : getitem_0 conv = false.
Proof.
  apply not_true_is_false. intros (_ & Ht & _)%getitem_0_shape.
  rewrite Hct in Ht. discriminate.
Qed.

Lemma getitem_0_redirected (f : node_id → node_id) (u : Node) :
  getitem_0 (map_node_args f u) = getitem_0 u.
Proof. unfold getitem_0. by rewrite is_getitem_0_map_node_args. Qed.

Lemma no_training_not_conv (x : Node) :
  x ∈ graph m →
  target x = aten_native_batch_norm_legit_no_training_default →
  name x ≠ conv_node.
Proof.
  intros Hx Ht Hn. destruct (get_node_Ok m conv_node conv Hconv) as [Hc Hcn].
  assert (x = conv) as ->.
  { apply (elem_of_same_name (graph m)); [by apply lint_NoDup|done..|congruence]. }
  rewrite Hct in Ht. discriminate.
Qed.

Lemma getitem_0_not_conv (u : Node) :
  u ∈ graph m → getitem_0 u = true → name u ≠ conv_node.
Proof.
  intros Hu Hg Hn. destruct (get_node_Ok m conv_node conv Hconv) as [Hc Hcn].
  assert (u = conv) as ->.
  { apply (elem_of_same_name (graph m)); [by apply lint_NoDup|done..|congruence]. }
  by rewrite conv_not_getitem_0 in Hg.
Qed.

Lemma fold_first_output_only : first_output_only (graph m').
Proof.
  intros x' u' Hx' Hu' Hop Ht Huse.
  destruct (fold_result_nodes E m m' conv_node bn_node conv bn conv_weight_node
              conv_bias_node Hlint Hconv Hbn Hfeed Hfold x' Hx')
    as [(x & Hx & Hne & ->)|[(Hop' & _)|(_ & _ & Ht' & _)]].
  - simpl in Hop, Ht, Huse.
    destruct (fold_result_uses E m m' conv_node bn_node conv bn conv_weight_node
                conv_bias_node Hlint Hconv Hbn Hfeed Hfold u' (name x) Hu')
      as [(u & Hu & -> & Hux)|[Hcx _]]; [by apply list_elem_of_fmap_2|done|done| |].
    + rewrite getitem_0_redirected. by apply (Hfirst x u).
    + destruct (get_node_Ok m conv_node conv Hconv) as [Hc _].
      pose proof (Hfirst x conv Hx Hc Hop Ht Hcx) as Hg.
      by rewrite conv_not_getitem_0 in Hg.
  - congruence.
  - rewrite Ht', Hct in Ht. discriminate.
Qed.

(** After the fold no node uses an accessor of the batch norm. *)
Lemma fold_accessor_unused (u : Node) (v' : Node) :
  u ∈ graph m → uses u bn_node = true → v' ∈ graph m' →
  uses v' (name u) = false.
Proof.
  intros Hu Hub Hv'.
  destruct (get_node_Ok m bn_node bn Hbn) as [Hb Hbnn].
  assert (getitem_0 u = true) as Hg0.
  { apply (Hfirst bn u); [done..|by rewrite Hbnn]. }
  assert (name u ∈ getitem_0_users (graph m) bn_node) as Hacc.
  { apply elem_of_getitem_0_users; [by apply lint_NoDup|]. by exists u. }
  destruct (fold_result_nodes E m m' conv_node bn_node conv bn conv_weight_node
              conv_bias_node Hlint Hconv Hbn Hfeed Hfold v' Hv')
    as [(v & Hv & _ & ->)|[(_ & Hno & _)|(_ & _ & _ & Hin)]].
  - by apply (redirected_not_using_accessor m conv_node bn_node conv bn
                Hlint Hconv Hbn Hfeed).
  - apply not_true_is_false. intros Huse%uses_true. by destruct (Hno (name u)).
  - apply not_true_is_false. intros Huse%uses_true.
    destruct (Hin _ Huse) as [Hc|Hnew].
    + by apply (conv_not_using_user m conv_node bn_node conv bn
                  Hlint Hconv Hbn Hfeed u).
    + destruct Hnew. by apply list_elem_of_fmap_2.
Qed.

Lemma bn_not_conv : bn_node ≠ conv_node.
Proof.
  destruct (get_node_Ok m bn_node bn Hbn) as [Hb Hbnn].
  rewrite <- Hbnn. by apply no_training_not_conv.
Qed.

(** The batch norm the fold was invoked on is settled. *)
Lemma fold_settles_bn (x' : Node) :
  x' ∈ graph m' → name x' = bn_node → settled m' x'.
Proof.
  intros Hx' Hn.
  destruct (get_node_Ok m bn_node bn Hbn) as [Hb Hbnn].
  destruct (fold_result_nodes E m m' conv_node bn_node conv bn conv_weight_node
              conv_bias_node Hlint Hconv Hbn Hfeed Hfold x' Hx')
    as [(x & Hx & Hne & ->)|[(_ & _ & Hnew)|(Hn' & _)]].
  - simpl in Hn.
    assert (x = bn) as ->.
    { apply (elem_of_same_name (graph m)); [by apply lint_NoDup|done..|congruence]. }
    right. split; [done|]. split; [done|]. simpl. rewrite Hbnn.
    intros u' Hu' Huse v' Hv'.
    destruct (fold_result_uses E m m' conv_node bn_node conv bn conv_weight_node
                conv_bias_node Hlint Hconv Hbn Hfeed Hfold u' bn_node Hu')
      as [(u & Hu & -> & Hux)|[Hcx _]].
    + rewrite <- Hbnn. by apply list_elem_of_fmap_2.
    + apply bn_not_conv.
    + done.
    + simpl. by apply fold_accessor_unused.
    + apply uses_true in Hcx.
      by destruct (conv_not_using_bn m conv_node bn_node conv bn
                     Hlint Hconv Hbn Hfeed).
  - destruct Hnew. rewrite Hn, <- Hbnn. by apply list_elem_of_fmap_2.
  - destruct bn_not_conv. congruence.
Qed.

(** The created bias node and the convolution are not selected. *)
Lemma fold_settles_created (x' : Node) :
  x' ∈ graph m' → (name x' ∉ name <$> graph m) ∨ name x' = conv_node →
  settled m' x'.
Proof.
  intros Hx' Hcase. left.
  destruct (fold_result_nodes E m m' conv_node bn_node conv bn conv_weight_node
              conv_bias_node Hlint Hconv Hbn Hfeed Hfold x' Hx')
    as [(x & Hx & Hne & ->)|[(Hop & _)|(_ & _ & Ht & _)]].
  - simpl in Hcase. destruct Hcase as [Hnew|Heq]; [|done].
    destruct Hnew. by apply list_elem_of_fmap_2.
  - apply fusion_candidate_none_kind. left. congruence.
  - apply fusion_candidate_none_kind. right. rewrite Ht, Hct. discriminate.
Qed.

(** A settled node before the batch norm stays settled. *)
Lemma fold_keeps_settled (x : Node) :
  x ∈ graph m → before (graph m) x bn → name x ≠ conv_node → settled m x →
  settled m' (map_node_args (redirect (getitem_0_users (graph m) bn_node) conv_node) x).
Proof.
  intros Hx Hxb Hne Hset.
  pose proof (lint_NoDup _ Hlint) as Hnd.
  destruct (get_node_Ok m bn_node bn Hbn) as [Hb Hbnn].
  destruct (get_node_Ok m conv_node conv Hconv) as [Hc Hcn].
  destruct Hset as [Hnone|(Hop & Ht & Hdead)].
  - left. apply fusion_candidate_none_inv in Hnone
      as [Hkind|(c0 & conv0 & Ha0 & Hc0 & Hk0)].
    + by apply fusion_candidate_none_kind.
    + destruct (get_node_Ok m c0 conv0 Hc0) as [Hc0g Hc0n].
      assert (c0 ∉ getitem_0_users (graph m) bn_node) as Hnacc.
      { intros (h & Hh & Hhn & Hhb & _)%elem_of_getitem_0_users; [|done].
        apply (before_irrefl (graph m) x Hnd).
        apply (before_trans (graph m) x bn x Hnd Hxb).
        apply (before_trans (graph m) bn h x Hnd).
        - apply lint_uses_before; [done..|]. by rewrite Hbnn.
        - apply lint_uses_before; [done..|]. apply uses_true.
          apply elem_of_all_input_nodes. left. exists (A_node c0).
          split; [by eapply list_elem_of_lookup_2|]. rewrite Hhn. simpl. by left. }
      assert (c0 ≠ conv_node) as Hc0ne.
      { intros ->. rewrite Hconv in Hc0. injection Hc0 as <-.
        destruct Hk0; congruence. }
      apply (fusion_candidate_none_conv m' _ c0
               (map_node_args (redirect (getitem_0_users (graph m) bn_node) conv_node)
                  conv0)).
      * simpl. rewrite list_lookup_fmap, Ha0. simpl. unfold redirect.
        by rewrite decide_False.
      * rewrite <- Hc0n.
        apply (get_node_elem_of m'
                 (map_node_args (redirect (getitem_0_users (graph m) bn_node)
                                   conv_node) conv0)).
        -- apply lint_NoDup.
           by apply (fold_keeps_lint E m conv_node bn_node conv bn Hlint Hconv Hbn
                       Hfeed conv_weight_node conv_bias_node m').
        -- apply (fold_result_keeps E m m' conv_node bn_node conv bn conv_weight_node
                    conv_bias_node Hlint Hconv Hbn Hfeed Hfold); [done|congruence].
      * done.
  - right. split; [done|]. split; [done|]. simpl.
    intros u' Hu' Huse v' Hv'.
    destruct (fold_result_uses E m m' conv_node bn_node conv bn conv_weight_node
                conv_bias_node Hlint Hconv Hbn Hfeed Hfold u' (name x) Hu')
      as [(u & Hu & -> & Hux)|[Hcx _]];
      [by apply list_elem_of_fmap_2|done|done| |].
    + simpl. apply not_true_is_false. intros Hvu.
      assert (getitem_0 u = true) as Hg0 by (by apply (Hfirst x u)).
      destruct (fold_result_uses E m m' conv_node bn_node conv bn conv_weight_node
                  conv_bias_node Hlint Hconv Hbn Hfeed Hfold v' (name u) Hv')
        as [(v & Hv & _ & Hvu')|[Hcu _]].
      * by apply list_elem_of_fmap_2.
      * by apply getitem_0_not_conv.
      * done.
      * by rewrite (Hdead u Hu Hux v Hv) in Hvu'.
      * by rewrite (Hdead u Hu Hux conv Hc) in Hcu.
    + pose proof (Hfirst x conv Hx Hc Hop Ht Hcx) as Hg.
      by rewrite conv_not_getitem_0 in Hg.
Qed.

End fold_settles.

Section second_run_of_the_pass.
Context {tensor : Type} (E : Externals tensor).
Implicit Types (m : GraphModule tensor).

(** One iteration of the loop: the names from the cursor on stay, and the
    nodes before the cursor, the visited one included, are settled. *)
Lemma fuse_visit_settles (n : node_id) (s s' : GraphModule tensor * list Node)
    (P Q : list node_id) :
  (lint (graph s.1) = true ∧ first_output_only (graph s.1)
   ∧ ∀ x, x ∈ graph s.1 → name x ∈ P → settled s.1 x) →
  name <$> graph s.1 = P ++ n :: Q →
  NoDup (name <$> graph s.1) →
  fuse_visit E n s = Ok s' →
  ∃ P', name <$> graph s'.1 = P' ++ n :: Q
        ∧ NoDup (name <$> graph s'.1)
        ∧ (lint (graph s'.1) = true ∧ first_output_only (graph s'.1)
           ∧ ∀ x, x ∈ graph s'.1 → name x ∈ P' ++ [n] → settled s'.1 x).
Proof.
  destruct s as [m folded]. simpl. intros (Hl & HA & Hset) Hnames Hnd Hv.
  unfold fuse_visit in Hv.
  apply bind_Ok in Hv as (bn & Hbn & Hv).
  apply bind_Ok in Hv as (c & Hc & Hv).
  destruct (get_node_Ok m n bn Hbn) as [Hb Hbnn].
  destruct c as [[[conv_node w] b]|].
  2:{ injection Hv as <-. simpl. exists P. split; [done|]. split; [done|].
      split; [done|]. split; [done|]. intros x Hx Hin.
      apply elem_of_app in Hin as [Hin|Hin]; [by apply Hset|].
      apply list_elem_of_singleton in Hin.
      assert (x = bn) as ->.
      { apply (elem_of_same_name (graph m)); [done..|congruence]. }
      by left. }
  apply bind_Ok in Hv as (m' & Hfold & Hv). injection Hv as <-. simpl.
  destruct (fusion_candidate_inv _ _ _ _ _ Hc)
    as (Hfeed & conv & Hconv & Hcop & Hct & _).
  destruct (fusion_candidate_Some _ _ _ Hc) as [Hbop Hbt].
  destruct (get_node_Ok m conv_node conv Hconv) as [Hcin Hcn].
  pose proof (fold_keeps_lint E m conv_node n conv bn Hl Hconv Hbn Hfeed w b m' Hfold)
    as Hl'.
  pose proof (lint_NoDup _ Hl') as Hnd'.
  destruct (fold_graph_members E m conv_node n conv bn Hl Hconv Hbn Hfeed w b m' Hfold)
    as (pre & post & extra & conv1 & Hg & Hg' & Hn1 & _ & Hextra).
  pose proof (conv_before_bn m conv_node n conv bn Hl Hconv Hbn Hfeed) as Hcb.
  (* the batch norm comes after the convolution *)
  assert (bn ∈ post) as Hbpost.
  { pose proof Hb as Hb'. rewrite Hg in Hb'.
    rewrite elem_of_app, elem_of_cons in Hb'. destruct Hb' as [Hb'|[Hb'|Hb']];
      [|rewrite Hb', Hct in Hbt; discriminate|done].
    destruct (before_irrefl (graph m) conv Hnd).
    apply (before_trans (graph m) conv bn conv Hnd Hcb).
    by apply (elem_of_front_before (graph m) pre post). }
  apply list_elem_of_split in Hbpost as (p1 & p2 & Hpost).
  assert (graph m = (pre ++ conv :: p1) ++ bn :: p2) as Hshape.
  { rewrite Hg, Hpost, <- app_assoc. done. }
  assert (P = name <$> (pre ++ conv :: p1) ∧ Q = name <$> p2) as [HP HQ].
  { apply (NoDup_middle_inj _ _ _ _ n); [by rewrite <- Hnames|].
    rewrite <- Hnames, Hshape, fmap_app, fmap_cons. by rewrite Hbnn. }
  exists ((name <$> pre) ++ (name <$> extra) ++ conv_node :: (name <$> p1)).
  assert (name <$> graph m'
          = ((name <$> pre) ++ (name <$> extra) ++ conv_node :: (name <$> p1))
            ++ n :: Q) as Hnames'.
  { rewrite Hg', Hpost, HQ. rewrite !fmap_app, !fmap_cons, !fmap_app, !fmap_cons.
    rewrite !names_map_node_args. simpl. rewrite Hn1, Hbnn.
    rewrite <- !app_assoc. simpl. by rewrite <- ?app_assoc. }
  split; [done|]. split; [done|]. split; [done|]. split.
  { by apply (fold_first_output_only E m m' conv_node n conv bn w b). }
  intros x' Hx' Hin.
  destruct (decide (name x' = n)) as [Hxn|Hxn].
  { by apply (fold_settles_bn E m m' conv_node n conv bn w b). }
  destruct (decide (name x' = conv_node)) as [Hxc|Hxc].
  { apply (fold_settles_created E m m' conv_node n conv bn w b); try done.
    by right. }
  destruct (fold_result_nodes E m m' conv_node n conv bn w b Hl Hconv Hbn Hfeed
              Hfold x' Hx')
    as [(x & Hx & Hne & ->)|[(_ & _ & Hnew)|(Hn' & _)]]; [| |done].
  2:{ apply (fold_settles_created E m m' conv_node n conv bn w b); try done.
      by left. }
  simpl in Hxn, Hin.
  assert (x ∈ pre ++ conv :: p1) as Hfront.
  { pose proof Hx as Hx0. rewrite Hshape in Hx0.
    rewrite elem_of_app, elem_of_cons in Hx0. destruct Hx0 as [?|[->|Hx2]];
      [done|congruence|].
    exfalso. rewrite Hnames' in Hnd'. apply NoDup_app in Hnd' as (_ & Hdisj & _).
    apply (Hdisj (name x)).
    - apply elem_of_app in Hin as [Hin|Hin]; [done|].
      apply list_elem_of_singleton in Hin. congruence.
    - right. rewrite HQ. by apply list_elem_of_fmap_2. }
  apply (fold_keeps_settled E m m' conv_node n conv bn w b); try done.
  - by apply (elem_of_front_before (graph m) (pre ++ conv :: p1) p2).
  - apply Hset; [done|]. rewrite HP. by apply list_elem_of_fmap_2.
Qed.

(** What the sweep keeps is a node with a side effect or a node used by a
    kept node. *)
Lemma elem_of_sweep_inv (g : list Node) (x : Node) :
  x ∈ sweep E g →
  is_impure E x = true ∨ ∃ u, u ∈ sweep E g ∧ uses u (name x) = true.
Proof.
  induction g as [|y g IH]; [by intros ?%elem_of_nil|].
  change (sweep E (y :: g))
    with (if dead_node E y (sweep E g) then sweep E g else y :: sweep E g).
  destruct (dead_node E y (sweep E g)) eqn:Hdead; [done|].
  intros [->|Hx]%elem_of_cons.
  - unfold dead_node in Hdead. apply andb_false_iff in Hdead as [Himp|Huse].
    + left. by apply negb_false_iff in Himp.
    + right. apply bool_decide_eq_false in Huse.
      destruct (users (sweep E g) (name y)) as [|u us] eqn:Hus; [done|].
      assert (u ∈ users (sweep E g) (name y)) as Hu by (rewrite Hus; by left).
      unfold users in Hu. apply list_elem_of_filter in Hu as [Hu Hin].
      exists u. split; [by right|done].
  - destruct (IH Hx) as [?|(u & Hu & Huse)]; [by left|].
    right. exists u. split; [by right|done].
Qed.


End second_run_of_the_pass.

